(** * Chronicles of the Banished Immortal's Elegance: the per-frame core

    A shallow embedding of the three stateful classes that run every frame:
    [AnimationManager] (src/utils/AnimationManager.ts), [InteractionSystem]
    (src/components/InteractionSystem.ts) and [PerformanceOptimizer]
    (src/utils/PerformanceOptimizer.ts), with the properties their
    specification states about them.

    JavaScript numbers are IEEE-754 binary64 values: they are modelled by
    Rocq's primitive floats, so that [NaN], signed zeros, infinities and
    rounding behave as they do at run time. *)

From Stdlib Require Import ZArith Floats List String Bool Lia Setoid.
Import ListNotations.

(** * Part I: the model *)

(** ** JavaScript numbers *)

Module JSNumber.

Open Scope float_scope.

Definition number := float.

(** [Math.PI], the binary64 value nearest to pi. *)
Definition PI : number := 0x1.921fb54442d18p+1.

(** [ToBoolean] on a number: [+0], [-0] and [NaN] are falsy. *)
Definition truthy (v : number) : bool := negb ((v =? 0) || is_nan v).

(** [field || d] where [field] is an optional numeric property: an absent
    property reads as [undefined], which is falsy. *)
Definition or_default (field : option number) (d : number) : number :=
  match field with
  | Some v => if truthy v then v else d
  | None => d
  end.

(** [n % d] (ECMA-262 Number::remainder): the result takes the sign of the
    dividend and is exact. *)
Definition js_rem (n d : number) : number :=
  match Prim2SF n, Prim2SF d with
  | S754_nan, _ => nan
  | _, S754_nan => nan
  | S754_infinity _, _ => nan
  | _, S754_infinity _ => n
  | _, S754_zero _ => nan
  | S754_zero _, _ => n
  | S754_finite sn mn en, S754_finite _ md ed =>
      let e := Z.min en ed in
      let r := Z.rem (Z.pos mn * 2 ^ (en - e)) (Z.pos md * 2 ^ (ed - e)) in
      if (r =? 0)%Z then (if sn then -0 else 0)
      else SF2Prim (binary_normalize prec emax (if sn then - r else r)%Z e false)
  end.

(** [Math.min(a, b)]: [NaN] if either argument is, and [-0] below [+0]. *)
Definition Math_min (a b : number) : number :=
  if is_nan a || is_nan b then nan
  else if a <? b then a
  else if b <? a then b
  else if get_sign a then a else b.

(** The comparison operators of the source, on numbers. *)
Definition gt (a b : number) : bool := b <? a.
Definition ge (a b : number) : bool := b <=? a.

(** Case analysis on the exponent and mantissa comparisons inside
    [SFcompare]. *)
Ltac order_cases :=
  repeat match goal with
  | H : context [(?a ?= ?b)%Z] |- _ => destruct (Z.compare_spec a b); try subst
  | |- context [(?a ?= ?b)%Z] => destruct (Z.compare_spec a b); try subst
  | H : context [Pos.compare_cont Eq ?a ?b] |- _ =>
      change (Pos.compare_cont Eq a b) with (Pos.compare a b) in H;
      destruct (Pos.compare_spec a b); try subst
  | |- context [Pos.compare_cont Eq ?a ?b] =>
      change (Pos.compare_cont Eq a b) with (Pos.compare a b);
      destruct (Pos.compare_spec a b); try subst
  end; simpl in *; try discriminate; try reflexivity; try lia.

End JSNumber.

(** ** The slice of three.js the three classes use *)

Module THREE.

Import JSNumber.
Open Scope float_scope.

Record Vector3 := { x : number; y : number; z : number }.

(** An [Euler]'s angles; the rotation order is never touched by the code. *)
Record Euler := { ex : number; ey : number; ez : number }.

Record Color := { r : number; g : number; b : number }.

Record Sphere := { center : Vector3; radius : number }.

(** A [Matrix4] by its sixteen elements. *)
Record Matrix4 := { elements : list number }.

(** A [Frustum] by its planes (normal, constant). *)
Record Frustum := { planes : list (Vector3 * number) }.

(** [object.material]: only a [MeshPhongMaterial] has the [emissive] and
    [shininess] the code writes; any other material (or an array of
    materials) fails the [instanceof] test. *)
Inductive Material :=
| MeshPhongMaterial (emissive : Color) (shininess : number)
| OtherMaterial.

(** What a [THREE.Mesh] adds to an [Object3D]. Every mesh is given a
    material of its own here. In three.js a material is an object that
    several meshes may use, and a write to it shows in all of them: that is
    not modelled. The properties below are about the material of one mesh at
    a time; where they speak of the other nodes, they leave the material's
    colour out or exclude the writes that could reach it, so that they hold
    of meshes that share a material as well. *)
Record Mesh := {
  material : Material;
  castShadow : bool;
  boundingSphere : option Sphere   (* geometry.boundingSphere, null until computed *)
}.

(** The own properties of a scene node; [mesh] is [Some] exactly when the
    node is [instanceof THREE.Mesh]. Parent and child links are kept by the
    models that walk them. *)
Record Object3D := {
  position : Vector3;
  rotation : Euler;
  scale : Vector3;
  visible : bool;
  matrixWorld : Matrix4;
  mesh : option Mesh
}.

(** [Vector3.multiplyScalar] and [Color.multiplyScalar]. *)
Definition multiplyScalar (v : Vector3) (s : number) : Vector3 :=
  {| x := x v * s; y := y v * s; z := z v * s |}.

Definition Color_multiplyScalar (c : Color) (s : number) : Color :=
  {| r := r c * s; g := g c * s; b := b c * s |}.

(** [Vector3.distanceTo]: the square root of [distanceToSquared]. *)
Definition distanceTo (a v : Vector3) : number :=
  let dx := x a - x v in
  let dy := y a - y v in
  let dz := z a - z v in
  sqrt (dx * dx + dy * dy + dz * dz).

(** Field writes. *)
Definition set_position (p : Vector3) (o : Object3D) : Object3D :=
  {| position := p; rotation := rotation o; scale := scale o;
     visible := visible o; matrixWorld := matrixWorld o; mesh := mesh o |}.

Definition set_rotation (e : Euler) (o : Object3D) : Object3D :=
  {| position := position o; rotation := e; scale := scale o;
     visible := visible o; matrixWorld := matrixWorld o; mesh := mesh o |}.

Definition set_scale (s : Vector3) (o : Object3D) : Object3D :=
  {| position := position o; rotation := rotation o; scale := s;
     visible := visible o; matrixWorld := matrixWorld o; mesh := mesh o |}.

Definition set_visible (v : bool) (o : Object3D) : Object3D :=
  {| position := position o; rotation := rotation o; scale := scale o;
     visible := v; matrixWorld := matrixWorld o; mesh := mesh o |}.

Definition set_mesh (m : option Mesh) (o : Object3D) : Object3D :=
  {| position := position o; rotation := rotation o; scale := scale o;
     visible := visible o; matrixWorld := matrixWorld o; mesh := m |}.

(** [object.material.emissive.copy(c)], when the object is a mesh with a
    Phong material; nothing otherwise. *)
Definition set_emissive (c : Color) (o : Object3D) : Object3D :=
  match mesh o with
  | Some {| material := MeshPhongMaterial _ s; castShadow := cs; boundingSphere := bs |} =>
      set_mesh (Some {| material := MeshPhongMaterial c s; castShadow := cs;
                        boundingSphere := bs |}) o
  | _ => o
  end.

(** [object instanceof THREE.Mesh && object.material instanceof
    THREE.MeshPhongMaterial], with the emissive colour read there. *)
Definition phong_emissive (o : Object3D) : option Color :=
  match mesh o with
  | Some {| material := MeshPhongMaterial e _ |} => Some e
  | _ => None
  end.

End THREE.

(** ** AnimationManager (src/utils/AnimationManager.ts) *)

Module AnimationManager.

Import JSNumber THREE.
Open Scope float_scope.

Inductive AnimationType := FLOAT | ROTATE | PULSE | GLOW | BOUNCE.

Record AnimationConfig := {
  type : AnimationType;
  duration : number;
  amplitude : option number;
  speed : option number;
  loop : option bool;
  autoStart : option bool
}.

(** An instance refers to its scene node by reference ([object]); the four
    [original*] fields are the baseline, always filled by [addAnimation]
    ([originalEmissive] only for a Phong mesh). *)
Record AnimationInstance := {
  object : nat;
  config : AnimationConfig;
  startTime : number;
  isActive : bool;
  originalPosition : Vector3;
  originalRotation : Euler;
  originalScale : Vector3;
  originalEmissive : option Color
}.

(** The scene nodes, by reference: instances alias the nodes they animate. *)
Definition Heap := nat -> Object3D.

Definition write (h : Heap) (ref : nat) (o : Object3D) : Heap :=
  fun ref' => if Nat.eqb ref' ref then o else h ref'.

(** A JavaScript [Map] keeps insertion order, and [update] iterates in it:
    an association list, [set] replacing in place. *)
Definition AnimationMap := list (string * AnimationInstance).

Fixpoint Map_get (id : string) (m : AnimationMap) : option AnimationInstance :=
  match m with
  | [] => None
  | (k, a) :: m' => if String.eqb k id then Some a else Map_get id m'
  end.

Fixpoint Map_set (id : string) (a : AnimationInstance) (m : AnimationMap) : AnimationMap :=
  match m with
  | [] => [(id, a)]
  | (k, a0) :: m' =>
      if String.eqb k id then (k, a) :: m' else (k, a0) :: Map_set id a m'
  end.

Definition Map_delete (id : string) (m : AnimationMap) : AnimationMap :=
  filter (fun kv => negb (String.eqb (fst kv) id)) m.

(** The manager: the registry, the [isRunning] flag of the shared loop, and
    the number of [requestAnimationFrame] callbacks waiting for a frame. *)
Record Manager := {
  animations : AnimationMap;
  isRunning : bool;
  scheduled : nat
}.

Record World := { heap : Heap; manager : Manager }.

Definition new_manager : Manager :=
  {| animations := []; isRunning := false; scheduled := 0 |}.

Definition set_animations (m : AnimationMap) (w : World) : World :=
  {| heap := heap w;
     manager := {| animations := m; isRunning := isRunning (manager w);
                   scheduled := scheduled (manager w) |} |}.

Definition set_isRunning (v : bool) (w : World) : World :=
  {| heap := heap w;
     manager := {| animations := animations (manager w); isRunning := v;
                   scheduled := scheduled (manager w) |} |}.

Definition set_scheduled (n : nat) (w : World) : World :=
  {| heap := heap w;
     manager := {| animations := animations (manager w);
                   isRunning := isRunning (manager w); scheduled := n |} |}.

Definition set_heap (h : Heap) (w : World) : World :=
  {| heap := h; manager := manager w |}.

(** [{ loop: true, autoStart: true, ...config }] *)
Definition with_defaults (c : AnimationConfig) : AnimationConfig :=
  {| type := type c; duration := duration c; amplitude := amplitude c;
     speed := speed c;
     loop := Some (match loop c with Some v => v | None => true end);
     autoStart := Some (match autoStart c with Some v => v | None => true end) |}.

(** [config.autoStart !== false] *)
Definition autoStart_not_false (c : AnimationConfig) : bool :=
  match autoStart c with Some false => false | _ => true end.

Definition set_active (v : bool) (t : number) (a : AnimationInstance) : AnimationInstance :=
  {| object := object a; config := config a; startTime := t; isActive := v;
     originalPosition := originalPosition a; originalRotation := originalRotation a;
     originalScale := originalScale a; originalEmissive := originalEmissive a |}.

Section Host.

(** [Math.sin] is the host's: ECMA-262 leaves its results
    implementation-approximated, so the model takes it as given. *)
Variable Math_sin : number -> number.

Definition updateFloatAnimation (o : Object3D) (originalPosition : Vector3)
    (c : AnimationConfig) (progress : number) : Object3D :=
  let amplitude := or_default (amplitude c) 1 in
  let offset := Math_sin (progress * PI * 2) * amplitude in
  set_position {| x := x originalPosition; y := y originalPosition + offset;
                  z := z originalPosition |} o.

Definition updateRotateAnimation (o : Object3D) (originalRotation : Euler)
    (c : AnimationConfig) (elapsed : number) : Object3D :=
  let speed := or_default (speed c) 1 in
  set_rotation {| ex := ex originalRotation; ey := ey originalRotation + elapsed * speed;
                  ez := ez originalRotation |} o.

Definition updatePulseAnimation (o : Object3D) (originalScale : Vector3)
    (c : AnimationConfig) (progress : number) : Object3D :=
  let amplitude := or_default (amplitude c) 0x1.999999999999ap-3 (* 0.2 *) in
  let scale := 1 + Math_sin (progress * PI * 2) * amplitude in
  set_scale (multiplyScalar originalScale scale) o.

Definition updateGlowAnimation (o : Object3D) (originalEmissive : option Color)
    (c : AnimationConfig) (progress : number) : Object3D :=
  match phong_emissive o, originalEmissive with
  | Some _, Some e =>
      let intensity := (Math_sin (progress * PI * 2) + 1) * 0.5 in
      let amplitude := or_default (amplitude c) 0x1.3333333333333p-2 (* 0.3 *) in
      set_emissive (Color_multiplyScalar e (intensity * amplitude)) o
  | _, _ => o
  end.

Definition updateBounceAnimation (o : Object3D) (originalPosition : Vector3)
    (c : AnimationConfig) (progress : number) : Object3D :=
  let amplitude := or_default (amplitude c) 2 in
  let bounceProgress := progress * 2 in
  let bounceProgress := if gt bounceProgress 1 then 2 - bounceProgress else bounceProgress in
  let height := 4 * bounceProgress * (1 - bounceProgress) * amplitude in
  set_position {| x := x originalPosition; y := y originalPosition + height;
                  z := z originalPosition |} o.

(** [updateAnimation]: the waveform of the instance's kind, written to the
    node the instance refers to. *)
Definition updateAnimation (h : Heap) (a : AnimationInstance)
    (progress elapsed : number) : Heap :=
  let o := h (object a) in
  write h (object a)
    match type (config a) with
    | FLOAT => updateFloatAnimation o (originalPosition a) (config a) progress
    | ROTATE => updateRotateAnimation o (originalRotation a) (config a) elapsed
    | PULSE => updatePulseAnimation o (originalScale a) (config a) progress
    | GLOW => updateGlowAnimation o (originalEmissive a) (config a) progress
    | BOUNCE => updateBounceAnimation o (originalPosition a) (config a) progress
    end.

(** The body of [update]'s loop for one registry entry at clock time
    [currentTime]. *)
Definition update_entry (currentTime : number) (h : Heap) (a : AnimationInstance) : Heap :=
  if negb (isActive a) then h
  else
    let elapsed := currentTime - startTime a in
    let progress := js_rem elapsed (duration (config a)) / duration (config a) in
    updateAnimation h a progress elapsed.

(** [update]: one tick of the loop, then the next frame is requested. *)
Definition update (currentTime : number) (w : World) : World :=
  if negb (isRunning (manager w)) then w
  else
    let h := fold_left (fun h kv => update_entry currentTime h (snd kv))
               (animations (manager w)) (heap w) in
    set_scheduled (S (scheduled (manager w))) (set_heap h w).

(** [start] runs the first tick itself; [now] is what the clock reads then. *)
Definition start (now : number) (w : World) : World :=
  if isRunning (manager w) then w else update now (set_isRunning true w).

Definition stop (w : World) : World := set_isRunning false w.

(** [addAnimation]: [now] is the clock read for [startTime], [now'] the read
    of the first tick when the loop is started. *)
Definition addAnimation (id : string) (object : nat) (config : AnimationConfig)
    (now now' : number) (w : World) : World :=
  let o := heap w object in
  let animation :=
    {| object := object; config := with_defaults config; startTime := now;
       isActive := autoStart_not_false config;
       originalPosition := position o; originalRotation := rotation o;
       originalScale := scale o; originalEmissive := phong_emissive o |} in
  let w := set_animations (Map_set id animation (animations (manager w))) w in
  if negb (isRunning (manager w)) && isActive animation then start now' w else w.

(** The writes of [removeAnimation] that put the baseline back. *)
Definition restore (a : AnimationInstance) (o : Object3D) : Object3D :=
  let o := set_position (originalPosition a) o in
  let o := set_rotation (originalRotation a) o in
  let o := set_scale (originalScale a) o in
  match originalEmissive a with
  | Some e => set_emissive e o
  | None => o
  end.

Definition removeAnimation (id : string) (w : World) : World :=
  let w :=
    match Map_get id (animations (manager w)) with
    | Some a =>
        set_animations (Map_delete id (animations (manager w)))
          (set_heap (write (heap w) (object a) (restore a (heap w (object a)))) w)
    | None => w
    end in
  if Nat.eqb (List.length (animations (manager w))) 0 then stop w else w.

Definition playAnimation (id : string) (now now' : number) (w : World) : World :=
  match Map_get id (animations (manager w)) with
  | Some a =>
      let w := set_animations (Map_set id (set_active true now a) (animations (manager w))) w in
      if negb (isRunning (manager w)) then start now' w else w
  | None => w
  end.

Definition pauseAnimation (id : string) (w : World) : World :=
  match Map_get id (animations (manager w)) with
  | Some a =>
      set_animations (Map_set id (set_active false (startTime a) a) (animations (manager w))) w
  | None => w
  end.

Definition isAnimationActive (id : string) (w : World) : bool :=
  match Map_get id (animations (manager w)) with
  | Some a => isActive a
  | None => false
  end.

Definition hasAnimation (id : string) (w : World) : bool :=
  match Map_get id (animations (manager w)) with Some _ => true | None => false end.

Definition getAnimationIds (w : World) : list string :=
  map fst (animations (manager w)).

(** A frame of the host: one waiting [requestAnimationFrame] callback runs,
    and it is [update]. *)
Definition frame (now : number) (w : World) : World :=
  match scheduled (manager w) with
  | O => w
  | S n => update now (set_scheduled n w)
  end.

(** The calls the registry receives, and a run of them. *)
Inductive Op :=
| OpAdd (id : string) (object : nat) (config : AnimationConfig) (now now' : number)
| OpRemove (id : string)
| OpPlay (id : string) (now now' : number)
| OpPause (id : string)
| OpFrame (now : number).

Definition step (w : World) (op : Op) : World :=
  match op with
  | OpAdd id object config now now' => addAnimation id object config now now' w
  | OpRemove id => removeAnimation id w
  | OpPlay id now now' => playAnimation id now now' w
  | OpPause id => pauseAnimation id w
  | OpFrame now => frame now w
  end.

Definition run (ops : list Op) (w : World) : World := fold_left step ops w.

End Host.

(** A world whose registry was just constructed. *)
Definition fresh (h : Heap) : World := {| heap := h; manager := new_manager |}.

(** *** The vocabulary of the properties *)



(** The baseline an instance holds. *)
Definition baseline (a : AnimationInstance) : Vector3 * Euler * Vector3 * option Color :=
  (originalPosition a, originalRotation a, originalScale a, originalEmissive a).

(** Does the call register or unregister [id]? *)
Definition replaces (id : string) (op : Op) : bool :=
  match op with
  | OpAdd id' _ _ _ _ => String.eqb id' id
  | OpRemove id' => String.eqb id' id
  | _ => false
  end.

(** Everything of a node but its position, rotation, scale and emissive
    colour. *)
Definition untouched (o : Object3D) :
    bool * Matrix4 * option (option number * bool * option Sphere) :=
  (visible o, matrixWorld o,
   match mesh o with
   | Some m =>
       Some (match material m with
             | MeshPhongMaterial _ s => Some s
             | OtherMaterial => None
             end, castShadow m, boundingSphere m)
   | None => None
   end).

(** *** A host for the worked examples *)

(** A host sine for the worked examples: Cody-Waite reduction by multiples
    of pi/2 and the usual minimax kernels on the reduced argument. It agrees
    with ECMA-262 where the standard fixes [Math.sin]: [NaN] and the
    infinities give [NaN], a zero gives itself. *)
#[local] Set Warnings "-inexact-float".

Definition kernel_sin (v : number) : number :=
  if abs v <? 0x1p-27 then v
  else
    let z := v * v in
    v + v * z * (-1.66666666666666324348e-01 + z * (8.33333333332248946124e-03
      + z * (-1.98412698298579493134e-04 + z * (2.75573137070700676789e-06
      + z * (-2.50507602534068634195e-08 + z * 1.58969099521155010221e-10))))).

Definition kernel_cos (v : number) : number :=
  let z := v * v in
  1 - z * 0.5 + z * z * (4.16666666666666019037e-02 + z * (-1.38888888888741095749e-03
    + z * (2.48015872894767294178e-05 + z * (-2.75573143513906633035e-07
    + z * (2.08757232129817482790e-09 + z * -1.13596475577881948265e-11))))).

(** The nearest integer, for arguments far below 2^51. *)
Definition round_int (v : number) : number := (v + 0x1.8p52) - 0x1.8p52.

Definition sample_sin (v : number) : number :=
  if is_nan v || is_infinity v then nan
  else
    let n := round_int (v * 6.36619772367581382433e-01) in
    let t := (v - n * 1.57079632673412561417e+00) - n * 6.07710050650619224932e-11 in
    let q := n - 4 * round_int (n * 0.25 - 0x1p-3) in
    if q =? 0 then kernel_sin t
    else if q =? 1 then kernel_cos t
    else if q =? 2 then - kernel_sin t
    else - kernel_cos t.

#[local] Set Warnings "+inexact-float".

(** *** Sample scenes for the worked examples *)

(** A plain node at height 5, unrotated, at unit scale. *)
Definition node_at_5 : Object3D :=
  {| position := {| x := 0; y := 5; z := 0 |};
     rotation := {| ex := 0; ey := 0; ez := 0 |};
     scale := {| x := 1; y := 1; z := 1 |};
     visible := true; matrixWorld := {| elements := [] |}; mesh := None |}.

Definition sample_heap : Heap := fun _ => node_at_5.

Definition config_of (t : AnimationType) (duration : number)
    (amplitude speed : option number) : AnimationConfig :=
  {| type := t; duration := duration; amplitude := amplitude; speed := speed;
     loop := None; autoStart := None |}.

(** A Float animation of duration 4 and amplitude 2. *)
Definition float_config : AnimationConfig := config_of FLOAT 4 (Some 2) None.

(** The sample scene with that animation registered as "a" on node 0 at
    time 0. *)
Definition one_float : World :=
  addAnimation sample_sin "a" 0%nat float_config 0 0 (fresh sample_heap).

(** A Rotate animation of duration 0 and speed 2, and an instance of it on
    node 0 started at time 0. *)
Definition spin_config : AnimationConfig := config_of ROTATE 0 None (Some 2).

Definition spinning : AnimationInstance :=
  {| object := 0%nat; config := with_defaults spin_config; startTime := 0;
     isActive := true;
     originalPosition := position node_at_5; originalRotation := rotation node_at_5;
     originalScale := scale node_at_5; originalEmissive := None |}.

(** *** Clearing the registry *)

(** [clearAll]: [removeAnimation] on every key of the registry. The
    iterator of a [Map] is live, and [removeAnimation] deletes the entry
    being visited and no other: each key is visited once, in insertion
    order. *)
Definition clearAll (w : World) : World :=
  fold_left (fun w id => removeAnimation id w) (getAnimationIds w) w.

Definition dispose (w : World) : World := stop (clearAll w).

(** Every public call of the class, with the frames of the host. *)
Inductive Invocation :=
| Registry (op : Op)
| Start (now : number)
| Stop
| ClearAll
| Dispose.

Definition invoke (Math_sin : number -> number) (w : World) (i : Invocation) : World :=
  match i with
  | Registry op => step Math_sin w op
  | Start now => start Math_sin now w
  | Stop => stop w
  | ClearAll => clearAll w
  | Dispose => dispose w
  end.

Definition invoke_all (Math_sin : number -> number) (l : list Invocation) (w : World)
    : World :=
  fold_left (invoke Math_sin) l w.

(** *** More vocabulary *)

(** The instance with another [loop] flag in its configuration. *)
Definition set_loop (v : option bool) (a : AnimationInstance) : AnimationInstance :=
  {| object := object a;
     config := {| type := type (config a); duration := duration (config a);
                  amplitude := amplitude (config a); speed := speed (config a);
                  loop := v; autoStart := autoStart (config a) |};
     startTime := startTime a; isActive := isActive a;
     originalPosition := originalPosition a; originalRotation := originalRotation a;
     originalScale := originalScale a; originalEmissive := originalEmissive a |}.

(** The attribute of a node that each kind of animation writes. *)
Inductive Attribute :=
| Position (v : Vector3)
| Rotation (e : Euler)
| Scale (v : Vector3)
| Emissive (c : option Color).

Definition attribute (t : AnimationType) (o : Object3D) : Attribute :=
  match t with
  | FLOAT | BOUNCE => Position (position o)
  | ROTATE => Rotation (rotation o)
  | PULSE => Scale (scale o)
  | GLOW => Emissive (phong_emissive o)
  end.

Definition same_attribute (t t' : AnimationType) : bool :=
  match t, t' with
  | (FLOAT | BOUNCE), (FLOAT | BOUNCE) => true
  | ROTATE, ROTATE => true
  | PULSE, PULSE => true
  | GLOW, GLOW => true
  | _, _ => false
  end.

(** The frames of the host at the clock readings [times]. *)
Definition frames (times : list number) : list Op := map OpFrame times.

(** Everything of a node but the emissive colour, which belongs to the
    material; a material may be one that other meshes use too. *)
Definition but_emissive (o : Object3D) :=
  (position o, rotation o, scale o, untouched o).

(** *** More sample scenes *)

(** A Phong mesh with a dark green emissive colour, as node 1 of a scene
    whose other nodes are plain. *)
Definition jade : Color := {| r := 0; g := 0x1.1111111111111p-3; b := 0 |}.

Definition jade_mesh : Object3D :=
  {| position := {| x := -5; y := 2; z := 0 |};
     rotation := {| ex := 0; ey := 0; ez := 0 |};
     scale := {| x := 1; y := 1; z := 1 |};
     visible := true; matrixWorld := {| elements := [] |};
     mesh := Some {| material := MeshPhongMaterial jade 100; castShadow := false;
                     boundingSphere := None |} |}.

Definition jade_heap : Heap := fun ref => if Nat.eqb ref 1 then jade_mesh else node_at_5.

(** The glow of the jade flute and the stronger glow that replaces it while
    the flute is hovered (src/main.ts). *)
Definition glow_config : AnimationConfig := config_of GLOW 2 (Some 0x1.999999999999ap-1 (* 0.8 *)) None.
Definition glow_hover_config : AnimationConfig := config_of GLOW 1 (Some 1.5) None.

(** The flute with its Float and Glow animations registered at time 0, one
    frame later. *)
Definition flute_world : World :=
  run sample_sin
    [OpAdd "flute_float" 1%nat (config_of FLOAT 3 (Some 0.5) None) 0 0;
     OpAdd "flute_glow" 1%nat glow_config 0 0;
     OpFrame 0.5]
    (fresh jade_heap).

(** Node 0 with a Float and then a Bounce animation registered on it: both
    write its position. *)
Definition bounce_config : AnimationConfig := config_of BOUNCE 1 (Some 1) None.

Definition bounce_instance : AnimationInstance :=
  {| object := 0%nat; config := with_defaults bounce_config; startTime := 0;
     isActive := true;
     originalPosition := position node_at_5; originalRotation := rotation node_at_5;
     originalScale := scale node_at_5; originalEmissive := None |}.

Definition float_then_bounce : World :=
  run sample_sin
    [OpAdd "a" 0%nat float_config 0 0; OpAdd "b" 0%nat bounce_config 0 0]
    (fresh sample_heap).

(** The flute with its Float animation registered at time 0 and its Glow
    animation registered at time 0.75, when the Float animation holds the
    flute half a unit above its place. *)
Definition drifted_world : World :=
  run sample_sin
    [OpAdd "flute_float" 1%nat (config_of FLOAT 3 (Some 0.5) None) 0 0;
     OpFrame 0.75;
     OpAdd "flute_glow" 1%nat glow_config 0.75 0.75]
    (fresh jade_heap).

(** Node 0 with a Float animation "a" registered at time 0 and a Bounce
    animation "b" registered at time 1, when "a" holds the node two units
    above its place; at time 1.25, with "b" holding the node another unit
    higher, "a" is registered again. It keeps its place before "b" in the
    registry. *)
Definition reregistered_world : World :=
  run sample_sin
    [OpAdd "a" 0%nat float_config 0 0;
     OpFrame 1;
     OpAdd "b" 0%nat bounce_config 1 1;
     OpFrame 1.25;
     OpAdd "a" 0%nat float_config 1.25 1.25]
    (fresh sample_heap).

End AnimationManager.

(** ** InteractionSystem (src/components/InteractionSystem.ts) *)

Module InteractionSystem.

Import JSNumber.
Open Scope float_scope.

(** A scene node as the resolver sees it: its identity (what [===]
    compares) and the chain of its ancestors, up to the node whose
    [parent] is [null]. *)
Inductive Object3D :=
| Orphan (uuid : nat)
| Child (uuid : nat) (parent : Object3D).

Definition uuid (o : Object3D) : nat :=
  match o with Orphan u => u | Child u _ => u end.

Definition parent (o : Object3D) : option Object3D :=
  match o with Orphan _ => None | Child _ p => Some p end.

Definition same_object (a b : Object3D) : bool := Nat.eqb (uuid a) (uuid b).

(** A callback is a closure of the caller's; the model keeps its identity
    and records its invocations. *)
Definition Callback := nat.

(** [self] is the identity of the JavaScript object: [indexOf], [===] and
    [!==] compare entities by it. *)
Record InteractableObject := {
  self : nat;
  object3d : Object3D;
  name : string;
  description : string;
  onInteract : Callback;
  onHover : option Callback;
  onHoverEnd : option Callback;
  interactionDistance : number
}.

Definition same_entity (a b : InteractableObject) : bool := Nat.eqb (self a) (self b).

(** [a === b] on [InteractableObject | null]. *)
Definition same_target (a b : option InteractableObject) : bool :=
  match a, b with
  | Some a, Some b => same_entity a b
  | None, None => true
  | _, _ => false
  end.

(** One entry of the raycaster's answer. *)
Record Intersection := { object : Object3D; distance : number }.

(** The prompt element of the page. *)
Record PromptElement := { textContent : string; visibleClass : bool }.

(** What a handler does that its caller can see, in program order: a
    callback invoked, or the stored hover state written. *)
Inductive Effect :=
| Call (f : Callback)
| SetHovered (target : option nat).

Record System := {
  interactableObjects : list InteractableObject;
  currentHoveredObject : option InteractableObject;
  interactionPrompt : option PromptElement;
  log : list Effect
}.

Definition emit (e : Effect) (s : System) : System :=
  {| interactableObjects := interactableObjects s;
     currentHoveredObject := currentHoveredObject s;
     interactionPrompt := interactionPrompt s;
     log := log s ++ [e] |}.

(** [this.currentHoveredObject = target] *)
Definition set_currentHoveredObject (target : option InteractableObject) (s : System) : System :=
  {| interactableObjects := interactableObjects s;
     currentHoveredObject := target;
     interactionPrompt := interactionPrompt s;
     log := log s ++ [SetHovered (option_map self target)] |}.

Definition set_interactableObjects (l : list InteractableObject) (s : System) : System :=
  {| interactableObjects := l;
     currentHoveredObject := currentHoveredObject s;
     interactionPrompt := interactionPrompt s;
     log := log s |}.

Definition set_interactionPrompt (p : option PromptElement) (s : System) : System :=
  {| interactableObjects := interactableObjects s;
     currentHoveredObject := currentHoveredObject s;
     interactionPrompt := p;
     log := log s |}.

(** [f && f()] for an optional callback. *)
Definition call_if_present (f : option Callback) (s : System) : System :=
  match f with
  | Some f => emit (Call f) s
  | None => s
  end.

(** [isChildOf]: [child] is [parent] or has it among its ancestors. *)
Fixpoint isChildOf (child parent : Object3D) : bool :=
  if same_object child parent then true
  else
    match child with
    | Child _ current => isChildOf current parent
    | Orphan _ => false
    end.

(** The walk of [getIntersectedInteractableObject] over the raycaster's
    answer, which three.js sorts nearest first. *)
Fixpoint resolve (objs : list InteractableObject) (intersects : list Intersection)
    : option InteractableObject :=
  match intersects with
  | [] => None
  | intersect :: rest =>
      match find (fun obj => isChildOf (object intersect) (object3d obj)) objs with
      | Some interactableObject =>
          if distance intersect <=? interactionDistance interactableObject
          then Some interactableObject
          else resolve objs rest
      | None => resolve objs rest
      end
  end.

Definition getIntersectedInteractableObject (intersects : list Intersection) (s : System)
    : option InteractableObject :=
  resolve (interactableObjects s) intersects.

Definition prompt_prefix : string := "点击交互: ".

Definition updateInteractionPrompt (s : System) : System :=
  match interactionPrompt s with
  | None => s
  | Some p =>
      match currentHoveredObject s with
      | Some o =>
          set_interactionPrompt
            (Some {| textContent := prompt_prefix ++ description o; visibleClass := true |}) s
      | None =>
          set_interactionPrompt
            (Some {| textContent := textContent p; visibleClass := false |}) s
      end
  end.

(** [onCanvasMouseMove]. [pointerLocked] is
    [document.pointerLockElement === this.canvas]; [intersects] is what the
    raycaster answers for the ray through the centre of the view. *)
Definition onCanvasMouseMove (pointerLocked : bool) (intersects : list Intersection)
    (s : System) : System :=
  if negb pointerLocked then s
  else
    let intersectedObject := getIntersectedInteractableObject intersects s in
    if same_target intersectedObject (currentHoveredObject s) then s
    else
      let s := match currentHoveredObject s with
               | Some o => call_if_present (onHoverEnd o) s
               | None => s
               end in
      let s := set_currentHoveredObject intersectedObject s in
      let s := match currentHoveredObject s with
               | Some o => call_if_present (onHover o) s
               | None => s
               end in
      updateInteractionPrompt s.

Definition onCanvasClick (pointerLocked : bool) (intersects : list Intersection)
    (s : System) : System :=
  if negb pointerLocked then s
  else
    match getIntersectedInteractableObject intersects s with
    | Some o => emit (Call (onInteract o)) s
    | None => s
    end.

(** [addInteractableObject]; the two debugging marks it leaves in the node's
    [userData] are read by nothing here. *)
Definition addInteractableObject (o : InteractableObject) (s : System) : System :=
  set_interactableObjects (interactableObjects s ++ [o]) s.

(** [indexOf] and [splice(index, 1)]: the first entry identical to [o]. *)
Fixpoint indexOf (o : InteractableObject) (l : list InteractableObject) : option nat :=
  match l with
  | [] => None
  | o' :: l' => if same_entity o' o then Some 0%nat
               else option_map S (indexOf o l')
  end.

Fixpoint splice1 (index : nat) (l : list InteractableObject) : list InteractableObject :=
  match index, l with
  | _, [] => []
  | O, _ :: l' => l'
  | S i, o :: l' => o :: splice1 i l'
  end.

Definition removeInteractableObject (o : InteractableObject) (s : System) : System :=
  match indexOf o (interactableObjects s) with
  | Some index =>
      let s := set_interactableObjects (splice1 index (interactableObjects s)) s in
      if same_target (currentHoveredObject s) (Some o)
      then updateInteractionPrompt (set_currentHoveredObject None s)
      else s
  | None => s
  end.

Definition findInteractableObjectByName (n : string) (s : System) : option InteractableObject :=
  find (fun obj => String.eqb (name obj) n) (interactableObjects s).

(** *** The vocabulary of the properties *)

(** The callbacks among the effects. *)
Definition calls (l : list Effect) : list Callback :=
  flat_map (fun e => match e with Call f => [f] | SetHovered _ => [] end) l.

(** The entity a hit belongs to, and whether the hit is within that
    entity's own interaction distance. *)
Definition owner (objs : list InteractableObject) (i : Intersection)
    : option InteractableObject :=
  find (fun obj => isChildOf (object i) (object3d obj)) objs.

Definition in_range (objs : list InteractableObject) (i : Intersection) : bool :=
  match owner objs i with
  | Some o => distance i <=? interactionDistance o
  | None => false
  end.

(** The calls a hover transition makes on the entity left and on the
    entity entered. *)
Definition hover_end_calls (previous : option InteractableObject) : list Effect :=
  match previous with
  | Some o => match onHoverEnd o with Some f => [Call f] | None => [] end
  | None => []
  end.

Definition hover_begin_calls (target : option InteractableObject) : list Effect :=
  match target with
  | Some o => match onHover o with Some f => [Call f] | None => [] end
  | None => []
  end.

(** *** Sample entities for the worked examples *)

Definition entity (id : nat) (node : Object3D) (radius : number)
    (hover hoverEnd : option Callback) : InteractableObject :=
  {| self := id; object3d := node; name := ""; description := "";
     onInteract := (10 * id)%nat; onHover := hover; onHoverEnd := hoverEnd;
     interactionDistance := radius |}.

(** Two registered entities on sibling nodes 1 and 2 under the scene root 0;
    entity A can be reached from 2 units away, entity B from 10. *)
Definition scene_root : Object3D := Orphan 0.
Definition entity_A : InteractableObject :=
  entity 1 (Child 1 scene_root) 2 (Some 11%nat) (Some 12%nat).
Definition entity_B : InteractableObject :=
  entity 2 (Child 2 scene_root) 10 (Some 21%nat) (Some 22%nat).

(** A hit on a mesh below the node of A, 3 units away, and one on the node
    of B, 5 units away. *)
Definition hit_A : Intersection :=
  {| object := Child 7 (Child 1 scene_root); distance := 3 |}.
Definition hit_B : Intersection :=
  {| object := Child 2 scene_root; distance := 5 |}.

Definition hovering (target : option InteractableObject) : System :=
  {| interactableObjects := [entity_A; entity_B];
     currentHoveredObject := target;
     interactionPrompt := Some {| textContent := ""; visibleClass := false |};
     log := [] |}.

(** *** The rest of the class *)

(** The constructor; [prompt] is what
    [document.getElementById('interaction-prompt')] answers. *)
Definition new_system (prompt : option PromptElement) : System :=
  {| interactableObjects := []; currentHoveredObject := None;
     interactionPrompt := prompt; log := [] |}.

(** [getAllInteractableObjects]: a copy of the registry. *)
Definition getAllInteractableObjects (s : System) : list InteractableObject :=
  interactableObjects s.

(** [dispose], as far as the state of the system goes: the registry is
    emptied and the hover state cleared. *)
Definition dispose (s : System) : System :=
  set_currentHoveredObject None (set_interactableObjects [] s).

(** [createInteractableObject]; [self] is the identity of the object the
    call creates, and an [interactionDistance] left out is 5. *)
Definition createInteractableObject (self : nat) (object3d : Object3D)
    (name description : string) (onInteract : Callback)
    (interactionDistance : option number) (onHover onHoverEnd : option Callback)
    : InteractableObject :=
  {| self := self; object3d := object3d; name := name; description := description;
     onInteract := onInteract; onHover := onHover; onHoverEnd := onHoverEnd;
     interactionDistance := match interactionDistance with Some d => d | None => 5 end |}.

(** *** The listeners on the canvas *)

(** A listener is found again by the type of its event and the identity of
    its function object. [bind] makes a new function object at every call;
    [functions] counts the ones made so far, and the next one is given that
    number as its identity. *)
Inductive EventType := click | mousemove.

Definition same_event (a b : EventType) : bool :=
  match a, b with
  | click, click => true
  | mousemove, mousemove => true
  | _, _ => false
  end.

(** The method a bound function calls. *)
Inductive Method := OnCanvasClick | OnCanvasMouseMove.

(** A function object: its identity, and the method of the system it calls
    when it was made by [bind] on one. *)
Record Function := { identity : nat; method : option Method }.

Record Listener := { event : EventType; callback : Function }.

Record Canvas := { listeners : list Listener; functions : nat }.

(** [this.method.bind(this)] *)
Definition bind (m : Method) (c : Canvas) : Function * Canvas :=
  ({| identity := functions c; method := Some m |},
   {| listeners := listeners c; functions := S (functions c) |}).

Definition same_listener (e : EventType) (f : Function) (l : Listener) : bool :=
  same_event (event l) e && Nat.eqb (identity (callback l)) (identity f).

(** [addEventListener]: a listener already there is not added again. *)
Definition addEventListener (e : EventType) (f : Function) (c : Canvas) : Canvas :=
  if existsb (same_listener e f) (listeners c) then c
  else {| listeners := listeners c ++ [{| event := e; callback := f |}];
          functions := functions c |}.

Definition removeEventListener (e : EventType) (f : Function) (c : Canvas) : Canvas :=
  {| listeners := filter (fun l => negb (same_listener e f l)) (listeners c);
     functions := functions c |}.

Definition setupEventListeners (c : Canvas) : Canvas :=
  let (f, c) := bind OnCanvasClick c in
  let c := addEventListener click f c in
  let (f, c) := bind OnCanvasMouseMove c in
  addEventListener mousemove f c.

(** The two [removeEventListener] calls of [dispose]. *)
Definition dispose_listeners (c : Canvas) : Canvas :=
  let (f, c) := bind OnCanvasClick c in
  let c := removeEventListener click f c in
  let (f, c) := bind OnCanvasMouseMove c in
  removeEventListener mousemove f c.

(** The methods of the system that an event of type [e] on the canvas
    calls. *)
Definition dispatch (e : EventType) (c : Canvas) : list Method :=
  flat_map (fun l => match method (callback l) with Some m => [m] | None => [] end)
    (filter (fun l => same_event (event l) e) (listeners c)).

(** *** The events the system handles *)

Inductive Event :=
| Click (pointerLocked : bool) (intersects : list Intersection)
| MouseMove (pointerLocked : bool) (intersects : list Intersection)
| Add (o : InteractableObject)
| Remove (o : InteractableObject).

Definition handle (s : System) (e : Event) : System :=
  match e with
  | Click pointerLocked intersects => onCanvasClick pointerLocked intersects s
  | MouseMove pointerLocked intersects => onCanvasMouseMove pointerLocked intersects s
  | Add o => addInteractableObject o s
  | Remove o => removeInteractableObject o s
  end.

Definition handle_all (l : list Event) (s : System) : System := fold_left handle l s.

(** *** More vocabulary *)

(** The identities of a node and of its ancestors, from the node up. *)
Fixpoint ancestry (o : Object3D) : list nat :=
  match o with
  | Orphan u => [u]
  | Child u p => u :: ancestry p
  end.

(** The prompt shows the hovered entity, and is hidden when there is none. *)
Definition prompt_shows_hover (s : System) : Prop :=
  match interactionPrompt s with
  | None => True
  | Some p =>
      match currentHoveredObject s with
      | Some o => visibleClass p = true /\ textContent p = (prompt_prefix ++ description o)%string
      | None => visibleClass p = false
      end
  end.

(** A canvas on which every listener's function object has been made. *)
Definition well_formed (c : Canvas) : Prop :=
  Forall (fun l => (identity (callback l) < functions c)%nat) (listeners c).

(** *** More sample entities *)

(** A canvas with one listener of the page's own. *)
Definition sample_canvas : Canvas :=
  {| listeners := [{| event := click;
                      callback := {| identity := 0%nat; method := None |} |}];
     functions := 1 |}.

(** An entity on the node of A's parent group, registered before A. *)
Definition entity_group : InteractableObject :=
  entity 3 scene_root 10 None None.

(** A's sibling B is hovered, after a pointer move onto it: the prompt is
    shown. *)
Definition hovered_B : System := onCanvasMouseMove true [hit_B] (hovering None).

End InteractionSystem.

(** ** PerformanceOptimizer (src/utils/PerformanceOptimizer.ts) *)

Module PerformanceOptimizer.

Import JSNumber THREE.
Open Scope float_scope.

Inductive PerformanceLevel := high | medium | low.

(** [LODConfig]; its optional [castShadow] is named [lodCastShadow] here,
    apart from the [castShadow] of a mesh. *)
Record LODConfig := {
  nearDistance : number;
  mediumDistance : number;
  farDistance : number;
  lodCastShadow : option bool;
  originalShininess : option number
}.

Record Settings := {
  enableLOD : bool;
  enableFrustumCulling : bool;
  enableOcclusion : bool;
  maxShadowDistance : number;
  shadowMapSize : number
}.

(** The scene graph: a node with its identity, its own properties and its
    children. The passes change properties, never the shape of the graph. *)
#[local] Set Warnings "-register-all".
Inductive SceneGraph := Obj (uuid : nat) (props : Object3D) (children : list SceneGraph).
#[local] Set Warnings "+register-all".

Definition uuid (o : SceneGraph) : nat := match o with Obj u _ _ => u end.
Definition props (o : SceneGraph) : Object3D := match o with Obj _ p _ => p end.
Definition children (o : SceneGraph) : list SceneGraph := match o with Obj _ _ cs => cs end.

(** [object.traverse(callback)] for a callback that writes properties of
    the node it is given: the node first, then its descendants. *)
Fixpoint traverse (callback : Object3D -> Object3D) (o : SceneGraph) : SceneGraph :=
  match o with
  | Obj u p cs => Obj u (callback p) (map (traverse callback) cs)
  end.

(** The nodes in the order [traverse] visits them. *)
Fixpoint nodes (o : SceneGraph) : list (nat * Object3D) :=
  match o with
  | Obj u p cs => (u, p) :: flat_map nodes cs
  end.

(** [object.visible = v] on the root of a subtree. *)
Definition set_object_visible (v : bool) (o : SceneGraph) : SceneGraph :=
  match o with
  | Obj u p cs => Obj u (set_visible v p) cs
  end.

(** [this.camera]: only a [PerspectiveCamera] passes the [instanceof] test
    of the culling pass. *)
Inductive Camera :=
| PerspectiveCamera (position : Vector3) (projectionMatrix matrixWorldInverse : Matrix4)
| OtherCamera (position : Vector3).

Definition camera_position (c : Camera) : Vector3 :=
  match c with
  | PerspectiveCamera p _ _ => p
  | OtherCamera p => p
  end.

(** The optimizer with the scene it works on. [lodObjects] is a [Map] keyed
    by node identity, in insertion order. *)
Record Optimizer := {
  scene : SceneGraph;
  camera : Camera;
  frameCount : number;
  lastTime : number;
  averageFPS : number;
  performanceLevel : PerformanceLevel;
  lodObjects : list (nat * LODConfig);
  optimizationSettings : Settings
}.

Definition set_scene (sc : SceneGraph) (st : Optimizer) : Optimizer :=
  {| scene := sc; camera := camera st; frameCount := frameCount st;
     lastTime := lastTime st; averageFPS := averageFPS st;
     performanceLevel := performanceLevel st; lodObjects := lodObjects st;
     optimizationSettings := optimizationSettings st |}.

Definition set_lodObjects (l : list (nat * LODConfig)) (st : Optimizer) : Optimizer :=
  {| scene := scene st; camera := camera st; frameCount := frameCount st;
     lastTime := lastTime st; averageFPS := averageFPS st;
     performanceLevel := performanceLevel st; lodObjects := l;
     optimizationSettings := optimizationSettings st |}.

Definition default_settings : Settings :=
  {| enableLOD := true; enableFrustumCulling := true; enableOcclusion := false;
     maxShadowDistance := 100; shadowMapSize := 2048 |}.

(** The constructor; [now] is [performance.now()]. *)
Definition new_optimizer (sc : SceneGraph) (cam : Camera) (now : number) : Optimizer :=
  {| scene := sc; camera := cam; frameCount := 0; lastTime := now; averageFPS := 60;
     performanceLevel := high; lodObjects := []; optimizationSettings := default_settings |}.

(** *** The frame-rate sample *)

(** The tier of an average frame rate: the [if] chain of
    [updatePerformanceLevel]. *)
Definition classify (averageFPS : number) : PerformanceLevel :=
  if ge averageFPS 50 then high
  else if ge averageFPS 30 then medium
  else low.

(** [updatePerformanceLevel]; [currentTime] is [performance.now()]. *)
Definition updatePerformanceLevel (currentTime : number) (st : Optimizer) : Optimizer :=
  let deltaTime := currentTime - lastTime st in
  let st :=
    if ge deltaTime 1000 then
      let averageFPS := frameCount st * 1000 / deltaTime in
      {| scene := scene st; camera := camera st; frameCount := 0;
         lastTime := currentTime; averageFPS := averageFPS;
         performanceLevel := classify averageFPS; lodObjects := lodObjects st;
         optimizationSettings := optimizationSettings st |}
    else st in
  {| scene := scene st; camera := camera st; frameCount := frameCount st + 1;
     lastTime := lastTime st; averageFPS := averageFPS st;
     performanceLevel := performanceLevel st; lodObjects := lodObjects st;
     optimizationSettings := optimizationSettings st |}.

(** *** Level of detail *)

(** [addLODObject]: [Map.set] on the node's identity. *)
Fixpoint Map_set (u : nat) (c : LODConfig) (m : list (nat * LODConfig))
    : list (nat * LODConfig) :=
  match m with
  | [] => [(u, c)]
  | (k, c0) :: m' => if Nat.eqb k u then (k, c) :: m' else (k, c0) :: Map_set u c m'
  end.

Definition addLODObject (u : nat) (c : LODConfig) (st : Optimizer) : Optimizer :=
  set_lodObjects (Map_set u c (lodObjects st)) st.

(** The callback of [applyMediumLOD], on one node. *)
Definition mediumLOD (child : Object3D) : Object3D :=
  match mesh child with
  | Some m =>
      set_mesh
        (Some {| material :=
                   match material m with
                   | MeshPhongMaterial e s => MeshPhongMaterial e (Math_min s 50)
                   | OtherMaterial => OtherMaterial
                   end;
                 castShadow := false;
                 boundingSphere := boundingSphere m |}) child
  | None => child
  end.

Definition applyMediumLOD (o : SceneGraph) : SceneGraph := traverse mediumLOD o.

(** The callback of [applyHighLOD], on one node. *)
Definition highLOD (config : LODConfig) (child : Object3D) : Object3D :=
  match mesh child with
  | Some m =>
      set_mesh
        (Some {| material :=
                   match material m with
                   | MeshPhongMaterial e _ =>
                       MeshPhongMaterial e (or_default (originalShininess config) 100)
                   | OtherMaterial => OtherMaterial
                   end;
                 castShadow := match lodCastShadow config with
                               | Some false => false
                               | _ => true
                               end;
                 boundingSphere := boundingSphere m |}) child
  | None => child
  end.

Definition applyHighLOD (o : SceneGraph) (config : LODConfig) : SceneGraph :=
  traverse (highLOD config) o.

(** The body of [updateLOD]'s loop, on the registered node [o]. *)
Definition lod_entry (cameraPosition : Vector3) (config : LODConfig) (o : SceneGraph)
    : SceneGraph :=
  let distance := distanceTo cameraPosition (position (props o)) in
  if gt distance (farDistance config) then set_object_visible false o
  else if gt distance (mediumDistance config) then
    applyMediumLOD (set_object_visible true o)
  else applyHighLOD (set_object_visible true o) config.

(** The registered node, found in the scene by its identity. *)
Fixpoint at_object (u : nat) (f : SceneGraph -> SceneGraph) (o : SceneGraph) : SceneGraph :=
  match o with
  | Obj u' p cs =>
      if Nat.eqb u' u then f o else Obj u' p (map (at_object u f) cs)
  end.

Definition updateLOD (st : Optimizer) : Optimizer :=
  if negb (enableLOD (optimizationSettings st)) then st
  else
    let cameraPosition := camera_position (camera st) in
    set_scene
      (fold_left (fun sc entry => at_object (fst entry) (lod_entry cameraPosition (snd entry)) sc)
         (lodObjects st) (scene st)) st.

(** *** Frustum culling *)

Section ThreeJs.

(** The matrix and frustum arithmetic is three.js's own. *)
Variable multiplyMatrices : Matrix4 -> Matrix4 -> Matrix4.
Variable setFromProjectionMatrix : Matrix4 -> Frustum.
Variable applyMatrix4 : Sphere -> Matrix4 -> Sphere.
Variable intersectsSphere : Frustum -> Sphere -> bool.

(** The callback of the culling pass, on one node. *)
Definition cull (frustum : Frustum) (object : Object3D) : Object3D :=
  match mesh object with
  | Some m =>
      match boundingSphere m with
      | Some boundingSphere =>
          let worldSphere := applyMatrix4 boundingSphere (matrixWorld object) in
          set_visible (intersectsSphere frustum worldSphere) object
      | None => object
      end
  | None => object
  end.

Definition updateFrustumCulling (st : Optimizer) : Optimizer :=
  if negb (enableFrustumCulling (optimizationSettings st)) then st
  else
    match camera st with
    | PerspectiveCamera _ projectionMatrix matrixWorldInverse =>
        let frustum :=
          setFromProjectionMatrix (multiplyMatrices projectionMatrix matrixWorldInverse) in
        set_scene (traverse (cull frustum) (scene st)) st
    | OtherCamera _ => st
    end.

(** [update], once per frame. *)
Definition update (st : Optimizer) : Optimizer :=
  updateFrustumCulling (updateLOD st).

End ThreeJs.

(** *** Sample scene for the worked examples *)

Definition black : Color := {| r := 0; g := 0; b := 0 |}.

Definition phong_mesh (at_ : Vector3) (shininess : number) (bs : option Sphere) : Object3D :=
  {| position := at_;
     rotation := {| ex := 0; ey := 0; ez := 0 |};
     scale := {| x := 1; y := 1; z := 1 |};
     visible := true;
     matrixWorld := {| elements := [] |};
     mesh := Some {| material := MeshPhongMaterial black shininess; castShadow := true;
                     boundingSphere := bs |} |}.

Definition lod_config (shininess : option number) : LODConfig :=
  {| nearDistance := 10; mediumDistance := 50; farDistance := 100;
     lodCastShadow := None; originalShininess := shininess |}.

(** An entry whose thresholds are out of order. *)
Definition disordered_config : LODConfig :=
  {| nearDistance := 1; mediumDistance := 100; farDistance := 2;
     lodCastShadow := None; originalShininess := Some 80 |}.

Definition camera_origin : Vector3 := {| x := 0; y := 0; z := 0 |}.

(** A Phong mesh five units in front of the camera, its shininess already
    capped to 50 by an earlier medium pass. *)
Definition near_mesh : SceneGraph :=
  Obj 1 (phong_mesh {| x := 0; y := 0; z := -5 |} 50 None) [].

(** A stand-in for three.js in the worked example: world matrices are the
    identity, and the frustum is the half space in front of a camera that
    looks down the negative z axis from the origin. [sample_intersectsSphere]
    is [Frustum.intersectsSphere]: a sphere is outside when its centre is
    more than its radius behind some plane. *)
Definition sample_multiplyMatrices (a b : Matrix4) : Matrix4 := a.

Definition sample_setFromProjectionMatrix (m : Matrix4) : Frustum :=
  {| planes := [({| x := 0; y := 0; z := -1 |}, 0)] |}.

Definition sample_applyMatrix4 (s : Sphere) (m : Matrix4) : Sphere := s.

Definition sample_intersectsSphere (f : Frustum) (s : Sphere) : bool :=
  forallb (fun plane =>
             let normal := fst plane in
             let d := x normal * x (center s) + y normal * y (center s)
                      + z normal * z (center s) + snd plane in
             negb (d <? - radius s))
          (planes f).

Definition unit_sphere : Sphere := {| center := {| x := 0; y := 0; z := 5 |}; radius := 1 |}.

(** Under a plain root: mesh 1 behind the camera, with a bounding sphere,
    registered for level of detail and within the medium distance; mesh 2 in
    front of the camera, with no bounding sphere. *)
Definition sample_optimizer : Optimizer :=
  addLODObject 1 (lod_config (Some 80))
    (new_optimizer
       (Obj 0 AnimationManager.node_at_5
          [Obj 1 (phong_mesh {| x := 0; y := 0; z := 5 |} 50 (Some unit_sphere)) [];
           Obj 2 (phong_mesh {| x := 0; y := 0; z := -5 |} 50 None) []])
       (PerspectiveCamera camera_origin {| elements := [] |} {| elements := [] |})
       0).

(** An optimizer constructed at time 0 that has been called 45 times within
    the first second. *)
Definition after_45_frames : Optimizer :=
  Nat.iter 45 (updatePerformanceLevel 500)
    (new_optimizer (Obj 0 AnimationManager.node_at_5 []) (OtherCamera camera_origin) 0).

(** *** Quality settings *)

(** [renderer.shadowMap.type] and [scene.fog], which the quality settings
    write besides the optimizer's own settings. *)
Inductive ShadowMapType := BasicShadowMap | PCFShadowMap | PCFSoftShadowMap.

Record Fog := { color : number; near : number; far : number }.

Record Rendering := { shadowMap_type : ShadowMapType; fog : option Fog }.

Definition set_optimizationSettings (s : Settings) (st : Optimizer) : Optimizer :=
  {| scene := scene st; camera := camera st; frameCount := frameCount st;
     lastTime := lastTime st; averageFPS := averageFPS st;
     performanceLevel := performanceLevel st; lodObjects := lodObjects st;
     optimizationSettings := s |}.

(** The two assignments [optimizationSettings.shadowMapSize = size] and
    [optimizationSettings.maxShadowDistance = distance]. *)
Definition set_shadows (size distance : number) (st : Optimizer) : Optimizer :=
  set_optimizationSettings
    {| enableLOD := enableLOD (optimizationSettings st);
       enableFrustumCulling := enableFrustumCulling (optimizationSettings st);
       enableOcclusion := enableOcclusion (optimizationSettings st);
       maxShadowDistance := distance; shadowMapSize := size |} st.

(** The sky blue [0x87CEEB] of the fog. *)
Definition sky_blue : number := 8900331.

Definition applyLowQualitySettings (q : Optimizer * Rendering) : Optimizer * Rendering :=
  (set_shadows 512 50 (fst q), {| shadowMap_type := BasicShadowMap; fog := None |}).

Definition applyMediumQualitySettings (q : Optimizer * Rendering) : Optimizer * Rendering :=
  (set_shadows 1024 75 (fst q),
   {| shadowMap_type := PCFShadowMap;
      fog := Some {| color := sky_blue; near := 50; far := 150 |} |}).

Definition applyHighQualitySettings (q : Optimizer * Rendering) : Optimizer * Rendering :=
  (set_shadows 2048 100 (fst q),
   {| shadowMap_type := PCFSoftShadowMap;
      fog := Some {| color := sky_blue; near := 50; far := 200 |} |}).

Definition adjustQualitySettings (q : Optimizer * Rendering) : Optimizer * Rendering :=
  match performanceLevel (fst q) with
  | low => applyLowQualitySettings q
  | medium => applyMediumQualitySettings q
  | high => applyHighQualitySettings q
  end.

(** The callback that [setupPerformanceMonitoring] hands to [setInterval]:
    the timer runs it once a second, and nothing else calls
    [updatePerformanceLevel]. *)
Definition monitor (q : Optimizer * Rendering) (currentTime : number)
    : Optimizer * Rendering :=
  adjustQualitySettings (updatePerformanceLevel currentTime (fst q), snd q).

(** The callbacks of the timer at the clock readings [times]. *)
Definition monitoring (times : list number) (q : Optimizer * Rendering)
    : Optimizer * Rendering :=
  fold_left monitor times q.

(** *** Materials *)

(** [optimizeSingleMaterial] at the tier [level]. *)
Definition optimizeSingleMaterial (level : PerformanceLevel) (m : Material) : Material :=
  match m with
  | MeshPhongMaterial e s =>
      match level with
      | low => MeshPhongMaterial e (Math_min s 30)
      | medium => MeshPhongMaterial e (Math_min s 60)
      | high => m
      end
  | OtherMaterial => m
  end.

(** What [optimizeMaterials] does with the [material] of one mesh: a single
    material, or an array of them. *)
Inductive MeshMaterial :=
| Single (m : Material)
| Multiple (l : list Material).

Definition optimize_mesh_material (level : PerformanceLevel) (m : MeshMaterial)
    : MeshMaterial :=
  match m with
  | Single m => Single (optimizeSingleMaterial level m)
  | Multiple l => Multiple (map (optimizeSingleMaterial level) l)
  end.

(** *** Statistics and settings *)

(** [object.visible && object instanceof THREE.Mesh] *)
Definition counts_as_visible (o : Object3D) : bool :=
  visible o && match mesh o with Some _ => true | None => false end.

(** The count [getVisibleObjectsCount] makes over a subtree. *)
Definition visible_meshes (o : SceneGraph) : nat :=
  List.length (filter (fun n => counts_as_visible (snd n)) (nodes o)).

Definition getVisibleObjectsCount (st : Optimizer) : nat := visible_meshes (scene st).

Record PerformanceStats := {
  fps : number;
  stats_performanceLevel : PerformanceLevel;
  lodObjectsCount : nat;
  visibleObjects : nat
}.

Definition getPerformanceStats (st : Optimizer) : PerformanceStats :=
  {| fps := averageFPS st; stats_performanceLevel := performanceLevel st;
     lodObjectsCount := List.length (lodObjects st);
     visibleObjects := getVisibleObjectsCount st |}.

Definition getPerformanceLevel (st : Optimizer) : PerformanceLevel := performanceLevel st.

(** [Partial<typeof this.optimizationSettings>]: the properties given. *)
Record PartialSettings := {
  given_enableLOD : option bool;
  given_enableFrustumCulling : option bool;
  given_enableOcclusion : option bool;
  given_maxShadowDistance : option number;
  given_shadowMapSize : option number
}.

Definition given {A : Type} (v : option A) (old : A) : A :=
  match v with Some v => v | None => old end.

(** [setOptimizationSettings]: [Object.assign] of the properties given. *)
Definition setOptimizationSettings (p : PartialSettings) (st : Optimizer) : Optimizer :=
  set_optimizationSettings
    {| enableLOD := given (given_enableLOD p) (enableLOD (optimizationSettings st));
       enableFrustumCulling :=
         given (given_enableFrustumCulling p) (enableFrustumCulling (optimizationSettings st));
       enableOcclusion :=
         given (given_enableOcclusion p) (enableOcclusion (optimizationSettings st));
       maxShadowDistance :=
         given (given_maxShadowDistance p) (maxShadowDistance (optimizationSettings st));
       shadowMapSize :=
         given (given_shadowMapSize p) (shadowMapSize (optimizationSettings st)) |} st.

(** *** More vocabulary *)

(** A node with the three properties the per-frame passes write (the
    visibility, the shadow flag and the shininess) blanked out. *)
Definition blank_written (o : Object3D) : Object3D :=
  {| position := position o; rotation := rotation o; scale := scale o;
     visible := true; matrixWorld := matrixWorld o;
     mesh := match mesh o with
             | Some m =>
                 Some {| material := match material m with
                                     | MeshPhongMaterial e _ => MeshPhongMaterial e 0
                                     | OtherMaterial => OtherMaterial
                                     end;
                         castShadow := false;
                         boundingSphere := boundingSphere m |}
             | None => None
             end |}.

(** Both per-frame passes switched off. *)
Definition passes_off : PartialSettings :=
  {| given_enableLOD := Some false; given_enableFrustumCulling := Some false;
     given_enableOcclusion := None; given_maxShadowDistance := None;
     given_shadowMapSize := None |}.

(** *** More sample scenes *)

(** What the renderer and the scene are given at start-up. *)
Definition sample_rendering : Rendering :=
  {| shadowMap_type := PCFSoftShadowMap;
     fog := Some {| color := sky_blue; near := 50; far := 200 |} |}.

(** A group far from the camera, holding two visible meshes. *)
Definition far_group : SceneGraph :=
  Obj 5 {| position := {| x := 0; y := 0; z := -500 |};
           rotation := {| ex := 0; ey := 0; ez := 0 |};
           scale := {| x := 1; y := 1; z := 1 |};
           visible := true; matrixWorld := {| elements := [] |}; mesh := None |}
    [Obj 6 (phong_mesh {| x := 0; y := 0; z := -500 |} 80 None) [];
     Obj 7 (phong_mesh {| x := 1; y := 0; z := -500 |} 80 None) []].

(** The timer keeps its period: every reading of the clock is a finite
    time, a second or more after the reading before it ([last] is the time
    of construction, then of the callback before). *)
Fixpoint a_second_apart (last : number) (times : list number) : Prop :=
  match times with
  | [] => True
  | t :: rest =>
      ge (t - last) 1000 = true /\ is_infinity (t - last) = false /\ a_second_apart t rest
  end.

(** A Phong mesh of shininess 0, five units in front of the camera under
    a plain root, registered for level of detail with thresholds 10, 50 and
    100 and the baseline shininess [stored] in its entry. *)
Definition matte_optimizer (stored : number) : Optimizer :=
  addLODObject 1 (lod_config (Some stored))
    (new_optimizer
       (Obj 0 AnimationManager.node_at_5
          [Obj 1 (phong_mesh {| x := 0; y := 0; z := -5 |} 0 None) []])
       (PerspectiveCamera camera_origin {| elements := [] |} {| elements := [] |})
       0).

End PerformanceOptimizer.

(** * Part II: the properties *)

(** ** Numbers *)

Module NumberFacts.

Import JSNumber.
Open Scope float_scope.

(** [%] on a few numbers, as a JavaScript engine answers. *)
Example js_rem_exact : js_rem 5.5 2 = 1.5 /\ js_rem (-5.5) 2 = -1.5
  /\ js_rem 0x1.3333333333333p-2 0x1.999999999999ap-4 = 0x1.9999999999998p-4 /\ js_rem 7 0 = nan
  /\ js_rem 1 infinity = 1 /\ js_rem (-4) 2 = -0.
Proof. repeat split; vm_compute; reflexivity. Qed.

(** *** The order on numbers, through the specification of the primitives *)

Lemma SFcompare_antisym (a b : spec_float) (c : comparison) :
  SFcompare a b = Some c -> SFcompare b a = Some (CompOpp c).
Proof.
  destruct a as [sa| sa| |sa ma ea], b as [sb| sb| |sb mb eb]; simpl;
    try discriminate; intros H; inversion_clear H;
    try (destruct sa; reflexivity); try (destruct sb; reflexivity);
    try (destruct sa, sb; reflexivity).
  destruct sa, sb; simpl; try reflexivity;
    rewrite (Z.compare_antisym ea eb); destruct (ea ?= eb)%Z; simpl;
    try reflexivity;
    rewrite (Pos.compare_cont_antisym ma mb Eq); reflexivity.
Qed.

Lemma SFcompare_total (a b : spec_float) :
  a <> S754_nan -> b <> S754_nan -> exists c, SFcompare a b = Some c.
Proof.
  destruct a, b; simpl; intros Ha Hb; try congruence; eexists; reflexivity.
Qed.

Lemma is_nan_spec (v : number) : is_nan v = false <-> Prim2SF v <> S754_nan.
Proof.
  unfold is_nan. rewrite FloatAxioms.eqb_spec. unfold SFeqb.
  destruct (Prim2SF v) as [s| s| |s m e]; simpl.
  - split; [discriminate | reflexivity].
  - destruct s; (split; [discriminate | reflexivity]).
  - split; [discriminate | congruence].
  - rewrite Z.compare_refl, Pos.compare_cont_refl.
    destruct s; simpl; (split; [discriminate | reflexivity]).
Qed.

(** [a < b] excludes [b <= a]. *)
Lemma ltb_not_leb (a b : number) : (a <? b) = true -> (b <=? a) = false.
Proof.
  rewrite FloatAxioms.ltb_spec, FloatAxioms.leb_spec. unfold SFltb, SFleb.
  destruct (SFcompare (Prim2SF a) (Prim2SF b)) as [c|] eqn:E; try discriminate.
  rewrite (SFcompare_antisym _ _ _ E). destruct c; simpl; congruence.
Qed.

Lemma leb_not_ltb (a b : number) : (a <=? b) = true -> (b <? a) = false.
Proof.
  rewrite FloatAxioms.ltb_spec, FloatAxioms.leb_spec. unfold SFltb, SFleb.
  destruct (SFcompare (Prim2SF a) (Prim2SF b)) as [c|] eqn:E; try discriminate.
  rewrite (SFcompare_antisym _ _ _ E). destruct c; simpl; congruence.
Qed.

(** On numbers that are not [NaN] the order is total. *)
Lemma not_leb_ltb (a b : number) :
  is_nan a = false -> is_nan b = false -> (a <=? b) = false -> (b <? a) = true.
Proof.
  rewrite !is_nan_spec, FloatAxioms.ltb_spec, FloatAxioms.leb_spec. unfold SFltb, SFleb.
  intros Ha Hb. destruct (SFcompare_total _ _ Ha Hb) as [c E].
  rewrite E, (SFcompare_antisym _ _ _ E). destruct c; simpl; congruence.
Qed.

Lemma not_ltb_leb (a b : number) :
  is_nan a = false -> is_nan b = false -> (a <? b) = false -> (b <=? a) = true.
Proof.
  rewrite !is_nan_spec, FloatAxioms.ltb_spec, FloatAxioms.leb_spec. unfold SFltb, SFleb.
  intros Ha Hb. destruct (SFcompare_total _ _ Ha Hb) as [c E].
  rewrite E, (SFcompare_antisym _ _ _ E). destruct c; simpl; congruence.
Qed.

Lemma leb_not_nan (a b : number) :
  (a <=? b) = true -> is_nan a = false /\ is_nan b = false.
Proof.
  rewrite !is_nan_spec, FloatAxioms.leb_spec. unfold SFleb.
  destruct (Prim2SF a), (Prim2SF b); simpl; try discriminate;
    intros _; split; discriminate.
Qed.

Lemma ltb_not_nan (a b : number) :
  (a <? b) = true -> is_nan a = false /\ is_nan b = false.
Proof.
  rewrite !is_nan_spec, FloatAxioms.ltb_spec. unfold SFltb.
  destruct (Prim2SF a), (Prim2SF b); simpl; try discriminate;
    intros _; split; discriminate.
Qed.

(** *** Remainder and division by zero *)




(** *** Transitivity, and [Math.min] *)

Lemma SFleb_trans (a b c : spec_float) :
  SFleb a b = true -> SFleb b c = true -> SFleb a c = true.
Proof.
  unfold SFleb.
  destruct a as [sa|sa| |sa ma ea], b as [sb|sb| |sb mb eb], c as [sc|sc| |sc mc ec];
    simpl; try discriminate; try reflexivity;
    try (destruct sa; simpl; try discriminate; try reflexivity);
    try (destruct sb; simpl; try discriminate; try reflexivity);
    try (destruct sc; simpl; try discriminate; try reflexivity);
    intros H1 H2; order_cases.
Qed.

Lemma leb_trans (a b c : number) :
  (a <=? b) = true -> (b <=? c) = true -> (a <=? c) = true.
Proof. rewrite !FloatAxioms.leb_spec. apply SFleb_trans. Qed.

Lemma ltb_leb (a b : number) : (a <? b) = true -> (a <=? b) = true.
Proof.
  rewrite FloatAxioms.ltb_spec, FloatAxioms.leb_spec. unfold SFltb, SFleb.
  destruct (SFcompare (Prim2SF a) (Prim2SF b)) as [[| |]|]; congruence.
Qed.

Lemma ltb_irrefl (a : number) : (a <? a) = false.
Proof.
  destruct (a <? a) eqn:E; [|reflexivity].
  pose proof (ltb_leb a a E) as Hle. pose proof (ltb_not_leb a a E). congruence.
Qed.

(** Capping is idempotent: a second [Math.min] against the same bound
    changes nothing. *)
Lemma Math_min_idem (a b : number) : Math_min (Math_min a b) b = Math_min a b.
Proof.
  destruct (is_nan a || is_nan b) eqn:Hnan.
  { assert (H : Math_min a b = nan) by (unfold Math_min; now rewrite Hnan).
    rewrite H. reflexivity. }
  apply orb_false_iff in Hnan as [Ha Hb].
  assert (Hbb : Math_min b b = b).
  { unfold Math_min. rewrite Hb, ltb_irrefl. simpl. now destruct (get_sign b). }
  assert (Hab : Math_min a b = if a <? b then a else if b <? a then b
                               else if get_sign a then a else b).
  { unfold Math_min. now rewrite Ha, Hb. }
  destruct (a <? b) eqn:E1.
  { rewrite Hab. unfold Math_min. now rewrite Ha, Hb, E1. }
  destruct (b <? a) eqn:E2; [now rewrite Hab|].
  destruct (get_sign a) eqn:E3; [|now rewrite Hab].
  rewrite Hab. unfold Math_min. now rewrite Ha, Hb, E1, E2, E3.
Qed.

(** The cap holds for every number that is not [NaN]. *)
Lemma Math_min_le (a b : number) :
  is_nan a = false -> is_nan b = false -> (Math_min a b <=? b) = true.
Proof.
  intros Ha Hb. unfold Math_min. rewrite Ha, Hb. simpl.
  assert (Hbb : (b <=? b) = true) by (apply not_ltb_leb; auto using ltb_irrefl).
  destruct (a <? b) eqn:E1; [now apply ltb_leb|].
  destruct (b <? a) eqn:E2; [exact Hbb|].
  destruct (get_sign a); [now apply not_ltb_leb | exact Hbb].
Qed.

(** *** Rounding never makes a [NaN] *)

Lemma shr_1_nonneg (mrs : shr_record) :
  (0 <= shr_m mrs)%Z -> (0 <= shr_m (shr_1 mrs))%Z.
Proof. destruct mrs as [[|[p|p|]|[p|p|]] r s]; simpl; lia. Qed.

Lemma iter_pos_shr_1_nonneg (p : positive) (mrs : shr_record) :
  (0 <= shr_m mrs)%Z -> (0 <= shr_m (iter_pos shr_1 p mrs))%Z.
Proof.
  revert mrs. induction p as [p IH|p IH|]; intros mrs H; simpl.
  - apply IH, IH, shr_1_nonneg, H.
  - apply IH, IH, H.
  - apply shr_1_nonneg, H.
Qed.

Lemma shr_fexp_nonneg (m e : Z) (l : location) :
  (0 <= m)%Z -> (0 <= shr_m (fst (shr_fexp prec emax m e l)))%Z.
Proof.
  intros Hm. unfold shr_fexp, shr.
  assert (H0 : (0 <= shr_m (shr_record_of_loc m l))%Z)
    by (destruct l as [|[| |]]; exact Hm).
  destruct (_ - e)%Z; simpl; auto using iter_pos_shr_1_nonneg.
Qed.

Lemma round_nearest_even_nonneg (m : Z) (l : location) :
  (0 <= m)%Z -> (0 <= round_nearest_even m l)%Z.
Proof.
  intros Hm. destruct l as [|[| |]]; simpl; try lia. destruct (Z.even m); lia.
Qed.

Lemma binary_round_aux_not_nan (s : bool) (m e : Z) (l : location) :
  (0 <= m)%Z -> binary_round_aux prec emax s m e l <> S754_nan.
Proof.
  intros Hm. unfold binary_round_aux.
  pose proof (shr_fexp_nonneg m e l Hm) as H1.
  destruct (shr_fexp prec emax m e l) as [mrs' e']. simpl in H1.
  pose proof (shr_fexp_nonneg _ e' loc_Exact
                (round_nearest_even_nonneg _ (loc_of_shr_record mrs') H1)) as H2.
  destruct (shr_fexp prec emax _ e' loc_Exact) as [mrs'' e'']. simpl in H2.
  destruct (shr_m mrs'') as [|p|p]; try lia; try discriminate.
  destruct (e'' <=? emax - prec)%Z; discriminate.
Qed.

Lemma binary_normalize_not_nan (m e : Z) (sz : bool) :
  binary_normalize prec emax m e sz <> S754_nan.
Proof.
  unfold binary_normalize, binary_round.
  destruct m as [|p|p]; try discriminate;
    destruct (shl_align _ _ _) as [mz ez]; apply binary_round_aux_not_nan; lia.
Qed.

Lemma SFmul_finite_not_nan (a : spec_float) (s : bool) (m : positive) (e : Z) :
  a <> S754_nan -> SFmul prec emax a (S754_finite s m e) <> S754_nan.
Proof.
  destruct a as [sa|sa| |sa ma ea]; simpl; intros H; try congruence.
  apply binary_round_aux_not_nan. lia.
Qed.

Lemma SFdiv_finite_not_nan (a : spec_float) (s : bool) (m : positive) (e : Z) :
  a <> S754_nan -> SFdiv prec emax a (S754_finite s m e) <> S754_nan.
Proof.
  destruct a as [sa|sa| |sa ma ea]; simpl; intros H; try congruence.
  unfold SFdiv_core_binary.
  set (m' := match _ with Z0 => Z.pos ma | Z.pos _ => _ | Z.neg _ => 0%Z end).
  assert (Hm' : (0 <= m')%Z).
  { unfold m'. destruct (_ - _ - _)%Z; try lia. apply Z.shiftl_nonneg. lia. }
  pose proof (Z_div_mod m' (Z.pos m) eq_refl) as Hdiv.
  destruct (Z.div_eucl m' (Z.pos m)) as [q r].
  apply binary_round_aux_not_nan. destruct Hdiv as [Heq Hr]. nia.
Qed.

Lemma SFadd_finite_not_nan (a : spec_float) (s : bool) (m : positive) (e : Z) :
  a <> S754_nan -> SFadd prec emax a (S754_finite s m e) <> S754_nan.
Proof.
  destruct a as [sa|sa| |sa ma ea]; simpl; intros H; try congruence.
  apply binary_normalize_not_nan.
Qed.

(** A number that is at least 1000 and not infinite is finite and not
    zero. *)
Lemma ge_1000_finite (d : number) :
  (1000 <=? d) = true -> is_infinity d = false ->
  exists s m e, Prim2SF d = S754_finite s m e.
Proof.
  unfold is_infinity.
  rewrite FloatAxioms.leb_spec, FloatAxioms.eqb_spec, abs_spec. unfold SFleb, SFeqb.
  change (Prim2SF infinity) with (S754_infinity false).
  change (Prim2SF 1000) with (S754_finite false 8796093022208000 (-43)).
  destruct (Prim2SF d) as [s|s| |s m e]; simpl; try discriminate.
  intros _ _. now exists s, m, e.
Qed.

(** A count times 1000, divided by a finite delay of a second or more, is a
    number; so is a count plus one. *)
Lemma sample_not_nan (count delta : number) :
  is_nan count = false -> (1000 <=? delta) = true -> is_infinity delta = false ->
  is_nan (count * 1000 / delta) = false.
Proof.
  intros Hc Hd Hfin. destruct (ge_1000_finite delta Hd Hfin) as (s & m & e & Hdelta).
  apply is_nan_spec. rewrite div_spec, mul_spec. unfold SF64div, SF64mul. rewrite Hdelta.
  apply SFdiv_finite_not_nan.
  change (Prim2SF 1000) with (S754_finite false 8796093022208000 (-43)).
  apply SFmul_finite_not_nan. now apply is_nan_spec.
Qed.

Lemma succ_not_nan (count : number) : is_nan count = false -> is_nan (count + 1) = false.
Proof.
  intros Hc. apply is_nan_spec. rewrite add_spec. unfold SF64add.
  change (Prim2SF 1) with (S754_finite false 4503599627370496 (-52)).
  apply SFadd_finite_not_nan. now apply is_nan_spec.
Qed.

End NumberFacts.

(** ** AnimationManager *)

Module AnimationManagerFacts.

Import JSNumber NumberFacts THREE AnimationManager.
Open Scope float_scope.

(** The sample host's sine at the arguments the examples use. *)
Example sample_sin_values :
  sample_sin (0.25 * PI * 2) = 1 /\ sample_sin (-0.25 * PI * 2) = -1
  /\ sample_sin 0 = 0 /\ sample_sin (-0) = -0 /\ sample_sin nan = nan
  /\ sample_sin infinity = nan /\ sample_sin 1 = 0x1.aed548f090ceep-1.
Proof. repeat split; vm_compute; reflexivity. Qed.

(** *** The registry as a map *)

Lemma Map_get_set_same (id : string) (a : AnimationInstance) (m : AnimationMap) :
  Map_get id (Map_set id a m) = Some a.
Proof.
  induction m as [|[k a0] m IH]; simpl.
  - now rewrite String.eqb_refl.
  - destruct (String.eqb k id) eqn:E; simpl; rewrite E; auto.
Qed.

Lemma Map_get_set_other (id id' : string) (a : AnimationInstance) (m : AnimationMap) :
  String.eqb id' id = false -> Map_get id (Map_set id' a m) = Map_get id m.
Proof.
  intros Hne. induction m as [|[k a0] m IH]; simpl.
  - now rewrite Hne.
  - destruct (String.eqb k id') eqn:E; simpl.
    + apply String.eqb_eq in E. subst k. now rewrite Hne.
    + destruct (String.eqb k id); auto.
Qed.

Lemma Map_get_delete_same (id : string) (m : AnimationMap) :
  Map_get id (Map_delete id m) = None.
Proof.
  induction m as [|[k a0] m IH]; simpl; auto.
  destruct (String.eqb k id) eqn:E; simpl; auto. now rewrite E.
Qed.

Lemma Map_get_delete_other (id id' : string) (m : AnimationMap) :
  String.eqb id' id = false -> Map_get id (Map_delete id' m) = Map_get id m.
Proof.
  intros Hne. induction m as [|[k a0] m IH]; simpl; auto.
  destruct (String.eqb k id') eqn:E; simpl.
  - apply String.eqb_eq in E. subst k. now rewrite Hne.
  - now rewrite IH.
Qed.

Lemma Map_delete_absent (id : string) (m : AnimationMap) :
  Map_get id m = None -> Map_delete id m = m.
Proof.
  induction m as [|[k a0] m IH]; simpl; auto.
  destruct (String.eqb k id) eqn:E; simpl; [discriminate|].
  intros H. now rewrite (IH H).
Qed.

(** *** What a tick leaves alone *)

Section Facts.

Variable Math_sin : number -> number.

Lemma update_animations (now : number) (w : World) :
  animations (manager (update Math_sin now w)) = animations (manager w).
Proof. unfold update. destruct (isRunning (manager w)); reflexivity. Qed.


Lemma start_animations (now : number) (w : World) :
  animations (manager (start Math_sin now w)) = animations (manager w).
Proof.
  unfold start. destruct (isRunning (manager w)); auto; now rewrite update_animations.
Qed.


Lemma frame_animations (now : number) (w : World) :
  animations (manager (frame Math_sin now w)) = animations (manager w).
Proof.
  unfold frame. destruct (scheduled (manager w)); auto; now rewrite update_animations.
Qed.


End Facts.

(** *** Counting the active instances *)

#[local] Open Scope nat_scope.




Section Loop.

Variable Math_sin : number -> number.


Lemma removeAnimation_isRunning (id : string) (w : World) :
  isRunning (manager (removeAnimation id w)) =
    if Nat.eqb (List.length (animations (manager (removeAnimation id w)))) 0
    then false else isRunning (manager w).
Proof.
  unfold removeAnimation.
  destruct (Map_get id (animations (manager w))) as [a|]; simpl;
    match goal with |- context [Nat.eqb ?n 0] => destruct (Nat.eqb n 0) eqn:E end;
    simpl; rewrite ?E; reflexivity.
Qed.






Lemma playAnimation_absent (id : string) (now now' : number) (w : World) :
  Map_get id (animations (manager w)) = None ->
  playAnimation Math_sin id now now' w = w.
Proof. intros Hg. unfold playAnimation. now rewrite Hg. Qed.






End Loop.

(** *** The shared loop and the active count *)




(** *** Calls on an id that is not registered *)

(** C10. For an id the registry does not hold, [playAnimation] and
    [pauseAnimation] return the world as it was, [removeAnimation] leaves
    the registered instances and every node as they were, and
    [isAnimationActive] answers [false]. The calls are total functions:
    none of them can fail. *)
Theorem absent_id_calls_change_nothing (Math_sin : number -> number)
    (id : string) (now now' : number) (w : World) :
  hasAnimation id w = false ->
  playAnimation Math_sin id now now' w = w
  /\ pauseAnimation id w = w
  /\ animations (manager (removeAnimation id w)) = animations (manager w)
  /\ heap (removeAnimation id w) = heap w
  /\ isAnimationActive id w = false.
Proof.
  unfold hasAnimation, playAnimation, pauseAnimation, removeAnimation, isAnimationActive.
  destruct (Map_get id (animations (manager w))) as [a|]; [discriminate|].
  intros _. repeat split;
    destruct (Nat.eqb (List.length (animations (manager w))) 0); reflexivity.
Qed.

(** A registry that holds "a", asked about "ghost". *)
Lemma absent_id_calls_change_nothing_witness :
  hasAnimation "ghost" one_float = false
  /\ playAnimation sample_sin "ghost" 1%float 1%float one_float = one_float
  /\ pauseAnimation "ghost" one_float = one_float
  /\ animations (manager (removeAnimation "ghost" one_float)) = animations (manager one_float)
  /\ heap (removeAnimation "ghost" one_float) = heap one_float
  /\ isAnimationActive "ghost" one_float = false.
Proof.
  split; [reflexivity|].
  apply (absent_id_calls_change_nothing sample_sin "ghost" 1%float 1%float one_float).
  reflexivity.
Defined.

(** *** The baseline snapshot *)

Lemma set_emissive_keeps (e : Color) (o : Object3D) :
  position (set_emissive e o) = position o
  /\ rotation (set_emissive e o) = rotation o
  /\ scale (set_emissive e o) = scale o.
Proof.
  unfold set_emissive. destruct (mesh o) as [[[em sh|] cs bs]|]; auto.
Qed.

Lemma set_emissive_phong (e : Color) (o : Object3D) :
  phong_emissive o <> None -> phong_emissive (set_emissive e o) = Some e.
Proof.
  unfold set_emissive, phong_emissive.
  destruct (mesh o) as [[[em sh|] cs bs]|]; simpl; congruence.
Qed.

Lemma restore_attributes (a : AnimationInstance) (o : Object3D) :
  position (restore a o) = originalPosition a
  /\ rotation (restore a o) = originalRotation a
  /\ scale (restore a o) = originalScale a
  /\ (forall e, originalEmissive a = Some e -> phong_emissive o <> None ->
        phong_emissive (restore a o) = Some e).
Proof.
  unfold restore. destruct (originalEmissive a) as [e|].
  - destruct (set_emissive_keeps e
      (set_scale (originalScale a)
         (set_rotation (originalRotation a) (set_position (originalPosition a) o))))
      as (Hp & Hr & Hs).
    rewrite Hp, Hr, Hs. repeat split.
    intros e' He Hph. inversion He; subst e'. now apply set_emissive_phong.
  - repeat split. discriminate.
Qed.

Lemma write_same (h : Heap) (ref : nat) (o : Object3D) : write h ref o ref = o.
Proof. unfold write. now rewrite Nat.eqb_refl. Qed.

Lemma write_other (h : Heap) (ref ref' : nat) (o : Object3D) :
  ref' <> ref -> write h ref o ref' = h ref'.
Proof. intros Hne. unfold write. now apply Nat.eqb_neq in Hne as ->. Qed.

Section Baseline.

Variable Math_sin : number -> number.

Lemma addAnimation_animations (id : string) (object : nat) (c : AnimationConfig)
    (now now' : number) (w : World) :
  animations (manager (addAnimation Math_sin id object c now now' w)) =
    Map_set id
      {| object := object; config := with_defaults c; startTime := now;
         isActive := autoStart_not_false c;
         originalPosition := position (heap w object);
         originalRotation := rotation (heap w object);
         originalScale := scale (heap w object);
         originalEmissive := phong_emissive (heap w object) |}
      (animations (manager w)).
Proof.
  unfold addAnimation.
  match goal with |- context [if ?c then _ else _] => destruct c end;
    [rewrite start_animations|]; reflexivity.
Qed.

Lemma removeAnimation_animations (id : string) (w : World) :
  animations (manager (removeAnimation id w)) = Map_delete id (animations (manager w)).
Proof.
  unfold removeAnimation.
  destruct (Map_get id (animations (manager w))) as [a|] eqn:Hg; simpl.
  - match goal with |- context [if ?c then _ else _] => destruct c end; reflexivity.
  - rewrite (Map_delete_absent _ _ Hg).
    match goal with |- context [if ?c then _ else _] => destruct c end; reflexivity.
Qed.

Lemma playAnimation_animations (id : string) (now now' : number) (w : World) (a : AnimationInstance) :
  Map_get id (animations (manager w)) = Some a ->
  animations (manager (playAnimation Math_sin id now now' w)) =
    Map_set id (set_active true now a) (animations (manager w)).
Proof.
  intros Hg. unfold playAnimation. rewrite Hg. simpl.
  destruct (isRunning (manager w)); simpl; [|rewrite start_animations]; reflexivity.
Qed.

(** A call that neither registers nor unregisters [id] keeps the instance
    registered under [id], with the baseline and the node it has. *)
Lemma step_keeps_baseline (id : string) (a : AnimationInstance) (w : World) (op : Op) :
  Map_get id (animations (manager w)) = Some a ->
  replaces id op = false ->
  exists a', Map_get id (animations (manager (step Math_sin w op))) = Some a'
             /\ baseline a' = baseline a /\ object a' = object a.
Proof.
  intros Hg Hop. destruct op as [id' o c now now'|id'|id' now now'|id'|now]; simpl in *.
  - exists a. rewrite addAnimation_animations, Map_get_set_other; auto.
  - exists a. rewrite removeAnimation_animations, Map_get_delete_other; auto.
  - destruct (Map_get id' (animations (manager w))) as [a0|] eqn:Hg'.
    + rewrite (playAnimation_animations _ _ _ _ _ Hg').
      destruct (String.eqb id' id) eqn:E.
      * apply String.eqb_eq in E. subst id'.
        rewrite Map_get_set_same. exists (set_active true now a0).
        assert (a0 = a) by congruence. subst a0. auto.
      * exists a. rewrite Map_get_set_other; auto.
    + exists a. rewrite (playAnimation_absent _ _ _ _ _ Hg'). auto.
  - unfold pauseAnimation.
    destruct (Map_get id' (animations (manager w))) as [a0|] eqn:Hg'; simpl.
    + destruct (String.eqb id' id) eqn:E.
      * apply String.eqb_eq in E. subst id'.
        rewrite Map_get_set_same. exists (set_active false (startTime a0) a0).
        assert (a0 = a) by congruence. subst a0. auto.
      * exists a. rewrite Map_get_set_other; auto.
    + exists a. auto.
  - exists a. rewrite frame_animations. auto.
Qed.

Lemma run_keeps_baseline (ops : list Op) (id : string) (a : AnimationInstance) (w : World) :
  Map_get id (animations (manager w)) = Some a ->
  Forall (fun op => replaces id op = false) ops ->
  exists a', Map_get id (animations (manager (run Math_sin ops w))) = Some a'
             /\ baseline a' = baseline a /\ object a' = object a.
Proof.
  revert a w. induction ops as [|op ops IH]; intros a w Hg Hall.
  - exists a. auto.
  - inversion Hall as [|? ? Hop Hrest]; subst.
    destruct (step_keeps_baseline id a w op Hg Hop) as (a1 & Hg1 & Hb1 & Ho1).
    destruct (IH a1 (step Math_sin w op) Hg1 Hrest) as (a2 & Hg2 & Hb2 & Ho2).
    exists a2. simpl. repeat split; congruence.
Qed.

(** Unregistering writes the baseline back to the node and drops the
    instance. *)
Lemma removeAnimation_restores (id : string) (a : AnimationInstance) (w : World) :
  Map_get id (animations (manager w)) = Some a ->
  heap (removeAnimation id w) (object a) = restore a (heap w (object a))
  /\ hasAnimation id (removeAnimation id w) = false.
Proof.
  intros Hg. split.
  - unfold removeAnimation. rewrite Hg. simpl.
    match goal with |- context [if ?c then _ else _] => destruct c end; simpl;
      apply write_same.
  - unfold hasAnimation. now rewrite removeAnimation_animations, Map_get_delete_same.
Qed.

End Baseline.

(** *** What the registry never writes *)

Lemma Object3D_ext (o1 o2 : Object3D) :
  position o1 = position o2 -> rotation o1 = rotation o2 -> scale o1 = scale o2 ->
  phong_emissive o1 = phong_emissive o2 -> untouched o1 = untouched o2 -> o1 = o2.
Proof.
  destruct o1 as [p1 r1 s1 v1 mw1 [[[e1 sh1|] cs1 bs1]|]],
           o2 as [p2 r2 s2 v2 mw2 [[[e2 sh2|] cs2 bs2]|]];
    unfold phong_emissive, untouched; simpl; intros; congruence.
Qed.

Lemma untouched_set_emissive (e : Color) (o : Object3D) :
  untouched (set_emissive e o) = untouched o.
Proof.
  destruct o as [p r s v mw [[[em sh|] cs bs]|]]; reflexivity.
Qed.

Lemma untouched_restore (a : AnimationInstance) (o : Object3D) :
  untouched (restore a o) = untouched o.
Proof.
  unfold restore. destruct (originalEmissive a); [rewrite untouched_set_emissive|];
    reflexivity.
Qed.

Lemma untouched_phong (o1 o2 : Object3D) :
  untouched o1 = untouched o2 ->
  (phong_emissive o1 = None <-> phong_emissive o2 = None).
Proof.
  unfold untouched, phong_emissive.
  destruct (mesh o1) as [[[e1 sh1|] cs1 bs1]|], (mesh o2) as [[[e2 sh2|] cs2 bs2]|];
    simpl; intros H; split; congruence.
Qed.

Section Frame.

Variable Math_sin : number -> number.

Lemma untouched_updateAnimation (h : Heap) (a : AnimationInstance)
    (progress elapsed : number) (ref : nat) :
  untouched (updateAnimation Math_sin h a progress elapsed ref) = untouched (h ref).
Proof.
  unfold updateAnimation, write. destruct (Nat.eqb ref (object a)) eqn:E; auto.
  apply Nat.eqb_eq in E. subst ref. destruct (type (config a)); try reflexivity.
  unfold updateGlowAnimation.
  destruct (phong_emissive (h (object a))), (originalEmissive a);
    try reflexivity. apply untouched_set_emissive.
Qed.

Lemma untouched_update_entry (now : number) (h : Heap) (a : AnimationInstance) (ref : nat) :
  untouched (update_entry Math_sin now h a ref) = untouched (h ref).
Proof.
  unfold update_entry. destruct (isActive a); simpl; auto.
  apply untouched_updateAnimation.
Qed.

Lemma untouched_update (now : number) (w : World) (ref : nat) :
  untouched (heap (update Math_sin now w) ref) = untouched (heap w ref).
Proof.
  unfold update. destruct (isRunning (manager w)); simpl; auto.
  generalize (heap w). induction (animations (manager w)) as [|kv m IH]; intros h; simpl; auto.
  rewrite IH. apply untouched_update_entry.
Qed.

Lemma untouched_start (now : number) (w : World) (ref : nat) :
  untouched (heap (start Math_sin now w) ref) = untouched (heap w ref).
Proof.
  unfold start. destruct (isRunning (manager w)); auto.
  now rewrite untouched_update.
Qed.

Lemma untouched_step (w : World) (op : Op) (ref : nat) :
  untouched (heap (step Math_sin w op) ref) = untouched (heap w ref).
Proof.
  destruct op as [id o c now now'|id|id now now'|id|now]; simpl.
  - unfold addAnimation.
    match goal with |- context [if ?c then _ else _] => destruct c end;
      [rewrite untouched_start|]; reflexivity.
  - unfold removeAnimation.
    destruct (Map_get id (animations (manager w))) as [a|]; simpl;
      match goal with |- context [if ?c then _ else _] => destruct c end; simpl; auto;
      unfold write; destruct (Nat.eqb ref (object a)) eqn:E; auto;
      apply Nat.eqb_eq in E; subst ref; apply untouched_restore.
  - unfold playAnimation.
    destruct (Map_get id (animations (manager w))) as [a|]; simpl; auto.
    destruct (isRunning (manager w)); simpl; [|rewrite untouched_start]; reflexivity.
  - unfold pauseAnimation.
    destruct (Map_get id (animations (manager w))); reflexivity.
  - unfold frame. destruct (scheduled (manager w)); auto.
    now rewrite untouched_update.
Qed.

Lemma untouched_run (ops : list Op) (w : World) (ref : nat) :
  untouched (heap (run Math_sin ops w) ref) = untouched (heap w ref).
Proof.
  unfold run. revert w. induction ops as [|op ops IH]; intros w; simpl; auto.
  rewrite IH. apply untouched_step.
Qed.

(** Register, let the registry run, unregister: the node is as it was when
    the instance was registered. *)
Lemma round_trip (id : string) (object : nat) (c : AnimationConfig)
    (now now' : number) (ops : list Op) (w : World) :
  Forall (fun op => replaces id op = false) ops ->
  heap (removeAnimation id (run Math_sin ops
          (addAnimation Math_sin id object c now now' w))) object = heap w object.
Proof.
  intros Hops.
  set (w1 := addAnimation Math_sin id object c now now' w).
  assert (Hg1 : Map_get id (animations (manager w1)) =
                Some {| object := object; config := with_defaults c; startTime := now;
                        isActive := autoStart_not_false c;
                        originalPosition := position (heap w object);
                        originalRotation := rotation (heap w object);
                        originalScale := scale (heap w object);
                        originalEmissive := phong_emissive (heap w object) |})
    by (unfold w1; rewrite addAnimation_animations; apply Map_get_set_same).
  destruct (run_keeps_baseline Math_sin ops id _ w1 Hg1 Hops) as (a & Hg & Hb & Ho).
  simpl in Ho. unfold baseline in Hb. simpl in Hb. inversion Hb as [[Hp Hr Hs He]].
  destruct (removeAnimation_restores id a _ Hg) as [Hheap _].
  rewrite Ho in Hheap. rewrite Hheap.
  assert (Hu : untouched (heap (run Math_sin ops w1) object) = untouched (heap w object)).
  { rewrite untouched_run. unfold w1. apply (untouched_step w (OpAdd id object c now now')). }
  destruct (restore_attributes a (heap (run Math_sin ops w1) object)) as (Rp & Rr & Rs & Re).
  apply Object3D_ext; try congruence.
  - destruct (phong_emissive (heap w object)) as [e|] eqn:Hph.
    + apply Re; auto. rewrite (untouched_phong _ _ Hu). congruence.
    + apply (untouched_phong (restore a (heap (run Math_sin ops w1) object)) (heap w object));
        auto. now rewrite untouched_restore.
  - now rewrite untouched_restore.
Qed.

End Frame.

(** C2. The baseline captured by [addAnimation] is the node's position,
    rotation, scale and (for a Phong mesh) emissive colour at that moment,
    and no later call changes it: after any run of calls that does not
    register or unregister the id again, the instance still holds that
    baseline and refers to the same node. [removeAnimation] writes the
    baseline back to the node exactly and drops the instance, so that
    register, run, unregister leaves the node as it was at registration.
    Worked example: a Float animation of amplitude 2 on a node whose baseline
    height is 5 puts the node at height 7 on a tick at progress 0.25 (given
    that the host's sine of a quarter turn is 1), and unregistering puts it
    back at 5. *)
Theorem baseline_round_trip (Math_sin : number -> number) :
  (forall (id : string) (node : nat) (c : AnimationConfig) (now now' : number)
          (ops : list Op) (w : World),
      Forall (fun op => replaces id op = false) ops ->
      exists a,
        Map_get id (animations (manager
          (run Math_sin ops (addAnimation Math_sin id node c now now' w)))) = Some a
        /\ object a = node
        /\ baseline a = (position (heap w node), rotation (heap w node),
                         scale (heap w node), phong_emissive (heap w node)))
  /\ (forall (id : string) (a : AnimationInstance) (w : World),
      Map_get id (animations (manager w)) = Some a ->
      let o := heap (removeAnimation id w) (object a) in
      position o = originalPosition a
      /\ rotation o = originalRotation a
      /\ scale o = originalScale a
      /\ (forall e, originalEmissive a = Some e ->
            phong_emissive (heap w (object a)) <> None -> phong_emissive o = Some e)
      /\ hasAnimation id (removeAnimation id w) = false)
  /\ (forall (id : string) (node : nat) (c : AnimationConfig) (now now' : number)
          (ops : list Op) (w : World),
      Forall (fun op => replaces id op = false) ops ->
      heap (removeAnimation id (run Math_sin ops
              (addAnimation Math_sin id node c now now' w))) node = heap w node)
  /\ (forall (h : Heap) (node : nat) (id : string) (d t0 t0' now : number),
      y (position (h node)) = 5%float ->
      Math_sin (0.25 * PI * 2)%float = 1%float ->
      (js_rem (now - t0) d / d)%float = 0.25%float ->
      let w1 := addAnimation Math_sin id node
                  (config_of FLOAT d (Some 2%float) None) t0 t0' (fresh h) in
      let w2 := frame Math_sin now w1 in
      y (position (heap w2 node)) = 7%float
      /\ y (position (heap (removeAnimation id w2) node)) = 5%float).
Proof.
  split; [|split; [|split]].
  - intros id node c now now' ops w Hops.
    assert (Hg0 := Map_get_set_same id
      {| object := node; config := with_defaults c; startTime := now;
         isActive := autoStart_not_false c;
         originalPosition := position (heap w node);
         originalRotation := rotation (heap w node);
         originalScale := scale (heap w node);
         originalEmissive := phong_emissive (heap w node) |} (animations (manager w))).
    rewrite <- (addAnimation_animations Math_sin id node c now now' w) in Hg0.
    destruct (run_keeps_baseline Math_sin ops id _ _ Hg0 Hops) as (a & Hg & Hb & Ho).
    exists a. split; [exact Hg|]. split; [exact Ho | exact Hb].
  - intros id a w Hg o.
    destruct (removeAnimation_restores id a w Hg) as [Hheap Hgone].
    destruct (restore_attributes a (heap w (object a))) as (Rp & Rr & Rs & Re).
    unfold o. rewrite Hheap. repeat split; assumption.
  - intros id node c now now' ops w Hops. now apply round_trip.
  - intros h node id d t0 t0' now Hy Hsin Hprog w1 w2.
    assert (Hg : Map_get id (animations (manager w2)) =
                 Some {| object := node;
                         config := with_defaults (config_of FLOAT d (Some 2%float) None);
                         startTime := t0; isActive := true;
                         originalPosition := position (h node);
                         originalRotation := rotation (h node);
                         originalScale := scale (h node);
                         originalEmissive := phong_emissive (h node) |}).
    { unfold w2. rewrite frame_animations. unfold w1.
      rewrite addAnimation_animations. apply Map_get_set_same. }
    split.
    + unfold w2, w1, addAnimation, start, update, frame, update_entry, updateAnimation,
        updateFloatAnimation. simpl.
      unfold update_entry, updateAnimation, updateFloatAnimation. simpl.
      rewrite write_same. simpl. rewrite Hprog, Hsin, Hy. reflexivity.
    + destruct (removeAnimation_restores id _ w2 Hg) as [Hheap _]. cbn [object] in Hheap.
      rewrite Hheap.
      destruct (restore_attributes
        {| object := node;
           config := with_defaults (config_of FLOAT d (Some 2%float) None);
           startTime := t0; isActive := true;
           originalPosition := position (h node);
           originalRotation := rotation (h node);
           originalScale := scale (h node);
           originalEmissive := phong_emissive (h node) |} (heap w2 node)) as (Rp & _).
      rewrite Rp. simpl. exact Hy.
Qed.

(** The worked example on the sample scene: duration 4, registered at time
    0, ticked at time 1. *)
Lemma baseline_round_trip_witness :
  let w1 := addAnimation sample_sin "float" 0 float_config 0%float 0%float (fresh sample_heap) in
  let w2 := frame sample_sin 1%float w1 in
  y (position (sample_heap 0)) = 5%float
  /\ sample_sin (0.25 * PI * 2)%float = 1%float
  /\ (js_rem (1 - 0) 4 / 4)%float = 0.25%float
  /\ y (position (heap w2 0)) = 7%float
  /\ y (position (heap (removeAnimation "float" w2) 0)) = 5%float.
Proof.
  split; [reflexivity|]. split; [vm_compute; reflexivity|].
  split; [vm_compute; reflexivity|].
  apply (proj2 (proj2 (proj2 (baseline_round_trip sample_sin)))
           sample_heap 0 "float"%string 4%float 0%float 0%float 1%float).
  - reflexivity.
  - vm_compute; reflexivity.
  - vm_compute; reflexivity.
Defined.

(** *** The tick and the duration *)




End AnimationManagerFacts.

(** ** InteractionSystem *)

Module InteractionSystemFacts.

Import JSNumber NumberFacts InteractionSystem.
Open Scope float_scope.

(** *** Resolving the target *)

Lemma resolve_skip (objs : list InteractableObject) (i : Intersection)
    (rest : list Intersection) :
  in_range objs i = false -> resolve objs (i :: rest) = resolve objs rest.
Proof.
  unfold in_range, owner. simpl.
  destruct (find _ objs) as [o|]; [intros ->|]; reflexivity.
Qed.

Lemma resolve_hit (objs : list InteractableObject) (i : Intersection)
    (rest : list Intersection) (o : InteractableObject) :
  owner objs i = Some o -> (distance i <=? interactionDistance o) = true ->
  resolve objs (i :: rest) = Some o.
Proof. unfold owner. simpl. intros -> ->. reflexivity. Qed.

Lemma resolve_Some (objs : list InteractableObject) (intersects : list Intersection)
    (o : InteractableObject) :
  resolve objs intersects = Some o <->
  exists before hit after,
    intersects = before ++ hit :: after
    /\ Forall (fun i => in_range objs i = false) before
    /\ owner objs hit = Some o
    /\ (distance hit <=? interactionDistance o) = true.
Proof.
  split.
  - induction intersects as [|i rest IH]; [discriminate|].
    destruct (in_range objs i) eqn:Hin.
    + unfold in_range in Hin. destruct (owner objs i) as [o'|] eqn:Ho; [|discriminate].
      rewrite (resolve_hit objs i rest o' Ho Hin). intros H. inversion H; subst o'.
      exists [], i, rest. repeat split; auto.
    + rewrite (resolve_skip objs i rest Hin). intros H.
      destruct (IH H) as (before & hit & after & -> & Hall & Ho & Hd).
      exists (i :: before), hit, after. repeat split; auto.
  - intros (before & hit & after & -> & Hall & Ho & Hd).
    induction Hall as [|i before Hi Hall IH]; simpl app.
    + now apply resolve_hit.
    + now rewrite (resolve_skip objs i _ Hi).
Qed.

Lemma resolve_None (objs : list InteractableObject) (intersects : list Intersection) :
  resolve objs intersects = None <->
  Forall (fun i => in_range objs i = false) intersects.
Proof.
  induction intersects as [|i rest IH]; [split; auto|].
  destruct (in_range objs i) eqn:Hin.
  - split.
    + unfold in_range in Hin. destruct (owner objs i) as [o|] eqn:Ho; [|discriminate].
      rewrite (resolve_hit objs i rest o Ho Hin). discriminate.
    + intros H. inversion H; congruence.
  - rewrite (resolve_skip objs i rest Hin), IH. split.
    + intros H. now constructor.
    + intros H. now inversion H.
Qed.

(** C5. [resolve] returns the entity of the first intersection, in the
    order of the list, that lies within its own entity's interaction
    distance: every intersection before it either belongs to no entity or
    is out of its entity's range. It returns none exactly when no
    intersection is in range of its entity. In particular a nearer hit whose
    entity is out of range does not hide a farther hit whose entity is in
    range. *)
Theorem resolve_first_in_range (objs : list InteractableObject)
    (intersects : list Intersection) :
  (forall o, resolve objs intersects = Some o <->
      exists before hit after,
        intersects = before ++ hit :: after
        /\ Forall (fun i => in_range objs i = false) before
        /\ owner objs hit = Some o
        /\ (distance hit <=? interactionDistance o) = true)
  /\ (resolve objs intersects = None <->
      Forall (fun i => in_range objs i = false) intersects)
  /\ (forall near far rest A B,
      intersects = near :: far :: rest ->
      owner objs near = Some A -> (interactionDistance A <? distance near) = true ->
      owner objs far = Some B -> (distance far <=? interactionDistance B) = true ->
      resolve objs intersects = Some B).
Proof.
  split; [|split].
  - intros o. apply resolve_Some.
  - apply resolve_None.
  - intros near far rest A B -> HA Hfar HB Hin.
    rewrite resolve_skip.
    + now apply resolve_hit.
    + unfold in_range. rewrite HA. now apply ltb_not_leb.
Qed.

(** The nearer hit belongs to A and is 3 away, beyond A's distance 2; the
    farther belongs to B and is 5 away, within B's distance 10. *)
Lemma resolve_first_in_range_witness :
  owner [entity_A; entity_B] hit_A = Some entity_A
  /\ (interactionDistance entity_A <? distance hit_A) = true
  /\ owner [entity_A; entity_B] hit_B = Some entity_B
  /\ (distance hit_B <=? interactionDistance entity_B) = true
  /\ resolve [entity_A; entity_B] [hit_A; hit_B] = Some entity_B.
Proof.
  repeat (split; [reflexivity|]).
  apply (proj2 (proj2 (resolve_first_in_range [entity_A; entity_B] [hit_A; hit_B]))
           hit_A hit_B [] entity_A entity_B); reflexivity.
Defined.

(** *** Hover transitions *)

Lemma updateInteractionPrompt_keeps (s : System) :
  log (updateInteractionPrompt s) = log s
  /\ currentHoveredObject (updateInteractionPrompt s) = currentHoveredObject s
  /\ interactableObjects (updateInteractionPrompt s) = interactableObjects s.
Proof.
  unfold updateInteractionPrompt.
  destruct s as [objs [cur|] [p|] l]; simpl; repeat split.
Qed.

(** C6, as the code has it. On a pointer move under pointer lock whose
    resolved target differs from the current hover, the handler calls the
    hover-end callback of the previous entity (if any), then stores the new
    target as the hover state, then calls the hover-begin callback of the new
    entity (if any): the hover state is written between the two callbacks,
    not after them. Without pointer lock the handler does nothing. *)
Theorem hover_transition_order (intersects : list Intersection) (s : System) :
  same_target (getIntersectedInteractableObject intersects s)
              (currentHoveredObject s) = false ->
  let target := getIntersectedInteractableObject intersects s in
  let s' := onCanvasMouseMove true intersects s in
  log s' = log s ++ hover_end_calls (currentHoveredObject s)
                 ++ [SetHovered (option_map self target)]
                 ++ hover_begin_calls target
  /\ currentHoveredObject s' = target
  /\ onCanvasMouseMove false intersects s = s.
Proof.
  intros Hdiff target s'. split; [|split; [|reflexivity]];
    unfold s', onCanvasMouseMove; cbn [negb]; fold target;
    unfold target at 1; rewrite Hdiff;
    match goal with |- context [updateInteractionPrompt ?st] =>
      destruct (updateInteractionPrompt_keeps st) as (Hlog & Hcur & _)
    end;
    rewrite ?Hlog, ?Hcur; clear Hlog Hcur; simpl;
    unfold hover_end_calls, hover_begin_calls;
    (destruct (currentHoveredObject s) as [p|]; [destruct (onHoverEnd p)|]);
    (destruct target as [t|]; [destruct (onHover t)|]); simpl;
    rewrite <- ?app_assoc; simpl; auto.
Qed.

(** The view moves from A to B. *)
Lemma hover_transition_order_witness :
  same_target (getIntersectedInteractableObject [hit_B] (hovering (Some entity_A)))
              (Some entity_A) = false
  /\ log (onCanvasMouseMove true [hit_B] (hovering (Some entity_A))) =
       [Call 12%nat; SetHovered (Some 2%nat); Call 21%nat]
  /\ currentHoveredObject (onCanvasMouseMove true [hit_B] (hovering (Some entity_A))) =
       Some entity_B.
Proof.
  split; [reflexivity|].
  destruct (hover_transition_order [hit_B] (hovering (Some entity_A)) eq_refl)
    as (Hlog & Hcur & _).
  split; [exact Hlog | exact Hcur].
Defined.

(** C6 as stated fails: when the view moves from A to B the hover state is
    already B when B's hover-begin callback (21) is called; it is not
    written after both callbacks. *)
Lemma hover_state_written_between_callbacks :
  onHoverEnd entity_A = Some 12%nat /\ onHover entity_B = Some 21%nat
  /\ log (onCanvasMouseMove true [hit_B] (hovering (Some entity_A))) =
       [Call 12%nat; SetHovered (Some (self entity_B)); Call 21%nat].
Proof. repeat split. Qed.

(** *** Unregistering an entity *)

(** C3, as the code has it. [removeInteractableObject] never calls a
    callback. Removing a registered entity that is the hovered one takes its
    first occurrence out of the registry, clears the stored hover state and
    hides the prompt (the text of the prompt is left); removing an entity
    that is not the hovered one leaves the hover state, the prompt and the
    log of effects as they were. *)
Theorem removeInteractableObject_hover (o : InteractableObject) (s : System) :
  let s' := removeInteractableObject o s in
  calls (log s') = calls (log s)
  /\ interactableObjects s' =
       match indexOf o (interactableObjects s) with
       | Some index => splice1 index (interactableObjects s)
       | None => interactableObjects s
       end
  /\ (indexOf o (interactableObjects s) <> None ->
      same_target (currentHoveredObject s) (Some o) = true ->
      currentHoveredObject s' = None
      /\ log s' = log s ++ [SetHovered None]
      /\ interactionPrompt s' =
           match interactionPrompt s with
           | Some p => Some {| textContent := textContent p; visibleClass := false |}
           | None => None
           end)
  /\ (same_target (currentHoveredObject s) (Some o) = false ->
      currentHoveredObject s' = currentHoveredObject s
      /\ log s' = log s
      /\ interactionPrompt s' = interactionPrompt s).
Proof.
  unfold removeInteractableObject.
  destruct s as [objs cur prompt lg]. simpl.
  destruct (indexOf o objs) as [index|]; simpl.
  - destruct (same_target cur (Some o)) eqn:Hsame.
    + unfold updateInteractionPrompt. simpl.
      destruct prompt as [p|]; simpl; repeat split; try discriminate;
        unfold calls; rewrite flat_map_app; simpl; now rewrite app_nil_r.
    + repeat split; try discriminate; auto.
  - repeat split; auto; congruence.
Qed.

(** Entity B is registered and hovered, the prompt is shown, and B is
    unregistered. *)
Lemma removeInteractableObject_hover_witness :
  indexOf entity_B (interactableObjects hovered_B) <> None
  /\ same_target (currentHoveredObject hovered_B) (Some entity_B) = true
  /\ option_map visibleClass (interactionPrompt hovered_B) = Some true
  /\ currentHoveredObject (removeInteractableObject entity_B hovered_B) = None
  /\ option_map visibleClass (interactionPrompt (removeInteractableObject entity_B hovered_B))
     = Some false
  /\ interactableObjects (removeInteractableObject entity_B hovered_B) = [entity_A]
  /\ calls (log (removeInteractableObject entity_B hovered_B)) = calls (log hovered_B).
Proof.
  destruct (removeInteractableObject_hover entity_B hovered_B) as (Hcalls & Hreg & Hhover & _).
  destruct Hhover as (Hcur & _ & Hprompt); [discriminate | reflexivity |].
  split; [discriminate|]. split; [reflexivity|]. split; [reflexivity|].
  split; [exact Hcur|]. split; [now rewrite Hprompt|].
  split; [exact Hreg | exact Hcalls].
Defined.

(** C3 as stated fails: A is registered and hovered and has a hover-end
    callback (12); unregistering A clears the hover state and calls
    nothing. *)
Lemma removing_hovered_entity_calls_nothing :
  onHoverEnd entity_A = Some 12%nat
  /\ currentHoveredObject (hovering (Some entity_A)) = Some entity_A
  /\ currentHoveredObject (removeInteractableObject entity_A (hovering (Some entity_A))) = None
  /\ calls (log (removeInteractableObject entity_A (hovering (Some entity_A)))) = [].
Proof. repeat split. Qed.

End InteractionSystemFacts.

(** ** PerformanceOptimizer *)

Module PerformanceOptimizerFacts.

Import JSNumber NumberFacts THREE PerformanceOptimizer.
Open Scope float_scope.

(** *** Classifying the sample *)

(** The thresholds of the classifier, for an average that is a number. *)
Lemma classify_thresholds (avg : number) :
  is_nan avg = false ->
  (classify avg = high <-> (50 <=? avg) = true)
  /\ (classify avg = medium <-> (30 <=? avg) = true /\ (avg <? 50) = true)
  /\ (classify avg = low <-> (avg <? 30) = true).
Proof.
  intros Hnan.
  assert (H3050 : (30 <=? 50) = true) by reflexivity.
  unfold classify, ge.
  destruct (50 <=? avg) eqn:H50; [|destruct (30 <=? avg) eqn:H30];
    (split; [|split]).
  - split; auto.
  - pose proof (leb_not_ltb _ _ H50). split; [discriminate | intros [_ H']; congruence].
  - pose proof (leb_not_ltb _ _ (leb_trans 30 50 avg H3050 H50)).
    split; [discriminate | congruence].
  - split; discriminate.
  - pose proof (not_leb_ltb 50 avg eq_refl Hnan H50). split; auto.
  - pose proof (leb_not_ltb _ _ H30). split; [discriminate | congruence].
  - split; discriminate.
  - split; [discriminate | intros [H' _]; congruence].
  - pose proof (not_leb_ltb 30 avg eq_refl Hnan H30). split; auto.
Qed.

(** The frame counter stays a number. *)
Lemma updatePerformanceLevel_frameCount (now : number) (st : Optimizer) :
  is_nan (frameCount st) = false ->
  is_nan (frameCount (updatePerformanceLevel now st)) = false.
Proof.
  intros Hc. unfold updatePerformanceLevel.
  destruct (ge (now - lastTime st) 1000); simpl; [reflexivity | now apply succ_not_nan].
Qed.

(** C7. Whenever a sample is taken (a finite time of a second or more after
    the last one, the frame counter being a number), the average is
    [frameCount * 1000 / deltaTime], it is a number, and the tier stored is
    "high" exactly when the average is at least 50, "medium" exactly when it
    is at least 30 and below 50, and "low" exactly when it is below 30. An
    average of exactly 50 classifies as "high", 45 as "medium" and 29 as
    "low". *)
Theorem tier_thresholds (now : number) (st : Optimizer) :
  is_nan (frameCount st) = false ->
  ge (now - lastTime st) 1000 = true ->
  is_infinity (now - lastTime st) = false ->
  let st' := updatePerformanceLevel now st in
  let avg := averageFPS st' in
  avg = frameCount st * 1000 / (now - lastTime st)
  /\ is_nan avg = false
  /\ (performanceLevel st' = high <-> (50 <=? avg) = true)
  /\ (performanceLevel st' = medium <-> (30 <=? avg) = true /\ (avg <? 50) = true)
  /\ (performanceLevel st' = low <-> (avg <? 30) = true)
  /\ classify 50 = high /\ classify 45 = medium /\ classify 29 = low.
Proof.
  intros Hc Hd Hfin st' avg.
  assert (Havg : avg = frameCount st * 1000 / (now - lastTime st))
    by (unfold avg, st', updatePerformanceLevel; now rewrite Hd).
  assert (Hlevel : performanceLevel st' = classify avg)
    by (unfold avg, st', updatePerformanceLevel; now rewrite Hd).
  assert (Hnan : is_nan avg = false)
    by (rewrite Havg; now apply sample_not_nan).
  rewrite Hlevel. destruct (classify_thresholds avg Hnan) as (Hh & Hm & Hl).
  repeat split; try apply Hh; try apply Hm; try apply Hl; auto.
Qed.

(** The optimizer that has counted 45 frames, sampled after one second. *)
Lemma tier_thresholds_witness :
  is_nan (frameCount after_45_frames) = false
  /\ ge (1000 - lastTime after_45_frames) 1000 = true
  /\ is_infinity (1000 - lastTime after_45_frames) = false
  /\ averageFPS (updatePerformanceLevel 1000 after_45_frames) = 45
  /\ performanceLevel (updatePerformanceLevel 1000 after_45_frames) = medium.
Proof.
  repeat (split; [vm_compute; reflexivity|]).
  destruct (tier_thresholds 1000 after_45_frames eq_refl eq_refl eq_refl)
    as (_ & _ & _ & Hm & _).
  apply Hm. split; vm_compute; reflexivity.
Defined.

(** *** Traversals *)

Lemma SceneGraph_induction (P : SceneGraph -> Prop) :
  (forall u p cs, Forall P cs -> P (Obj u p cs)) -> forall o, P o.
Proof.
  intros H. fix IH 1. intros [u p cs]. apply H.
  induction cs as [|c cs IHcs]; constructor; [apply IH | exact IHcs].
Qed.

Lemma nodes_traverse (f : Object3D -> Object3D) (o : SceneGraph) :
  nodes (traverse f o) = map (fun n => (fst n, f (snd n))) (nodes o).
Proof.
  induction o as [u p cs IH] using SceneGraph_induction. simpl. f_equal.
  induction IH as [|c cs Hc _ IHcs]; simpl; [reflexivity|].
  now rewrite map_app, Hc, IHcs.
Qed.

Lemma traverse_idempotent (f : Object3D -> Object3D) (o : SceneGraph) :
  (forall p, f (f p) = f p) -> traverse f (traverse f o) = traverse f o.
Proof.
  intros Hf. induction o as [u p cs IH] using SceneGraph_induction. simpl.
  rewrite Hf. f_equal. rewrite map_map.
  induction IH as [|c cs Hc _ IHcs]; simpl; [reflexivity|]. now rewrite Hc, IHcs.
Qed.

Lemma props_traverse (f : Object3D -> Object3D) (o : SceneGraph) :
  props (traverse f o) = f (props o).
Proof. now destruct o. Qed.

(** *** The medium and the high level on one node *)

Lemma mediumLOD_idempotent (p : Object3D) : mediumLOD (mediumLOD p) = mediumLOD p.
Proof.
  destruct p as [po ro sc v mw [[[e s|] cs bs]|]]; unfold mediumLOD; simpl;
    try reflexivity.
  now rewrite Math_min_idem.
Qed.

Lemma mediumLOD_set_visible (v : bool) (p : Object3D) :
  mediumLOD (set_visible v p) = set_visible v (mediumLOD p).
Proof. destruct p as [po ro sc v0 mw [[[e s|] cs bs]|]]; reflexivity. Qed.

Lemma mediumLOD_keeps (p : Object3D) :
  position (mediumLOD p) = position p /\ visible (mediumLOD p) = visible p.
Proof. unfold mediumLOD. destruct (mesh p); split; reflexivity. Qed.

Lemma highLOD_keeps (config : LODConfig) (p : Object3D) :
  position (highLOD config p) = position p /\ visible (highLOD config p) = visible p.
Proof. unfold highLOD. destruct (mesh p); split; reflexivity. Qed.

(** What the medium level leaves on a mesh: no shadow casting, and a Phong
    shininess of [Math.min(shininess, 50)], which is at most 50 for every
    shininess that is a number. *)
Lemma mediumLOD_mesh (p : Object3D) (m : Mesh) :
  mesh p = Some m ->
  exists m', mesh (mediumLOD p) = Some m'
    /\ castShadow m' = false
    /\ boundingSphere m' = boundingSphere m
    /\ match material m with
       | MeshPhongMaterial e s =>
           material m' = MeshPhongMaterial e (Math_min s 50)
           /\ (is_nan s = false -> (Math_min s 50 <=? 50) = true)
       | OtherMaterial => material m' = OtherMaterial
       end.
Proof.
  intros Hm. unfold mediumLOD. rewrite Hm. eexists. split; [reflexivity|]. simpl.
  repeat split. destruct (material m) as [e s|]; [split|]; try reflexivity.
  intros Hs. now apply Math_min_le.
Qed.

(** What the high level leaves on a mesh: shadow casting unless the entry
    stores [false], and a Phong shininess of [originalShininess || 100]. *)
Lemma highLOD_mesh (config : LODConfig) (p : Object3D) (m : Mesh) :
  mesh p = Some m ->
  exists m', mesh (highLOD config p) = Some m'
    /\ castShadow m' = match lodCastShadow config with Some false => false | _ => true end
    /\ boundingSphere m' = boundingSphere m
    /\ match material m with
       | MeshPhongMaterial e _ =>
           material m' = MeshPhongMaterial e (or_default (originalShininess config) 100)
       | OtherMaterial => material m' = OtherMaterial
       end.
Proof.
  intros Hm. unfold highLOD. rewrite Hm. eexists. split; [reflexivity|]. simpl.
  repeat split. destruct (material m); reflexivity.
Qed.

Lemma applyMediumLOD_again (o : SceneGraph) :
  applyMediumLOD (set_object_visible true (applyMediumLOD (set_object_visible true o))) =
  applyMediumLOD (set_object_visible true o).
Proof.
  destruct o as [u p cs]. unfold applyMediumLOD. simpl.
  rewrite mediumLOD_set_visible, mediumLOD_idempotent. f_equal.
  - destruct p as [po ro sc v mw [[[e s|] cs' bs]|]]; reflexivity.
  - rewrite map_map. apply map_ext. intros c.
    apply traverse_idempotent, mediumLOD_idempotent.
Qed.

(** *** The level-of-detail pass on one entry *)

Lemma lod_entry_position (cameraPosition : Vector3) (config : LODConfig) (o : SceneGraph) :
  position (props (lod_entry cameraPosition config o)) = position (props o).
Proof.
  unfold lod_entry, applyMediumLOD, applyHighLOD.
  repeat match goal with |- context [if ?c then _ else _] => destruct c end;
    destruct o as [u p cs]; simpl; try reflexivity.
  - now destruct (mediumLOD_keeps (set_visible true p)) as [-> _].
  - now destruct (highLOD_keeps config (set_visible true p)) as [-> _].
Qed.

(** The body of the loop of [updateLOD], on one entry. It takes the
    distance from the camera to the node and does one of three things.
    Beyond [farDistance] it hides the node and changes nothing else. Beyond
    [mediumDistance] and within [farDistance] it shows the node and, on
    every mesh of its subtree, turns shadow casting off and caps a Phong
    shininess with [Math.min(shininess, 50)]; doing so again changes nothing
    more. Within [mediumDistance] (the thresholds being in order) it shows
    the node and, on every mesh of its subtree, sets shadow casting to the
    entry's stored flag (on when none is stored) and a Phong shininess to
    [originalShininess || 100]: the stored baseline unless it is absent or
    zero, and 100 then. *)
Theorem lod_entry_outcomes (cameraPosition : Vector3) (config : LODConfig) (o : SceneGraph) :
  let distance := distanceTo cameraPosition (position (props o)) in
  let result := lod_entry cameraPosition config o in
  let shown := set_object_visible true o in
  (gt distance (farDistance config) = true ->
      result = set_object_visible false o /\ visible (props result) = false)
  /\ (gt distance (mediumDistance config) = true ->
      (distance <=? farDistance config) = true ->
      visible (props result) = true
      /\ nodes result = map (fun n => (fst n, mediumLOD (snd n))) (nodes shown)
      /\ lod_entry cameraPosition config result = result)
  /\ ((distance <=? mediumDistance config) = true ->
      (mediumDistance config <=? farDistance config) = true ->
      visible (props result) = true
      /\ nodes result = map (fun n => (fst n, highLOD config (snd n))) (nodes shown))
  /\ (forall (p : Object3D) (m : Mesh),
      mesh p = Some m ->
      exists m', mesh (mediumLOD p) = Some m'
        /\ castShadow m' = false
        /\ match material m with
           | MeshPhongMaterial e s =>
               material m' = MeshPhongMaterial e (Math_min s 50)
               /\ (is_nan s = false -> (Math_min s 50 <=? 50) = true)
           | OtherMaterial => material m' = OtherMaterial
           end)
  /\ (forall (p : Object3D) (m : Mesh),
      mesh p = Some m ->
      exists m', mesh (highLOD config p) = Some m'
        /\ (forall flag, lodCastShadow config = Some flag -> castShadow m' = flag)
        /\ (lodCastShadow config = None -> castShadow m' = true)
        /\ match material m with
           | MeshPhongMaterial e _ =>
               exists s', material m' = MeshPhongMaterial e s'
                 /\ s' = or_default (originalShininess config) 100
                 /\ (forall s, originalShininess config = Some s -> truthy s = true -> s' = s)
                 /\ (forall s, originalShininess config = Some s -> truthy s = false -> s' = 100)
                 /\ (originalShininess config = None -> s' = 100)
           | OtherMaterial => material m' = OtherMaterial
           end).
Proof.
  intros distance result shown. split; [|split; [|split; [|split]]].
  - intros Hfar. unfold result, lod_entry. fold distance. rewrite Hfar.
    split; [reflexivity|]. now destruct o.
  - intros Hmed Hfar. unfold gt in Hmed.
    assert (Hres : result = applyMediumLOD shown).
    { unfold result, lod_entry, gt. fold distance.
      now rewrite (leb_not_ltb _ _ Hfar), Hmed. }
    split; [|split].
    + rewrite Hres. unfold applyMediumLOD. rewrite props_traverse.
      destruct o as [u p cs]. simpl. now destruct (mediumLOD_keeps (set_visible true p)).
    + rewrite Hres. apply nodes_traverse.
    + unfold lod_entry at 1.
      replace (position (props result)) with (position (props o))
        by (symmetry; apply lod_entry_position).
      fold distance. unfold gt.
      rewrite (leb_not_ltb _ _ Hfar), Hmed. rewrite Hres. apply applyMediumLOD_again.
  - intros Hmed Hord.
    assert (Hres : result = applyHighLOD shown config).
    { unfold result, lod_entry, gt. fold distance.
      now rewrite (leb_not_ltb _ _ (leb_trans _ _ _ Hmed Hord)), (leb_not_ltb _ _ Hmed). }
    split.
    + rewrite Hres. unfold applyHighLOD. rewrite props_traverse.
      destruct o as [u p cs]. simpl. now destruct (highLOD_keeps config (set_visible true p)).
    + rewrite Hres. apply nodes_traverse.
  - intros p m Hm. destruct (mediumLOD_mesh p m Hm) as (m' & H1 & H2 & _ & H4).
    exists m'. auto.
  - intros p m Hm. destruct (highLOD_mesh config p m Hm) as (m' & H1 & H2 & _ & H4).
    exists m'. split; [exact H1|]. split; [|split].
    + intros flag Hflag. rewrite H2, Hflag. now destruct flag.
    + intros Hnone. now rewrite H2, Hnone.
    + destruct (material m) as [e s0|]; [|exact H4].
      eexists. split; [exact H4|]. split; [reflexivity|]. unfold or_default.
      split; [|split].
      * intros s Hs Ht. now rewrite Hs, Ht.
      * intros s Hs Ht. now rewrite Hs, Ht.
      * intros Hs. now rewrite Hs.
Qed.

(** The mesh five units from the camera, with an entry that stores a
    baseline shininess of 80 and thresholds 10, 50 and 100. *)
Lemma lod_entry_outcomes_witness :
  (distanceTo camera_origin (position (props near_mesh)) <=? mediumDistance (lod_config (Some 80)))
    = true
  /\ (mediumDistance (lod_config (Some 80)) <=? farDistance (lod_config (Some 80))) = true
  /\ visible (props (lod_entry camera_origin (lod_config (Some 80)) near_mesh)) = true
  /\ nodes (lod_entry camera_origin (lod_config (Some 80)) near_mesh) =
       [(1%nat, phong_mesh {| x := 0; y := 0; z := -5 |} 80 None)].
Proof.
  split; [reflexivity|]. split; [reflexivity|].
  destruct (proj1 (proj2 (proj2
    (lod_entry_outcomes camera_origin (lod_config (Some 80)) near_mesh))) eq_refl eq_refl)
    as [Hvis Hnodes].
  split; [exact Hvis|]. rewrite Hnodes. reflexivity.
Defined.

(** The loop body where an entry stores a baseline shininess of 0: within
    the medium distance the shininess is set to 100, not to the stored 0.
    And where the thresholds are out of order: with [mediumDistance] 100 and
    [farDistance] 2, a node 5 away is within the medium distance and is
    hidden. *)
Lemma zero_baseline_shininess_becomes_100 :
  (distanceTo camera_origin (position (props near_mesh)) <=? mediumDistance (lod_config (Some 0)))
    = true
  /\ originalShininess (lod_config (Some 0)) = Some 0
  /\ nodes (lod_entry camera_origin (lod_config (Some 0)) near_mesh) =
       [(1%nat, phong_mesh {| x := 0; y := 0; z := -5 |} 100 None)]
  /\ (distanceTo camera_origin (position (props near_mesh)) <=? mediumDistance disordered_config)
       = true
  /\ visible (props (lod_entry camera_origin disordered_config near_mesh)) = false.
Proof. repeat split. Qed.

(** *** The two passes of a frame *)

Section Frame.

Variable multiplyMatrices : Matrix4 -> Matrix4 -> Matrix4.
Variable setFromProjectionMatrix : Matrix4 -> Frustum.
Variable applyMatrix4 : Sphere -> Matrix4 -> Sphere.
Variable intersectsSphere : Frustum -> Sphere -> bool.

Lemma updateLOD_keeps (st : Optimizer) :
  camera (updateLOD st) = camera st
  /\ optimizationSettings (updateLOD st) = optimizationSettings st.
Proof.
  unfold updateLOD. destruct (enableLOD (optimizationSettings st)); split; reflexivity.
Qed.

(** C9. [update] is the level-of-detail pass followed by the culling pass.
    With culling enabled and a perspective camera, the nodes of the scene at
    the end of the frame are, one for one in traversal order, the nodes the
    level-of-detail pass left, with the culling callback applied: a mesh
    with a bounding sphere has [visible] equal to the frustum test of its
    world sphere, whatever the level-of-detail pass had set (so a node it
    showed that fails the test ends hidden), and a node that is no mesh or
    has no bounding sphere is exactly as the level-of-detail pass left it.
    The passes are total functions: a missing bounding sphere cannot make
    them fail. *)
Theorem culling_overrides_lod (st : Optimizer) (pos : Vector3) (proj inv : Matrix4) :
  enableFrustumCulling (optimizationSettings st) = true ->
  camera st = PerspectiveCamera pos proj inv ->
  let frustum := setFromProjectionMatrix (multiplyMatrices proj inv) in
  let culled := cull applyMatrix4 intersectsSphere frustum in
  let update := update multiplyMatrices setFromProjectionMatrix applyMatrix4 intersectsSphere in
  update st =
    updateFrustumCulling multiplyMatrices setFromProjectionMatrix applyMatrix4
      intersectsSphere (updateLOD st)
  /\ nodes (scene (update st)) =
       map (fun n => (fst n, culled (snd n))) (nodes (scene (updateLOD st)))
  /\ (forall (o : Object3D) (m : Mesh) (bs : Sphere),
      mesh o = Some m -> boundingSphere m = Some bs ->
      culled o = set_visible (intersectsSphere frustum (applyMatrix4 bs (matrixWorld o))) o
      /\ visible (culled o) = intersectsSphere frustum (applyMatrix4 bs (matrixWorld o))
      /\ (visible o = true ->
          intersectsSphere frustum (applyMatrix4 bs (matrixWorld o)) = false ->
          visible (culled o) = false))
  /\ (forall (o : Object3D),
      mesh o = None \/ (exists m, mesh o = Some m /\ boundingSphere m = None) ->
      culled o = o).
Proof.
  intros Hon Hcam frustum culled upd. split; [reflexivity|]. split; [|split].
  - unfold upd, update, updateFrustumCulling.
    destruct (updateLOD_keeps st) as [-> ->]. rewrite Hon, Hcam. simpl.
    apply nodes_traverse.
  - intros o m bs Hm Hbs. unfold culled, cull. rewrite Hm, Hbs.
    split; [reflexivity|]. split; [reflexivity|]. intros _ Hout. simpl. exact Hout.
  - intros o [Hm|(m & Hm & Hbs)]; unfold culled, cull; rewrite Hm; [|rewrite Hbs];
      reflexivity.
Qed.

End Frame.

(** The level-of-detail pass shows mesh 1, which is behind the camera, and
    the culling pass hides it; mesh 2 has no bounding sphere and stays as it
    was. *)
Lemma culling_overrides_lod_witness :
  enableFrustumCulling (optimizationSettings sample_optimizer) = true
  /\ map (fun n => visible (snd n)) (nodes (scene (updateLOD sample_optimizer))) =
       [true; true; true]
  /\ map (fun n => visible (snd n))
       (nodes (scene (update sample_multiplyMatrices sample_setFromProjectionMatrix
                        sample_applyMatrix4 sample_intersectsSphere sample_optimizer))) =
       [true; false; true].
Proof.
  split; [reflexivity|]. split; [reflexivity|].
  destruct (culling_overrides_lod sample_multiplyMatrices sample_setFromProjectionMatrix
              sample_applyMatrix4 sample_intersectsSphere sample_optimizer
              camera_origin {| elements := [] |} {| elements := [] |} eq_refl eq_refl)
    as (_ & Hnodes & _).
  rewrite Hnodes. reflexivity.
Defined.

(** C8. The code at the failing input. A Phong mesh of shininess 0 is
    registered by [addLODObject] with [originalShininess: 0] and thresholds
    10, 50 and 100; level of detail is enabled, as it is by default, and the
    mesh is 5 units from the camera, within the medium distance. The claim
    has the pass restore the stored baseline, 0. [updateLOD], and with it
    [update], leaves the mesh with a shininess of 100:
    [config.originalShininess || 100] takes the stored 0 for a missing
    value. A stored baseline that is not 0 is restored: 80 gives 80. *)
Lemma updateLOD_replaces_a_zero_baseline :
  let sample_update :=
    update sample_multiplyMatrices sample_setFromProjectionMatrix sample_applyMatrix4
      sample_intersectsSphere in
  let mesh_with (shininess : number) :=
    [(0%nat, AnimationManager.node_at_5);
     (1%nat, phong_mesh {| x := 0; y := 0; z := -5 |} shininess None)] in
  enableLOD (optimizationSettings (matte_optimizer 0)) = true
  /\ lodObjects (matte_optimizer 0) = [(1%nat, lod_config (Some 0))]
  /\ originalShininess (lod_config (Some 0)) = Some 0
  /\ (distanceTo (camera_position (camera (matte_optimizer 0)))
        {| x := 0; y := 0; z := -5 |} <=? mediumDistance (lod_config (Some 0))) = true
  /\ nodes (scene (matte_optimizer 0)) = mesh_with 0
  /\ nodes (scene (updateLOD (matte_optimizer 0))) = mesh_with 100
  /\ nodes (scene (sample_update (matte_optimizer 0))) = mesh_with 100
  /\ nodes (scene (updateLOD (matte_optimizer 80))) = mesh_with 80.
Proof. repeat split. Qed.

End PerformanceOptimizerFacts.

(** ** AnimationManager: the registry as a map, and the life of the loop *)

Module AnimationRegistryFacts.

Import JSNumber NumberFacts THREE AnimationManager AnimationManagerFacts.
#[local] Open Scope nat_scope.

(** *** Keys of the registry *)

Lemma Map_get_keys (id : string) (m : AnimationMap) :
  Map_get id m <> None <-> In id (map fst m).
Proof.
  induction m as [|[k a] m IH]; simpl.
  - split; [congruence | tauto].
  - destruct (String.eqb_spec k id) as [->|Hne].
    + split; [auto | discriminate].
    + rewrite IH. split; [auto | intros [H|H]; [congruence | exact H]].
Qed.

Lemma Map_get_In (id : string) (a : AnimationInstance) (m : AnimationMap) :
  Map_get id m = Some a -> In (id, a) m.
Proof.
  induction m as [|[k a0] m IH]; simpl; [discriminate|].
  destruct (String.eqb_spec k id) as [->|Hne].
  - intros [= ->]. now left.
  - intros H. right. now apply IH.
Qed.

Lemma Map_set_keys (id : string) (a : AnimationInstance) (m : AnimationMap) :
  map fst (Map_set id a m) =
    match Map_get id m with
    | Some _ => map fst m
    | None => map fst m ++ [id]
    end.
Proof.
  induction m as [|[k a0] m IH]; simpl; [reflexivity|].
  destruct (String.eqb k id); simpl; [reflexivity|].
  rewrite IH. now destruct (Map_get id m).
Qed.

Lemma Map_delete_keys (id : string) (m : AnimationMap) :
  map fst (Map_delete id m) = filter (fun k => negb (String.eqb k id)) (map fst m).
Proof.
  induction m as [|[k a0] m IH]; simpl; [reflexivity|].
  destruct (String.eqb k id); simpl; now rewrite IH.
Qed.


Lemma Map_delete_fresh (id : string) (m : AnimationMap) :
  ~ In id (map fst m) -> Map_delete id m = m.
Proof.
  intros H. apply Map_delete_absent.
  destruct (Map_get id m) eqn:E; [|reflexivity].
  exfalso. apply H, Map_get_keys. congruence.
Qed.

Lemma filter_keys_set (id : string) (a : AnimationInstance) (m : AnimationMap) :
  filter (fun k => negb (String.eqb k id)) (map fst (Map_set id a m)) =
  filter (fun k => negb (String.eqb k id)) (map fst m).
Proof.
  rewrite Map_set_keys. destruct (Map_get id m); [reflexivity|].
  rewrite filter_app. simpl. rewrite String.eqb_refl. simpl. apply app_nil_r.
Qed.

Lemma hasAnimation_get (id : string) (w : World) :
  hasAnimation id w = match Map_get id (animations (manager w)) with
                      | Some _ => true | None => false end.
Proof. reflexivity. Qed.

(** X1. Registering and looking up. After [addAnimation id] the id is
    registered and active exactly when [autoStart] is not [false]; an id
    that was already registered keeps its place in the order of the ticks,
    a new one goes last; no other id appears or disappears. Removing the
    id again leaves exactly the other ids that were there before. *)
Theorem registration_lookup (Math_sin : number -> number) (id : string) (object : nat)
    (c : AnimationConfig) (now now' : number) (w : World) :
  let w' := addAnimation Math_sin id object c now now' w in
  hasAnimation id w' = true
  /\ isAnimationActive id w' = autoStart_not_false c
  /\ getAnimationIds w' =
       (if hasAnimation id w then getAnimationIds w else getAnimationIds w ++ [id])
  /\ (forall id', hasAnimation id' w' = if String.eqb id id' then true else hasAnimation id' w)
  /\ (forall id', hasAnimation id' (removeAnimation id w') =
                  if String.eqb id id' then false else hasAnimation id' w)
  /\ getAnimationIds (removeAnimation id w') =
       filter (fun k => negb (String.eqb k id)) (getAnimationIds w).
Proof.
  intros w'.
  assert (Hreg := addAnimation_animations Math_sin id object c now now' w).
  fold w' in Hreg.
  unfold hasAnimation, isAnimationActive, getAnimationIds.
  rewrite !removeAnimation_animations, !Hreg.
  rewrite Map_get_set_same. simpl.
  split; [reflexivity|]. split; [reflexivity|].
  split; [rewrite Map_set_keys; now destruct (Map_get id (animations (manager w)))|].
  split; [|split].
  - intros id'. destruct (String.eqb_spec id id') as [<-|Hne].
    + now rewrite Map_get_set_same.
    + rewrite Map_get_set_other; [reflexivity | now apply String.eqb_neq].
  - intros id'. destruct (String.eqb_spec id id') as [<-|Hne].
    + now rewrite Map_get_delete_same.
    + rewrite Map_get_delete_other, Map_get_set_other;
        [reflexivity | now apply String.eqb_neq | now apply String.eqb_neq].
  - rewrite Map_delete_keys. apply filter_keys_set.
Qed.



(** *** What a tick writes *)

Section Tick.

Variable Math_sin : number -> number.

Lemma update_entry_elsewhere (now : number) (h : Heap) (a : AnimationInstance) (ref : nat) :
  isActive a = false \/ object a <> ref ->
  update_entry Math_sin now h a ref = h ref.
Proof.
  intros H. unfold update_entry. destruct (isActive a); simpl; [|reflexivity].
  destruct H as [H|H]; [discriminate|].
  unfold updateAnimation. apply write_other. congruence.
Qed.

Lemma update_entry_attribute (now : number) (h : Heap) (a : AnimationInstance) (ref : nat)
    (t : AnimationType) :
  isActive a = false \/ object a <> ref \/ same_attribute (type (config a)) t = false ->
  attribute t (update_entry Math_sin now h a ref) = attribute t (h ref).
Proof.
  intros [H|[H|H]].
  - rewrite update_entry_elsewhere; auto.
  - rewrite update_entry_elsewhere; auto.
  - unfold update_entry. destruct (isActive a); simpl; [|reflexivity].
    unfold updateAnimation, write.
    destruct (Nat.eqb ref (object a)) eqn:E; [|reflexivity].
    apply Nat.eqb_eq in E. subst ref.
    destruct (type (config a)), t; try discriminate H; try reflexivity;
      unfold updateGlowAnimation;
      destruct (phong_emissive (h (object a))), (originalEmissive a); try reflexivity;
      simpl; f_equal; apply set_emissive_keeps.
Qed.

Lemma fold_update_attribute (now : number) (t : AnimationType) (ref : nat)
    (m : AnimationMap) (h : Heap) :
  Forall (fun kv => isActive (snd kv) = false \/ object (snd kv) <> ref
                    \/ same_attribute (type (config (snd kv))) t = false) m ->
  attribute t (fold_left (fun h kv => update_entry Math_sin now h (snd kv)) m h ref) =
  attribute t (h ref).
Proof.
  intros H. revert h. induction H as [|kv m Hkv _ IH]; intros h; simpl; [reflexivity|].
  rewrite IH. now apply update_entry_attribute.
Qed.

Lemma fold_update_elsewhere (now : number) (ref : nat) (m : AnimationMap) (h : Heap) :
  (forall id a, In (id, a) m -> isActive a = true -> object a <> ref) ->
  fold_left (fun h kv => update_entry Math_sin now h (snd kv)) m h ref = h ref.
Proof.
  revert h. induction m as [|[k a] m IH]; intros h H; simpl; [reflexivity|].
  rewrite IH.
  - apply update_entry_elsewhere. destruct (isActive a) eqn:E; [right|now left].
    apply (H k a); [now left | exact E].
  - intros id b Hin. apply (H id b). now right.
Qed.

Lemma fold_update_untouched (now : number) (ref : nat) (m : AnimationMap) (h : Heap) :
  untouched (fold_left (fun h kv => update_entry Math_sin now h (snd kv)) m h ref) =
  untouched (h ref).
Proof.
  revert h. induction m as [|kv m IH]; intros h; simpl; [reflexivity|].
  rewrite IH. apply untouched_update_entry.
Qed.

(** The attribute an active instance writes depends on the node only
    through what no animation writes. *)
Lemma update_entry_own_attribute (now : number) (h h' : Heap) (a : AnimationInstance) :
  isActive a = true ->
  untouched (h (object a)) = untouched (h' (object a)) ->
  (type (config a) = GLOW -> originalEmissive a <> None) ->
  attribute (type (config a)) (update_entry Math_sin now h a (object a)) =
  attribute (type (config a)) (update_entry Math_sin now h' a (object a)).
Proof.
  intros Hact Hu Hglow. unfold update_entry. rewrite Hact. simpl.
  unfold updateAnimation. rewrite !write_same.
  destruct (type (config a)) eqn:Et; try reflexivity.
  unfold updateGlowAnimation.
  destruct (originalEmissive a) as [e|]; [|now elim Hglow].
  assert (Hp := untouched_phong _ _ Hu).
  destruct (phong_emissive (h (object a))) as [c|] eqn:E1,
           (phong_emissive (h' (object a))) as [c'|] eqn:E2.
  - simpl. f_equal. rewrite !set_emissive_phong; congruence.
  - exfalso. destruct Hp as [_ Hp]. specialize (Hp eq_refl). discriminate.
  - exfalso. destruct Hp as [Hp _]. specialize (Hp eq_refl). discriminate.
  - simpl. congruence.
Qed.

End Tick.

(** X3. A tick writes only to the nodes of active instances. Of a node
    that no active instance refers to, a tick leaves the position, the
    rotation, the scale, the visibility, the world matrix, the shininess,
    the shadow flag and the bounding sphere as they were, whether the tick
    is the first one (run by [start]) or a later frame: a paused instance
    leaves its node alone. The emissive colour is the material's, and a
    material can be one that the mesh of an active Glow instance uses too:
    when no active instance is a Glow, the node is the same after the tick
    in that as well. *)
Theorem tick_writes_only_active_nodes (Math_sin : number -> number) (now : number)
    (w : World) (ref : nat) :
  (forall id a, In (id, a) (animations (manager w)) -> isActive a = true -> object a <> ref) ->
  (but_emissive (heap (update Math_sin now w) ref) = but_emissive (heap w ref)
   /\ but_emissive (heap (frame Math_sin now w) ref) = but_emissive (heap w ref)
   /\ but_emissive (heap (start Math_sin now w) ref) = but_emissive (heap w ref))
  /\ ((forall id a, In (id, a) (animations (manager w)) -> isActive a = true ->
                    type (config a) <> GLOW) ->
      heap (update Math_sin now w) ref = heap w ref
      /\ heap (frame Math_sin now w) ref = heap w ref
      /\ heap (start Math_sin now w) ref = heap w ref).
Proof.
  intros H.
  assert (Hu : forall w0, animations (manager w0) = animations (manager w) ->
                          heap w0 = heap w ->
                          heap (update Math_sin now w0) ref = heap w ref).
  { intros w0 Hm Hh. unfold update. destruct (isRunning (manager w0)); simpl.
    - rewrite Hm, Hh. now apply fold_update_elsewhere.
    - now rewrite Hh. }
  assert (Hall : heap (update Math_sin now w) ref = heap w ref
                 /\ heap (frame Math_sin now w) ref = heap w ref
                 /\ heap (start Math_sin now w) ref = heap w ref).
  { split; [now apply Hu|]. split.
    - unfold frame. destruct (scheduled (manager w)); [reflexivity|]. now apply Hu.
    - unfold start. destruct (isRunning (manager w)); [reflexivity|]. now apply Hu. }
  destruct Hall as (H1 & H2 & H3).
  split; [now rewrite H1, H2, H3 | auto].
Qed.

(** The flute's node 1 is animated by a Float and a Glow instance; node 0 is
    not animated. And a scene whose only instance is paused. *)
Lemma tick_writes_only_active_nodes_witness :
  (forall id a, In (id, a) (animations (manager flute_world)) ->
                isActive a = true -> object a <> 0)
  /\ but_emissive (heap (frame sample_sin 1%float flute_world) 0) =
     but_emissive (heap flute_world 0)
  /\ (forall id a, In (id, a) (animations (manager (pauseAnimation "a" one_float))) ->
                isActive a = true -> object a <> 0)
  /\ (forall id a, In (id, a) (animations (manager (pauseAnimation "a" one_float))) ->
                isActive a = true -> type (config a) <> GLOW)
  /\ heap (frame sample_sin 1%float (pauseAnimation "a" one_float)) 0 =
     heap (pauseAnimation "a" one_float) 0.
Proof.
  assert (Hflute : forall id a, In (id, a) (animations (manager flute_world)) ->
                     isActive a = true -> object a <> 0).
  { intros id a Hin _. vm_compute in Hin.
    destruct Hin as [Hin|[Hin|[]]]; inversion Hin; subst; discriminate. }
  assert (H : forall id a, In (id, a) (animations (manager (pauseAnimation "a" one_float))) ->
                isActive a = true -> object a <> 0).
  { intros id a [Hin|[]] Hact. inversion Hin; subst. discriminate Hact. }
  assert (Hglow : forall id a,
             In (id, a) (animations (manager (pauseAnimation "a" one_float))) ->
             isActive a = true -> type (config a) <> GLOW).
  { intros id a [Hin|[]] Hact. inversion Hin; subst. discriminate Hact. }
  split; [exact Hflute|].
  split; [exact (proj1 (proj2 (proj1 (tick_writes_only_active_nodes sample_sin 1%float
                                        flute_world 0 Hflute))))|].
  split; [exact H|]. split; [exact Hglow|].
  exact (proj1 (proj2 (proj2 (tick_writes_only_active_nodes sample_sin 1%float
                                (pauseAnimation "a" one_float) 0 H) Hglow))).
Defined.

(** X4. Each kind of animation writes one attribute of its node. A
    tick of an active instance sets, on the node the instance refers to: for
    Float the position to the baseline position with [sin(progress * 2 pi) *
    amplitude] added to its height; for Bounce the position to the baseline
    with [4 b (1 - b) * amplitude] added to its height, [b] being twice the
    progress, folded back at 1; for Rotate the rotation to the baseline with
    [elapsed * speed] added about the vertical axis; for Pulse the scale to
    the baseline times [1 + sin(progress * 2 pi) * amplitude]; for Glow, on
    a Phong mesh, the emissive colour to the baseline colour times
    [(sin(progress * 2 pi) + 1) / 2 * amplitude]. The amplitude and speed
    left out or given as 0 or NaN count as 1, 2, 1, 0.2 and 0.3 in that
    order. The
    tick leaves every other one of these attributes of every node as it
    was, and never touches visibility, world matrix, shininess, shadow flag
    or bounding sphere; a Glow instance on a node that is not a Phong mesh,
    or registered when it was not, writes nothing at all. *)
Theorem kinds_write_separate_attributes (Math_sin : number -> number) (now : number)
    (h : Heap) (a : AnimationInstance) (ref : nat) :
  (isActive a = true ->
   let elapsed := (now - startTime a)%float in
   let progress := (js_rem elapsed (duration (config a)) / duration (config a))%float in
   let wave := Math_sin (progress * PI * 2)%float in
   let fold := (if gt (progress * 2) 1 then 2 - progress * 2 else progress * 2)%float in
   let o := update_entry Math_sin now h a (object a) in
   match type (config a) with
   | FLOAT =>
       position o =
         {| x := x (originalPosition a);
            y := (y (originalPosition a) + wave * or_default (amplitude (config a)) 1)%float;
            z := z (originalPosition a) |}
   | BOUNCE =>
       position o =
         {| x := x (originalPosition a);
            y := (y (originalPosition a)
                  + 4 * fold * (1 - fold) * or_default (amplitude (config a)) 2)%float;
            z := z (originalPosition a) |}
   | ROTATE =>
       rotation o =
         {| ex := ex (originalRotation a);
            ey := (ey (originalRotation a) + elapsed * or_default (speed (config a)) 1)%float;
            ez := ez (originalRotation a) |}
   | PULSE =>
       scale o =
         multiplyScalar (originalScale a)
           (1 + wave * or_default (amplitude (config a)) 0x1.999999999999ap-3)%float
   | GLOW =>
       forall e, originalEmissive a = Some e -> phong_emissive (h (object a)) <> None ->
         phong_emissive o =
           Some (Color_multiplyScalar e
                   ((wave + 1) * 0.5
                    * or_default (amplitude (config a)) 0x1.3333333333333p-2)%float)
   end)
  /\ (forall t, same_attribute (type (config a)) t = false ->
     attribute t (update_entry Math_sin now h a ref) = attribute t (h ref))
  /\ untouched (update_entry Math_sin now h a ref) = untouched (h ref)
  /\ (type (config a) = GLOW ->
      phong_emissive (h (object a)) = None \/ originalEmissive a = None ->
      update_entry Math_sin now h a ref = h ref).
Proof.
  split; [|split; [|split]].
  - intros Hact. unfold update_entry. rewrite Hact. simpl.
    unfold updateAnimation. rewrite write_same.
    destruct (type (config a)); try reflexivity.
    intros e He Hphong. unfold updateGlowAnimation. rewrite He.
    destruct (phong_emissive (h (object a))) eqn:E; [|now elim Hphong].
    apply set_emissive_phong. congruence.
  - intros t Ht. apply update_entry_attribute. auto.
  - apply untouched_update_entry.
  - intros Hg Hnone. unfold update_entry. destruct (isActive a); simpl; [|reflexivity].
    unfold updateAnimation, write.
    destruct (Nat.eqb ref (object a)) eqn:E; [|reflexivity].
    apply Nat.eqb_eq in E. subst ref. rewrite Hg. unfold updateGlowAnimation.
    destruct Hnone as [-> | ->]; [reflexivity|].
    now destruct (phong_emissive (h (object a))).
Qed.

(** The Rotate instance of speed 2 on node 0, three seconds after its
    start: the rotation is written, the position is not. *)
Lemma kinds_write_separate_attributes_witness :
  isActive spinning = true
  /\ rotation (update_entry sample_sin 3%float sample_heap spinning 0) =
     {| ex := 0%float; ey := 6%float; ez := 0%float |}
  /\ same_attribute (type (config spinning)) FLOAT = false
  /\ attribute FLOAT (update_entry sample_sin 3%float sample_heap spinning 0) =
     attribute FLOAT (sample_heap 0).
Proof.
  destruct (kinds_write_separate_attributes sample_sin 3%float sample_heap spinning 0)
    as (Hwrites & Hkeeps & _).
  split; [reflexivity|].
  split; [exact (Hwrites eq_refl)|].
  split; [reflexivity | exact (Hkeeps FLOAT eq_refl)].
Defined.

(** X5. When several active instances animate the same attribute of the
    same node, the one that comes last in the order of the registry decides
    it (the order of the ticks: an id keeps the place of its first
    registration when it is registered again). After a tick the attribute
    has the value that instance's waveform gives from its own baseline, as
    if the instance had been ticked alone. The instances after it in the
    registry may be paused, or write another attribute, or, for position,
    rotation and scale, refer to another node; the emissive colour is the
    material's, which another mesh may use too, so for a Glow instance none
    of the instances after it may be an active Glow, on whatever node. *)
Theorem last_entry_decides_its_attribute (Math_sin : number -> number) (now : number)
    (w : World) (before after : AnimationMap) (id : string) (a : AnimationInstance) :
  isRunning (manager w) = true ->
  animations (manager w) = before ++ (id, a) :: after ->
  isActive a = true ->
  (type (config a) = GLOW -> originalEmissive a <> None) ->
  Forall (fun kv => isActive (snd kv) = false
                    \/ same_attribute (type (config (snd kv))) (type (config a)) = false
                    \/ (type (config a) <> GLOW /\ object (snd kv) <> object a))
         after ->
  attribute (type (config a)) (heap (update Math_sin now w) (object a)) =
  attribute (type (config a)) (update_entry Math_sin now (heap w) a (object a)).
Proof.
  intros Hrun Hm Hact Hglow Hafter.
  unfold update. rewrite Hrun. simpl. rewrite Hm, fold_left_app. simpl.
  rewrite fold_update_attribute.
  - apply update_entry_own_attribute; auto. apply fold_update_untouched.
  - eapply Forall_impl; [|exact Hafter]. simpl. intros kv [H|[H|[_ H]]]; auto.
Qed.

Lemma last_entry_decides_its_attribute_witness :
  isRunning (manager float_then_bounce) = true
  /\ animations (manager float_then_bounce) =
       firstn 1 (animations (manager float_then_bounce)) ++ [("b"%string, bounce_instance)]
  /\ attribute BOUNCE (heap (update sample_sin 0.25%float float_then_bounce) 0) =
       Position {| x := 0%float; y := 6%float; z := 0%float |}.
Proof.
  assert (Hm : animations (manager float_then_bounce) =
               firstn 1 (animations (manager float_then_bounce))
               ++ [("b"%string, bounce_instance)]) by (vm_compute; reflexivity).
  split; [reflexivity|]. split; [exact Hm|].
  refine (eq_trans
            (last_entry_decides_its_attribute sample_sin 0.25%float float_then_bounce
               (firstn 1 (animations (manager float_then_bounce))) [] "b" bounce_instance
               eq_refl Hm eq_refl _ (Forall_nil _)) _).
  - discriminate.
  - vm_compute. reflexivity.
Defined.

(** *** Swapping one animation for another *)

(** X6. Replacing an animation, as the hover callbacks of the exhibits do
    (src/main.ts: [removeAnimation] of one id, then [addAnimation] of
    another on the same node). The new instance inherits the baseline of
    the one it replaces: position, rotation and scale always, the emissive
    colour when the node is a Phong mesh and the old instance held one. The
    node is a Phong mesh afterwards if it was before, so the next swap
    inherits in the same way: the hover and its end hand the baseline on
    without drift. *)
Theorem swap_inherits_baseline (Math_sin : number -> number) (id id' : string)
    (a : AnimationInstance) (c : AnimationConfig) (now now' : number) (w : World) :
  Map_get id (animations (manager w)) = Some a ->
  let w' := addAnimation Math_sin id' (object a) c now now' (removeAnimation id w) in
  exists a',
    Map_get id' (animations (manager w')) = Some a'
    /\ object a' = object a
    /\ originalPosition a' = originalPosition a
    /\ originalRotation a' = originalRotation a
    /\ originalScale a' = originalScale a
    /\ (phong_emissive (heap w (object a)) <> None -> originalEmissive a <> None ->
        originalEmissive a' = originalEmissive a)
    /\ (phong_emissive (heap w (object a)) <> None ->
        phong_emissive (heap w' (object a)) <> None)
    /\ hasAnimation id w' = String.eqb id' id.
Proof.
  intros Ha w'.
  assert (Hreg := addAnimation_animations Math_sin id' (object a) c now now'
                    (removeAnimation id w)).
  fold w' in Hreg.
  destruct (removeAnimation_restores id a w Ha) as [Hheap Hgone].
  destruct (restore_attributes a (heap w (object a))) as (Hp & Hr & Hs & He).
  eexists. split; [rewrite Hreg; apply Map_get_set_same|]. simpl.
  rewrite Hheap, Hp, Hr, Hs.
  repeat (split; [reflexivity|]).
  split; [|split].
  - intros Hphong Horig. destruct (originalEmissive a) as [e|]; [|now elim Horig].
    now apply He.
  - intros Hphong Hnone. apply Hphong.
    assert (Hu : untouched (heap w' (object a)) = untouched (heap w (object a))).
    { exact (eq_trans
               (untouched_step Math_sin (removeAnimation id w)
                  (OpAdd id' (object a) c now now') (object a))
               (untouched_step Math_sin w (OpRemove id) (object a))). }
    now apply (untouched_phong _ _ Hu).
  - unfold hasAnimation. rewrite Hreg.
    destruct (String.eqb_spec id' id) as [->|Hne].
    + now rewrite Map_get_set_same.
    + rewrite Map_get_set_other by now apply String.eqb_neq.
      unfold hasAnimation in Hgone. exact Hgone.
Qed.

Lemma swap_inherits_baseline_witness :
  Map_get "flute_glow" (animations (manager flute_world)) <> None
  /\ exists a',
       Map_get "flute_glow_hover"
         (animations (manager
            (addAnimation sample_sin "flute_glow_hover" 1 glow_hover_config 3%float 3%float
               (removeAnimation "flute_glow" flute_world)))) = Some a'
       /\ originalPosition a' = position jade_mesh
       /\ originalEmissive a' = Some jade.
Proof.
  destruct (Map_get "flute_glow" (animations (manager flute_world))) as [a|] eqn:Ha;
    [|vm_compute in Ha; discriminate].
  split; [discriminate|].
  assert (Hobj : object a = 1) by (vm_compute in Ha; now inversion Ha).
  assert (Hpos : originalPosition a = position jade_mesh)
    by (vm_compute in Ha; now inversion Ha).
  assert (Hem : originalEmissive a = Some jade) by (vm_compute in Ha; now inversion Ha).
  destruct (swap_inherits_baseline sample_sin "flute_glow" "flute_glow_hover" a
              glow_hover_config 3%float 3%float flute_world Ha)
    as (a' & Hget & _ & Hp & _ & _ & He & _ & _).
  rewrite Hobj in Hget. exists a'. split; [exact Hget|].
  split; [congruence|].
  rewrite He; [exact Hem | rewrite Hobj; vm_compute; discriminate | congruence].
Defined.

(** *** Clearing the registry *)

Lemma fold_remove_animations (l : list string) (w : World) :
  animations (manager (fold_left (fun w id => removeAnimation id w) l w)) =
  fold_left (fun m id => Map_delete id m) l (animations (manager w)).
Proof.
  revert w. induction l as [|id l IH]; intros w; simpl; [reflexivity|].
  now rewrite IH, removeAnimation_animations.
Qed.

Lemma delete_all_covering (l : list string) (m : AnimationMap) :
  incl (map fst m) l -> fold_left (fun m id => Map_delete id m) l m = [].
Proof.
  revert m. induction l as [|k l IH]; intros m H; simpl.
  - destruct m as [|[k a] m]; [reflexivity|]. elim (H k). now left.
  - apply IH. intros x Hx. rewrite Map_delete_keys in Hx.
    apply filter_In in Hx. destruct Hx as [Hx Hne].
    destruct (H x Hx) as [->|Hin]; [|exact Hin].
    now rewrite String.eqb_refl in Hne.
Qed.

Lemma delete_all_prefix (l r : AnimationMap) :
  NoDup (map fst (l ++ r)) ->
  fold_left (fun m id => Map_delete id m) (map fst l) (l ++ r) = r.
Proof.
  induction l as [|[k a] l IH]; intros H; simpl; [reflexivity|].
  simpl in H. inversion H as [|? ? Hnotin Hnodup]; subst.
  unfold Map_delete at 2. simpl. rewrite String.eqb_refl. simpl.
  change (filter (fun kv => negb (String.eqb (fst kv) k)) (l ++ r))
    with (Map_delete k (l ++ r)).
  rewrite Map_delete_fresh by exact Hnotin. now apply IH.
Qed.

Lemma removeAnimation_scheduled (id : string) (w : World) :
  scheduled (manager (removeAnimation id w)) = scheduled (manager w).
Proof.
  unfold removeAnimation.
  destruct (Map_get id (animations (manager w))); simpl;
    match goal with |- context [if ?c then _ else _] => destruct c end; reflexivity.
Qed.

Lemma removeAnimation_heap_other (id : string) (w : World) (ref : nat) :
  (forall a, Map_get id (animations (manager w)) = Some a -> object a <> ref) ->
  heap (removeAnimation id w) ref = heap w ref.
Proof.
  intros H. unfold removeAnimation.
  destruct (Map_get id (animations (manager w))) as [a|]; simpl.
  - match goal with |- context [if ?c then _ else _] => destruct c end; simpl;
      apply write_other; intros E; now apply (H a eq_refl).
  - match goal with |- context [if ?c then _ else _] => destruct c end; reflexivity.
Qed.

Lemma fold_remove_scheduled (l : list string) (w : World) :
  scheduled (manager (fold_left (fun w id => removeAnimation id w) l w)) =
  scheduled (manager w).
Proof.
  revert w. induction l as [|id l IH]; intros w; simpl; [reflexivity|].
  now rewrite IH, removeAnimation_scheduled.
Qed.

Lemma fold_remove_heap_other (l : list string) (w : World) (ref : nat) :
  (forall id a, In (id, a) (animations (manager w)) -> object a <> ref) ->
  heap (fold_left (fun w id => removeAnimation id w) l w) ref = heap w ref.
Proof.
  revert w. induction l as [|k l IH]; intros w H; simpl; [reflexivity|].
  rewrite IH.
  - apply removeAnimation_heap_other. intros a Ha. apply (H k a). now apply Map_get_In.
  - intros id a Hin. rewrite removeAnimation_animations in Hin.
    apply filter_In in Hin. now apply (H id a).
Qed.

Lemma fold_remove_isRunning (l : list string) (w : World) :
  l <> [] ->
  animations (manager (fold_left (fun w id => removeAnimation id w) l w)) = [] ->
  isRunning (manager (fold_left (fun w id => removeAnimation id w) l w)) = false.
Proof.
  intros Hl. destruct (exists_last Hl) as (l0 & k & ->).
  rewrite fold_left_app. simpl. intros Hnil.
  rewrite removeAnimation_isRunning, Hnil. reflexivity.
Qed.

(** The ids of the registry are distinct in every world that the calls of
    the class lead to from a fresh manager. *)
Lemma Map_set_distinct (id : string) (a : AnimationInstance) (m : AnimationMap) :
  NoDup (map fst m) -> NoDup (map fst (Map_set id a m)).
Proof.
  intros H. rewrite Map_set_keys. destruct (Map_get id m) eqn:E; [exact H|].
  apply NoDup_app; [exact H | repeat constructor; simpl; tauto |].
  intros k Hk [<-|[]]. apply Map_get_keys in Hk. congruence.
Qed.

Lemma Map_delete_distinct (id : string) (m : AnimationMap) :
  NoDup (map fst m) -> NoDup (map fst (Map_delete id m)).
Proof. intros H. rewrite Map_delete_keys. now apply NoDup_filter. Qed.

Lemma invoke_distinct (Math_sin : number -> number) (w : World) (i : Invocation) :
  NoDup (getAnimationIds w) -> NoDup (getAnimationIds (invoke Math_sin w i)).
Proof.
  unfold getAnimationIds. intros H.
  destruct i as [[id object c now now'|id|id now now'|id|now]|now| | |]; simpl.
  - rewrite addAnimation_animations. now apply Map_set_distinct.
  - rewrite removeAnimation_animations. now apply Map_delete_distinct.
  - destruct (Map_get id (animations (manager w))) as [a|] eqn:E.
    + rewrite (playAnimation_animations Math_sin id now now' w a E).
      now apply Map_set_distinct.
    + now rewrite playAnimation_absent.
  - unfold pauseAnimation. destruct (Map_get id (animations (manager w))); [|exact H].
    simpl. now apply Map_set_distinct.
  - now rewrite frame_animations.
  - now rewrite start_animations.
  - exact H.
  - unfold clearAll. rewrite fold_remove_animations.
    rewrite delete_all_covering by apply incl_refl. constructor.
  - unfold dispose, clearAll. simpl. rewrite fold_remove_animations.
    rewrite delete_all_covering by apply incl_refl. constructor.
Qed.

Lemma reachable_ids_are_distinct (Math_sin : number -> number) (l : list Invocation)
    (h : Heap) :
  NoDup (getAnimationIds (invoke_all Math_sin l (fresh h))).
Proof.
  assert (H : forall w, NoDup (getAnimationIds w) ->
                        NoDup (getAnimationIds (invoke_all Math_sin l w))).
  { induction l as [|i l IH]; intros w Hw; simpl; [exact Hw|].
    apply IH. now apply invoke_distinct. }
  apply H. constructor.
Qed.

(** X7. [clearAll] and [dispose]. [clearAll] unregisters every instance:
    the registry ends empty and, unless it was empty already, the loop is
    stopped; [dispose] does the same and always clears the running flag. A
    callback already waiting for a frame is not cancelled. Of a node that no
    instance refers to, the position, rotation, scale, visibility, world
    matrix, shininess, shadow flag and bounding sphere are not written; nor
    is its emissive colour (which is the material's, and the material may
    be one that an animated mesh uses too) when no instance holds an
    emissive baseline. A node that instances refer to ends on the baseline
    position, rotation and scale of the one among them that comes last in
    the order of the registry, in which an id registered again keeps the
    place of its first registration: that need be neither the instance
    registered last nor where the node was before any of them was
    registered. (The ids are distinct in every reachable world:
    [reachable_ids_are_distinct].) *)
Theorem clearAll_restores_and_empties (w : World) :
  NoDup (getAnimationIds w) ->
  animations (manager (clearAll w)) = []
  /\ (animations (manager w) <> [] -> isRunning (manager (clearAll w)) = false)
  /\ animations (manager (dispose w)) = []
  /\ isRunning (manager (dispose w)) = false
  /\ heap (dispose w) = heap (clearAll w)
  /\ scheduled (manager (dispose w)) = scheduled (manager w)
  /\ (forall ref,
        (forall id a, In (id, a) (animations (manager w)) -> object a <> ref) ->
        but_emissive (heap (clearAll w) ref) = but_emissive (heap w ref)
        /\ ((forall id a, In (id, a) (animations (manager w)) -> originalEmissive a = None) ->
            heap (clearAll w) ref = heap w ref))
  /\ (forall before id a after,
        animations (manager w) = before ++ (id, a) :: after ->
        Forall (fun kv => object (snd kv) <> object a) after ->
        position (heap (clearAll w) (object a)) = originalPosition a
        /\ rotation (heap (clearAll w) (object a)) = originalRotation a
        /\ scale (heap (clearAll w) (object a)) = originalScale a).
Proof.
  intros Hnodup.
  assert (Hempty : animations (manager (clearAll w)) = []).
  { unfold clearAll. rewrite fold_remove_animations.
    apply delete_all_covering. unfold getAnimationIds. apply incl_refl. }
  split; [exact Hempty|].
  split.
  { intros Hne. apply fold_remove_isRunning; [|exact Hempty].
    unfold getAnimationIds. destruct (animations (manager w)); [now elim Hne | discriminate]. }
  split; [exact Hempty|].
  split; [reflexivity|].
  split; [reflexivity|].
  split; [apply fold_remove_scheduled|].
  split.
  { intros ref H.
    assert (Heq : heap (clearAll w) ref = heap w ref) by now apply fold_remove_heap_other.
    split; [now rewrite Heq | intros _; exact Heq]. }
  intros before id a after Hm Hafter.
  unfold clearAll, getAnimationIds in *. rewrite Hm in *.
  rewrite map_app, fold_left_app. simpl.
  set (w1 := fold_left (fun w id => removeAnimation id w) (map fst before) w).
  assert (Hw1 : animations (manager w1) = (id, a) :: after).
  { unfold w1. rewrite fold_remove_animations, Hm. now apply delete_all_prefix. }
  assert (Hget : Map_get id (animations (manager w1)) = Some a).
  { rewrite Hw1. simpl. now rewrite String.eqb_refl. }
  destruct (removeAnimation_restores id a w1 Hget) as [Hheap _].
  destruct (restore_attributes a (heap w1 (object a))) as (Hp & Hr & Hs & _).
  rewrite fold_remove_heap_other.
  - rewrite Hheap. auto.
  - intros k b Hin. rewrite removeAnimation_animations, Hw1 in Hin.
    apply filter_In in Hin. destruct Hin as [[Heq|Hin] Hne].
    + inversion Heq; subst. simpl in Hne. now rewrite String.eqb_refl in Hne.
    + rewrite Forall_forall in Hafter. exact (Hafter _ Hin).
Qed.

(** The flute, whose Glow animation was registered while its Float
    animation held it half a unit up: [clearAll] leaves it there. And node
    0, on which "a" was registered again after "b": [clearAll] leaves it on
    the baseline of "b", which is last in the registry. *)
Lemma clearAll_restores_and_empties_witness :
  NoDup (getAnimationIds drifted_world)
  /\ y (position (jade_heap 1)) = 2%float
  /\ animations (manager (clearAll drifted_world)) = []
  /\ isRunning (manager (clearAll drifted_world)) = false
  /\ y (position (heap (clearAll drifted_world) 1)) = 2.5%float
  /\ NoDup (getAnimationIds reregistered_world)
  /\ getAnimationIds reregistered_world = ["a"; "b"]%string
  /\ map (fun kv => y (originalPosition (snd kv))) (animations (manager reregistered_world))
     = [8; 7]%float
  /\ y (position (heap (clearAll reregistered_world) 0)) = 7%float.
Proof.
  assert (Hn : NoDup (getAnimationIds drifted_world)).
  { vm_compute. repeat constructor; simpl; intuition discriminate. }
  destruct (clearAll_restores_and_empties drifted_world Hn)
    as (H1 & H2 & _ & _ & _ & _ & _ & H8).
  split; [exact Hn|]. split; [reflexivity|]. split; [exact H1|].
  split; [apply H2; vm_compute; discriminate|].
  split.
  { pose (m := animations (manager drifted_world)).
    pose (a := nth 1 (map snd m) spinning).
    assert (Hm : m = firstn 1 m ++ ("flute_glow"%string, a) :: [])
      by (vm_compute; reflexivity).
    destruct (H8 (firstn 1 m) "flute_glow"%string a [] Hm (Forall_nil _)) as (Hp & _).
    refine (eq_trans (f_equal y Hp) _). vm_compute. reflexivity. }
  assert (Hn' : NoDup (getAnimationIds reregistered_world)).
  { vm_compute. repeat constructor; simpl; intuition discriminate. }
  destruct (clearAll_restores_and_empties reregistered_world Hn')
    as (_ & _ & _ & _ & _ & _ & _ & H8').
  split; [exact Hn'|]. split; [vm_compute; reflexivity|]. split; [vm_compute; reflexivity|].
  pose (m := animations (manager reregistered_world)).
  pose (b := nth 1 (map snd m) spinning).
  assert (Hm : m = firstn 1 m ++ ("b"%string, b) :: []) by (vm_compute; reflexivity).
  destruct (H8' (firstn 1 m) "b"%string b [] Hm (Forall_nil _)) as (Hp & _).
  refine (eq_trans (f_equal y Hp) _). vm_compute. reflexivity.
Defined.

(** *** The life of the loop *)

Section LoopLife.

Variable Math_sin : number -> number.

Lemma update_alive (now : number) (w : World) :
  isRunning (manager (update Math_sin now w)) = true ->
  0 < scheduled (manager (update Math_sin now w)).
Proof.
  unfold update. destruct (isRunning (manager w)) eqn:E; simpl; [lia | congruence].
Qed.

Lemma start_alive (now : number) (w : World) :
  (isRunning (manager w) = true -> 0 < scheduled (manager w)) ->
  isRunning (manager (start Math_sin now w)) = true ->
  0 < scheduled (manager (start Math_sin now w)).
Proof.
  intros H. unfold start. destruct (isRunning (manager w)) eqn:E; [now rewrite E|].
  apply update_alive.
Qed.

Lemma removeAnimation_alive (id : string) (w : World) :
  (isRunning (manager w) = true -> 0 < scheduled (manager w)) ->
  isRunning (manager (removeAnimation id w)) = true ->
  0 < scheduled (manager (removeAnimation id w)).
Proof.
  intros H. rewrite removeAnimation_scheduled, removeAnimation_isRunning.
  destruct (Nat.eqb _ 0); [discriminate | exact H].
Qed.

Lemma step_alive (w : World) (op : Op) :
  (isRunning (manager w) = true -> 0 < scheduled (manager w)) ->
  isRunning (manager (step Math_sin w op)) = true ->
  0 < scheduled (manager (step Math_sin w op)).
Proof.
  intros H. destruct op as [id object c now now'|id|id now now'|id|now]; simpl.
  - unfold addAnimation.
    match goal with |- context [if ?c then _ else _] => destruct c end;
      [apply start_alive|]; exact H.
  - now apply removeAnimation_alive.
  - unfold playAnimation. destruct (Map_get id (animations (manager w))); [|exact H].
    match goal with |- context [if ?c then _ else _] => destruct c end;
      [apply start_alive|]; exact H.
  - unfold pauseAnimation. destruct (Map_get id (animations (manager w))); exact H.
  - unfold frame. destruct (scheduled (manager w)) eqn:E; [now rewrite E|].
    apply update_alive.
Qed.

Lemma fold_remove_alive (l : list string) (w : World) :
  (isRunning (manager w) = true -> 0 < scheduled (manager w)) ->
  isRunning (manager (fold_left (fun w id => removeAnimation id w) l w)) = true ->
  0 < scheduled (manager (fold_left (fun w id => removeAnimation id w) l w)).
Proof.
  revert w. induction l as [|id l IH]; intros w H; simpl; [exact H|].
  apply IH. now apply removeAnimation_alive.
Qed.

Lemma invoke_alive (w : World) (i : Invocation) :
  (isRunning (manager w) = true -> 0 < scheduled (manager w)) ->
  isRunning (manager (invoke Math_sin w i)) = true ->
  0 < scheduled (manager (invoke Math_sin w i)).
Proof.
  intros H. destruct i as [op|now| | |]; simpl.
  - now apply step_alive.
  - now apply start_alive.
  - discriminate.
  - now apply fold_remove_alive.
  - discriminate.
Qed.

Lemma invoke_all_alive (l : list Invocation) (w : World) :
  (isRunning (manager w) = true -> 0 < scheduled (manager w)) ->
  isRunning (manager (invoke_all Math_sin l w)) = true ->
  0 < scheduled (manager (invoke_all Math_sin l w)).
Proof.
  revert w. induction l as [|i l IH]; intros w H; simpl; [exact H|].
  apply IH. now apply invoke_alive.
Qed.

Lemma frames_keep_loop (times : list number) (w : World) :
  isRunning (manager w) = true -> 0 < scheduled (manager w) ->
  isRunning (manager (run Math_sin (frames times) w)) = true
  /\ scheduled (manager (run Math_sin (frames times) w)) = scheduled (manager w).
Proof.
  revert w. induction times as [|t times IH]; intros w Hrun Hs; simpl; [auto|].
  assert (Hf : isRunning (manager (frame Math_sin t w)) = true
               /\ scheduled (manager (frame Math_sin t w)) = scheduled (manager w)).
  { unfold frame. destruct (scheduled (manager w)) as [|n] eqn:E; [lia|].
    unfold update. simpl. rewrite Hrun. simpl. auto. }
  destruct Hf as [Hrun' Hs'].
  destruct (IH (frame Math_sin t w) Hrun' ltac:(lia)) as [H1 H2].
  unfold run in *. split; [exact H1 | congruence].
Qed.

Lemma frames_keep_registry (times : list number) (w : World) :
  animations (manager (run Math_sin (frames times) w)) = animations (manager w).
Proof.
  revert w. induction times as [|t times IH]; intros w; simpl; [reflexivity|].
  unfold run in *. rewrite IH. apply frame_animations.
Qed.

End LoopLife.

(** X8. The loop is cancelled cooperatively and never dies while it is
    meant to run. Once the running flag is cleared, the callback that is
    still waiting for a frame writes no node and requests no further frame
    when it runs. While the flag is set, every frame requests exactly one
    frame in its turn. After any sequence of calls on a fresh manager
    (register, unregister, play, pause, start, stop, clearAll, dispose and
    frames), a set running flag always comes with a callback waiting. *)
Theorem loop_is_cancelled_cooperatively (Math_sin : number -> number) :
  (forall now w, isRunning (manager w) = false ->
     heap (frame Math_sin now w) = heap w
     /\ manager (frame Math_sin now w) =
        {| animations := animations (manager w); isRunning := false;
           scheduled := pred (scheduled (manager w)) |})
  /\ (forall now w, isRunning (manager w) = true -> 0 < scheduled (manager w) ->
     isRunning (manager (frame Math_sin now w)) = true
     /\ scheduled (manager (frame Math_sin now w)) = scheduled (manager w))
  /\ (forall l h, isRunning (manager (invoke_all Math_sin l (fresh h))) = true ->
     0 < scheduled (manager (invoke_all Math_sin l (fresh h)))).
Proof.
  split; [|split].
  - intros now w Hrun. unfold frame. destruct w as [h [m r s]]. simpl in *. subst r.
    destruct s as [|n]; simpl; [auto|]. unfold update. simpl. auto.
  - intros now w Hrun Hs. exact (frames_keep_loop Math_sin [now] w Hrun Hs).
  - intros l h. apply invoke_all_alive. discriminate.
Qed.

Lemma loop_is_cancelled_cooperatively_witness :
  isRunning (manager (stop one_float)) = false
  /\ scheduled (manager (stop one_float)) = 1
  /\ scheduled (manager (frame sample_sin 1%float (stop one_float))) = 0
  /\ heap (frame sample_sin 1%float (stop one_float)) = heap (stop one_float).
Proof.
  destruct (proj1 (loop_is_cancelled_cooperatively sample_sin) 1%float (stop one_float)
              eq_refl) as [Hh Hm].
  split; [reflexivity|]. split; [reflexivity|].
  split; [now rewrite Hm | exact Hh].
Defined.

(** X9. Restarting the loop within a frame doubles it. When the only
    registered animation is removed while the loop runs, the loop is
    stopped but its waiting callback is not cancelled; registering an
    auto-started animation before that callback has run starts the loop
    again, with a callback of its own. From then on one more callback is
    waiting than before, and no frame brings the number down again: each
    callback that runs requests its successor. *)
Theorem restart_before_frame_doubles_loop (Math_sin : number -> number) (id id' : string)
    (a : AnimationInstance) (object : nat) (c : AnimationConfig) (now now' : number)
    (w : World) :
  animations (manager w) = [(id, a)] ->
  isRunning (manager w) = true ->
  autoStart_not_false c = true ->
  let w' := addAnimation Math_sin id' object c now now' (removeAnimation id w) in
  isRunning (manager (removeAnimation id w)) = false
  /\ isRunning (manager w') = true
  /\ scheduled (manager w') = S (scheduled (manager w))
  /\ forall times,
       isRunning (manager (run Math_sin (frames times) w')) = true
       /\ scheduled (manager (run Math_sin (frames times) w')) = S (scheduled (manager w)).
Proof.
  intros Hm Hrun Hauto w'.
  assert (H1 : isRunning (manager (removeAnimation id w)) = false).
  { rewrite removeAnimation_isRunning, removeAnimation_animations, Hm.
    unfold Map_delete. simpl. now rewrite String.eqb_refl. }
  assert (H2 : isRunning (manager w') = true /\
               scheduled (manager w') = S (scheduled (manager w))).
  { unfold w', addAnimation. simpl. rewrite H1, Hauto. simpl.
    unfold start. simpl. rewrite H1. unfold update. simpl.
    split; [reflexivity|]. now rewrite removeAnimation_scheduled. }
  destruct H2 as [H2 H3].
  split; [exact H1|]. split; [exact H2|]. split; [exact H3|].
  intros times.
  destruct (frames_keep_loop Math_sin times w' H2 ltac:(lia)) as [H4 H5].
  split; [exact H4 | congruence].
Qed.

Lemma restart_before_frame_doubles_loop_witness :
  isRunning (manager one_float) = true
  /\ scheduled (manager one_float) = 1
  /\ scheduled (manager (addAnimation sample_sin "b" 0 float_config 0%float 0%float
                           (removeAnimation "a" one_float))) = 2.
Proof.
  destruct (animations (manager one_float)) as [|[k a] [|]] eqn:Hm;
    try (vm_compute in Hm; discriminate).
  assert (Hk : k = "a"%string) by (vm_compute in Hm; now inversion Hm).
  subst k.
  destruct (restart_before_frame_doubles_loop sample_sin "a" "b" a 0 float_config
              0%float 0%float one_float Hm eq_refl eq_refl) as (_ & _ & H & _).
  split; [reflexivity|]. split; [reflexivity|]. exact H.
Defined.

(** X10. The [loop] flag of a configuration is never read. A tick treats
    an instance the same whatever its [loop] flag is, and no frame changes
    the registry: an animation registered with [loop: false] is still
    active after any number of frames and keeps cycling, until it is paused
    or removed. *)
Theorem loop_flag_is_never_read (Math_sin : number -> number) :
  (forall v now h a,
     update_entry Math_sin now h (set_loop v a) = update_entry Math_sin now h a)
  /\ (forall times w,
     animations (manager (run Math_sin (frames times) w)) = animations (manager w))
  /\ (forall id object c now now' times w,
     isAnimationActive id
       (run Math_sin (frames times) (addAnimation Math_sin id object c now now' w)) =
     autoStart_not_false c).
Proof.
  split; [|split].
  - reflexivity.
  - intros times w. apply frames_keep_registry.
  - intros id object c now now' times w. unfold isAnimationActive.
    rewrite frames_keep_registry, addAnimation_animations, Map_get_set_same.
    reflexivity.
Qed.

End AnimationRegistryFacts.

(** ** InteractionSystem: targets, sessions and disposal *)

Module InteractionSessionFacts.

Import JSNumber NumberFacts InteractionSystem InteractionSystemFacts.
#[local] Open Scope nat_scope.

(** *** Who owns a hit *)

Lemma isChildOf_ancestry (c p : Object3D) :
  isChildOf c p = true <-> In (uuid p) (ancestry c).
Proof.
  induction c as [u|u c IH]; simpl; unfold same_object; simpl.
  - destruct (Nat.eqb_spec u (uuid p)) as [E|E].
    + split; auto.
    + split; [discriminate | intros [H|[]]; congruence].
  - destruct (Nat.eqb_spec u (uuid p)) as [E|E].
    + split; auto.
    + rewrite IH. split; [auto | intros [H|H]; [congruence | exact H]].
Qed.

Lemma find_first (A : Type) (f : A -> bool) (l : list A) (v : A) :
  find f l = Some v <->
  exists before after, l = before ++ v :: after /\ f v = true
                       /\ Forall (fun y => f y = false) before.
Proof.
  induction l as [|a l IH]; simpl.
  - split; [discriminate|]. intros (before & after & H & _). now destruct before.
  - destruct (f a) eqn:E.
    + split.
      * intros [= <-]. exists [], l. auto.
      * intros (before & after & H & Hv & Hb). destruct before as [|b before].
        -- simpl in H. congruence.
        -- simpl in H. inversion H; subst. inversion Hb; subst. congruence.
    + rewrite IH. split.
      * intros (before & after & -> & Hv & Hb). exists (a :: before), after. auto.
      * intros (before & after & H & Hv & Hb). destruct before as [|b before].
        -- simpl in H. inversion H; subst. congruence.
        -- simpl in H. inversion H; subst. inversion Hb; subst.
           exists before, after. auto.
Qed.

Lemma find_none (A : Type) (f : A -> bool) (l : list A) :
  find f l = None <-> Forall (fun y => f y = false) l.
Proof.
  induction l as [|a l IH]; simpl.
  - split; auto.
  - destruct (f a) eqn:E.
    + split; [discriminate | intros H; inversion H; congruence].
    + rewrite IH. split; [auto | intros H; now inversion H].
Qed.

Lemma not_isChildOf_ancestry (c p : Object3D) :
  isChildOf c p = false <-> ~ In (uuid p) (ancestry c).
Proof.
  rewrite <- isChildOf_ancestry. destruct (isChildOf c p); split; congruence.
Qed.

(** X11. Which entity a hit belongs to. [isChildOf child parent] holds
    exactly when [parent]'s identity is the child's own or one of its
    ancestors'. The entity a hit is attributed to is the first one, in the
    order of registration, whose node is the hit node or an ancestor of it:
    when a group and a node below it are both registered, the one
    registered first owns the hits on the lower node, not the nearest. *)
Theorem owner_is_first_registered_ancestor (objs : list InteractableObject)
    (i : Intersection) :
  (forall c p, isChildOf c p = true <-> In (uuid p) (ancestry c))
  /\ (forall o, owner objs i = Some o <->
        exists before after,
          objs = before ++ o :: after
          /\ In (uuid (object3d o)) (ancestry (object i))
          /\ Forall (fun o' => ~ In (uuid (object3d o')) (ancestry (object i))) before)
  /\ (owner objs i = None <->
        Forall (fun o' => ~ In (uuid (object3d o')) (ancestry (object i))) objs).
Proof.
  split; [exact isChildOf_ancestry|]. split.
  - intros o. unfold owner. rewrite find_first.
    split; intros (before & after & H & Hv & Hb); exists before, after;
      (split; [exact H|]); (split; [now apply isChildOf_ancestry|]);
      eapply Forall_impl; [|exact Hb| |exact Hb]; intros o'; apply not_isChildOf_ancestry.
  - unfold owner. rewrite find_none.
    split; intros H; eapply Forall_impl; [|exact H| |exact H]; intros o';
      apply not_isChildOf_ancestry.
Qed.

Lemma owner_is_first_registered_ancestor_witness :
  In (uuid (object3d entity_A)) (ancestry (object hit_A))
  /\ owner [entity_group; entity_A] hit_A = Some entity_group
  /\ owner [entity_A; entity_group] hit_A = Some entity_A.
Proof.
  split; [simpl; auto|].
  split.
  - apply (proj1 (proj2 (owner_is_first_registered_ancestor [entity_group; entity_A] hit_A))).
    exists [], [entity_A]. simpl. auto 6.
  - apply (proj1 (proj2 (owner_is_first_registered_ancestor [entity_A; entity_group] hit_A))).
    exists [], [entity_group]. simpl. auto 6.
Defined.

(** *** Hovering *)

Lemma same_target_refl (t : option InteractableObject) : same_target t t = true.
Proof. destruct t; simpl; [apply Nat.eqb_refl | reflexivity]. Qed.

Lemma same_target_trans (a b c : option InteractableObject) :
  same_target a b = true -> same_target b c = true -> same_target a c = true.
Proof.
  destruct a, b, c; simpl; try discriminate; auto.
  unfold same_entity. rewrite !Nat.eqb_eq. congruence.
Qed.

Lemma call_if_present_keeps (f : option Callback) (s : System) :
  interactableObjects (call_if_present f s) = interactableObjects s
  /\ currentHoveredObject (call_if_present f s) = currentHoveredObject s
  /\ interactionPrompt (call_if_present f s) = interactionPrompt s.
Proof. destruct f; simpl; auto. Qed.

Lemma move_transition (hits : list Intersection) (s : System) :
  same_target (getIntersectedInteractableObject hits s) (currentHoveredObject s) = false ->
  interactableObjects (onCanvasMouseMove true hits s) = interactableObjects s
  /\ currentHoveredObject (onCanvasMouseMove true hits s) =
     getIntersectedInteractableObject hits s
  /\ interactionPrompt (onCanvasMouseMove true hits s) =
     match interactionPrompt s with
     | None => None
     | Some p =>
         match getIntersectedInteractableObject hits s with
         | Some o => Some {| textContent := prompt_prefix ++ description o;
                             visibleClass := true |}
         | None => Some {| textContent := textContent p; visibleClass := false |}
         end
     end.
Proof.
  intros H. unfold onCanvasMouseMove. simpl. rewrite H. clear H.
  generalize (getIntersectedInteractableObject hits s). intros target.
  destruct s as [objs cur prompt lg].
  destruct cur as [h|], target as [t|]; simpl;
    try destruct (onHoverEnd h); try destruct (onHover t); simpl;
    destruct prompt; simpl; auto.
Qed.

Lemma move_registry (b : bool) (hits : list Intersection) (s : System) :
  interactableObjects (onCanvasMouseMove b hits s) = interactableObjects s.
Proof.
  destruct b; [|reflexivity].
  destruct (same_target (getIntersectedInteractableObject hits s) (currentHoveredObject s))
    eqn:E.
  - unfold onCanvasMouseMove. simpl. now rewrite E.
  - now apply move_transition.
Qed.

(** X12. Hover callbacks fire once per change of target. A pointer move
    that resolves to the entity already hovered changes nothing and calls
    nothing: in particular, handling the same move twice is the same as
    handling it once, whatever the intersections are in detail. *)
Theorem repeated_move_is_silent (b : bool) (hits hits' : list Intersection) (s : System) :
  same_target (getIntersectedInteractableObject hits' s)
              (getIntersectedInteractableObject hits s) = true ->
  onCanvasMouseMove b hits' (onCanvasMouseMove b hits s) = onCanvasMouseMove b hits s.
Proof.
  intros H. destruct b; [|reflexivity].
  assert (Hsilent : forall s1,
             same_target (getIntersectedInteractableObject hits' s1)
                         (currentHoveredObject s1) = true ->
             onCanvasMouseMove true hits' s1 = s1).
  { intros s1 H1. unfold onCanvasMouseMove. simpl. now rewrite H1. }
  destruct (same_target (getIntersectedInteractableObject hits s) (currentHoveredObject s))
    eqn:E.
  - assert (Hs : onCanvasMouseMove true hits s = s).
    { unfold onCanvasMouseMove. simpl. now rewrite E. }
    rewrite Hs. apply Hsilent. eapply same_target_trans; eassumption.
  - destruct (move_transition hits s E) as (Hr & Hc & _).
    apply Hsilent. unfold getIntersectedInteractableObject in *. now rewrite Hr, Hc.
Qed.

Lemma repeated_move_is_silent_witness :
  same_target (getIntersectedInteractableObject [hit_B] (hovering (Some entity_A)))
              (getIntersectedInteractableObject [hit_A; hit_B] (hovering (Some entity_A)))
    = true
  /\ log (onCanvasMouseMove true [hit_B]
            (onCanvasMouseMove true [hit_A; hit_B] (hovering (Some entity_A)))) =
     log (onCanvasMouseMove true [hit_A; hit_B] (hovering (Some entity_A))).
Proof.
  split; [vm_compute; reflexivity|].
  apply (f_equal log).
  apply (repeated_move_is_silent true [hit_A; hit_B] [hit_B] (hovering (Some entity_A))).
  vm_compute. reflexivity.
Defined.

(** *** Activation *)

(** X13. A click activates the entity under the crosshair, hovered or not.
    With the pointer locked, a click calls [onInteract] of the entity the
    intersections resolve to, once, and calls nothing when they resolve to
    none; it never changes the registry, the hover state or the prompt.
    After a move over the same intersections the entity activated is the
    hovered one. Without the pointer lock a click does nothing. *)
Theorem click_activates_resolved_target (hits : list Intersection) (s : System) :
  let target := getIntersectedInteractableObject hits s in
  let fired := match target with Some o => [Call (onInteract o)] | None => [] end in
  let clicked := onCanvasClick true hits s in
  let moved := onCanvasMouseMove true hits s in
  log clicked = log s ++ fired
  /\ interactableObjects clicked = interactableObjects s
  /\ currentHoveredObject clicked = currentHoveredObject s
  /\ interactionPrompt clicked = interactionPrompt s
  /\ same_target (currentHoveredObject moved) target = true
  /\ log (onCanvasClick true hits moved) = log moved ++ fired
  /\ onCanvasClick false hits s = s.
Proof.
  intros target fired clicked moved.
  assert (Hclick : forall s1, interactableObjects s1 = interactableObjects s ->
            log (onCanvasClick true hits s1) = log s1 ++ fired).
  { intros s1 H1. unfold onCanvasClick, getIntersectedInteractableObject. simpl.
    rewrite H1. fold (getIntersectedInteractableObject hits s). fold target.
    unfold fired. destruct target; simpl; [reflexivity | now rewrite app_nil_r]. }
  split; [now apply Hclick|].
  unfold clicked, onCanvasClick. simpl. fold target.
  split; [now destruct target|]. split; [now destruct target|].
  split; [now destruct target|].
  split; [|split; [apply Hclick, move_registry | reflexivity]].
  destruct (same_target target (currentHoveredObject s)) eqn:E.
  - unfold moved, onCanvasMouseMove. simpl. fold target. rewrite E.
    destruct target as [t|], (currentHoveredObject s) as [h|]; simpl in *;
      try discriminate; auto.
    unfold same_entity in *. now rewrite Nat.eqb_sym.
  - destruct (move_transition hits s E) as (_ & Hc & _). fold moved target in Hc.
    rewrite Hc. apply same_target_refl.
Qed.

(** *** What every session keeps *)

Lemma splice1_keeps (o h : InteractableObject) (l : list InteractableObject) (i : nat) :
  indexOf o l = Some i -> same_entity h o = false -> In h l -> In h (splice1 i l).
Proof.
  revert i. induction l as [|a l IH]; intros i; simpl; [discriminate|].
  destruct (same_entity a o) eqn:E.
  - intros [= <-] Hh [->|Hin]; [congruence | exact Hin].
  - destruct (indexOf o l) as [j|]; simpl; [|discriminate].
    intros [= <-] Hh [->|Hin]; simpl; [now left | right; now apply IH].
Qed.

Lemma resolve_registered (objs : list InteractableObject) (hits : list Intersection)
    (o : InteractableObject) :
  resolve objs hits = Some o -> In o objs.
Proof.
  induction hits as [|i hits IH]; simpl; [discriminate|].
  destruct (find _ objs) as [o'|] eqn:E; [|exact IH].
  destruct (_ <=? _)%float; [|exact IH].
  intros [= <-]. now apply find_some in E.
Qed.

Lemma handle_hover_registered (s : System) (e : Event) :
  (forall o, currentHoveredObject s = Some o -> In o (interactableObjects s)) ->
  forall o, currentHoveredObject (handle s e) = Some o ->
            In o (interactableObjects (handle s e)).
Proof.
  intros Hinv. destruct e as [b hits|b hits|a|a]; simpl.
  - unfold onCanvasClick.
    destruct (negb b); [exact Hinv|].
    destruct (getIntersectedInteractableObject hits s); exact Hinv.
  - destruct b; [|exact Hinv].
    destruct (same_target (getIntersectedInteractableObject hits s)
                          (currentHoveredObject s)) eqn:E.
    + unfold onCanvasMouseMove. simpl. rewrite E. exact Hinv.
    + destruct (move_transition hits s E) as (Hr & Hc & _). rewrite Hr, Hc.
      intros o. apply resolve_registered.
  - intros o Ho. apply in_or_app. left. now apply Hinv.
  - unfold removeInteractableObject.
    destruct (indexOf a (interactableObjects s)) as [i|] eqn:Ei; [|exact Hinv].
    simpl.
    destruct (same_target (currentHoveredObject s) (Some a)) eqn:E.
    + intros o Ho. destruct (updateInteractionPrompt_keeps
        (set_currentHoveredObject None
           (set_interactableObjects (splice1 i (interactableObjects s)) s)))
        as (_ & Hc & _).
      rewrite Hc in Ho. discriminate.
    + simpl. intros o Ho. rewrite Ho in E. simpl in E.
      eapply splice1_keeps; eauto.
Qed.

Lemma handle_prompt (s : System) (e : Event) :
  prompt_shows_hover s -> prompt_shows_hover (handle s e).
Proof.
  intros Hinv. destruct e as [b hits|b hits|a|a]; simpl.
  - unfold onCanvasClick.
    destruct (negb b); [exact Hinv|].
    destruct (getIntersectedInteractableObject hits s); exact Hinv.
  - destruct b; [|exact Hinv].
    destruct (same_target (getIntersectedInteractableObject hits s)
                          (currentHoveredObject s)) eqn:E.
    + unfold onCanvasMouseMove. simpl. rewrite E. exact Hinv.
    + destruct (move_transition hits s E) as (_ & Hc & Hp).
      unfold prompt_shows_hover. rewrite Hc, Hp.
      destruct (interactionPrompt s); [|exact I].
      destruct (getIntersectedInteractableObject hits s); simpl; auto.
  - exact Hinv.
  - unfold removeInteractableObject.
    destruct (indexOf a (interactableObjects s)) as [i|] eqn:Ei; [|exact Hinv].
    simpl.
    destruct (same_target (currentHoveredObject s) (Some a)) eqn:E; [|exact Hinv].
    clear. destruct s as [objs cur [p|] lg]; unfold prompt_shows_hover; simpl; auto.
Qed.

(** X14. What every session keeps. Starting from a new system whose
    prompt, if the page has one, is hidden, after any sequence of clicks,
    pointer moves, registrations and removals: the hovered entity, if there
    is one, is registered; and the prompt is visible exactly when an entity
    is hovered, showing that entity's description. *)
Theorem session_invariants (prompt : option PromptElement) (events : list Event) :
  (forall p, prompt = Some p -> visibleClass p = false) ->
  let s := handle_all events (new_system prompt) in
  (forall o, currentHoveredObject s = Some o -> In o (interactableObjects s))
  /\ prompt_shows_hover s.
Proof.
  intros Hp.
  assert (H : forall s0,
             (forall o, currentHoveredObject s0 = Some o -> In o (interactableObjects s0))
             /\ prompt_shows_hover s0 ->
             (forall o, currentHoveredObject (handle_all events s0) = Some o ->
                        In o (interactableObjects (handle_all events s0)))
             /\ prompt_shows_hover (handle_all events s0)).
  { induction events as [|e events IH]; intros s0 [H1 H2]; simpl; [auto|].
    apply IH. split; [now apply handle_hover_registered | now apply handle_prompt]. }
  apply H. split; [discriminate|].
  unfold prompt_shows_hover, new_system. simpl.
  destruct prompt as [p|]; [now apply Hp | exact I].
Qed.

Lemma session_invariants_witness :
  visibleClass {| textContent := ""; visibleClass := false |} = false
  /\ prompt_shows_hover
       (handle_all [Add entity_A; Add entity_B; MouseMove true [hit_B]; Remove entity_A]
          (new_system (Some {| textContent := ""; visibleClass := false |})))
  /\ currentHoveredObject
       (handle_all [Add entity_A; Add entity_B; MouseMove true [hit_B]; Remove entity_A]
          (new_system (Some {| textContent := ""; visibleClass := false |})))
     = Some entity_B.
Proof.
  split; [reflexivity|]. split; [|vm_compute; reflexivity].
  apply (session_invariants (Some {| textContent := ""; visibleClass := false |})
           [Add entity_A; Add entity_B; MouseMove true [hit_B]; Remove entity_A]).
  intros p [= <-]. reflexivity.
Defined.

(** *** Disposal *)

(** X15. [dispose] empties the registry and clears the hover state without
    calling anything: the hovered entity gets no [onHoverEnd], and the
    prompt is left as it is, still visible if an entity was hovered. From
    then on no click and no pointer move has any effect, since nothing is
    registered that the intersections could resolve to. *)
Theorem dispose_silences_the_system (s : System) :
  interactableObjects (dispose s) = []
  /\ currentHoveredObject (dispose s) = None
  /\ calls (log (dispose s)) = calls (log s)
  /\ interactionPrompt (dispose s) = interactionPrompt s
  /\ (forall hits, getIntersectedInteractableObject hits (dispose s) = None)
  /\ (forall b hits, onCanvasClick b hits (dispose s) = dispose s)
  /\ (forall b hits, onCanvasMouseMove b hits (dispose s) = dispose s).
Proof.
  assert (Hres : forall hits, resolve [] hits = None).
  { induction hits as [|i hits IH]; simpl; auto. }
  split; [reflexivity|]. split; [reflexivity|].
  split.
  { unfold dispose. simpl. unfold calls. rewrite flat_map_app. simpl. apply app_nil_r. }
  split; [reflexivity|].
  split; [intros hits; apply Hres|].
  split.
  - intros b hits. unfold onCanvasClick, getIntersectedInteractableObject. simpl.
    rewrite Hres. now destruct b.
  - intros b hits. unfold onCanvasMouseMove, getIntersectedInteractableObject. simpl.
    rewrite Hres. now destruct b.
Qed.

Lemma bind_fresh (e : EventType) (m : Method) (c : Canvas) :
  well_formed c ->
  removeEventListener e (fst (bind m c)) (snd (bind m c)) = snd (bind m c).
Proof.
  intros H. unfold removeEventListener, bind. simpl. f_equal.
  unfold well_formed in H. induction H as [|l ls Hl _ IH]; simpl; [reflexivity|].
  unfold same_listener at 1. simpl.
  replace (Nat.eqb (identity (callback l)) (functions c)) with false
    by (symmetry; apply Nat.eqb_neq; lia).
  rewrite andb_false_r. simpl. now rewrite IH.
Qed.

(** X16. [dispose] does not detach the handlers. The functions it hands
    to [removeEventListener] are made by [bind] on the spot, so they are
    not the function objects the constructor had attached: no listener is
    removed, and after [dispose] a click or a pointer move on the canvas
    still calls the system's [onCanvasClick] and [onCanvasMouseMove]. *)
Theorem dispose_leaves_the_handlers_attached (c : Canvas) :
  well_formed c ->
  listeners (dispose_listeners (setupEventListeners c)) =
    listeners (setupEventListeners c)
  /\ listeners (dispose_listeners c) = listeners c
  /\ In OnCanvasClick (dispatch click (dispose_listeners (setupEventListeners c)))
  /\ In OnCanvasMouseMove (dispatch mousemove (dispose_listeners (setupEventListeners c))).
Proof.
  intros Hwf.
  assert (Hkeep : forall c0, well_formed c0 -> listeners (dispose_listeners c0) = listeners c0).
  { intros c0 H0. unfold dispose_listeners.
    assert (H1 := bind_fresh click OnCanvasClick c0 H0).
    destruct (bind OnCanvasClick c0) as [f1 c1] eqn:E1. simpl in H1. rewrite H1.
    assert (Hwf1 : well_formed c1).
    { unfold bind in E1. inversion E1; subst. unfold well_formed in *. simpl.
      eapply Forall_impl; [|exact H0]. simpl. intros; lia. }
    assert (H2 := bind_fresh mousemove OnCanvasMouseMove c1 Hwf1).
    destruct (bind OnCanvasMouseMove c1) as [f2 c2] eqn:E2. simpl in H2. rewrite H2.
    unfold bind in E1, E2. inversion E1; inversion E2; subst. reflexivity. }
  assert (Hsetup : listeners (setupEventListeners c) =
                   listeners c
                   ++ [{| event := click;
                          callback := {| identity := functions c;
                                         method := Some OnCanvasClick |} |};
                       {| event := mousemove;
                          callback := {| identity := S (functions c);
                                         method := Some OnCanvasMouseMove |} |}]
                   /\ functions (setupEventListeners c) = S (S (functions c))).
  { assert (Hfresh : forall e f n ls, Forall (fun l => identity (callback l) < n) ls ->
              n <= identity f -> existsb (same_listener e f) ls = false).
    { intros e f n ls H Hn. induction H as [|l ls Hl _ IH]; simpl; [reflexivity|].
      rewrite IH, orb_false_r. unfold same_listener.
      replace (Nat.eqb (identity (callback l)) (identity f)) with false
        by (symmetry; apply Nat.eqb_neq; lia).
      apply andb_false_r. }
    unfold setupEventListeners, bind, addEventListener. simpl.
    rewrite (Hfresh click _ (functions c) (listeners c) Hwf) by (simpl; lia). simpl.
    rewrite (Hfresh mousemove _ (S (functions c))).
    - simpl. rewrite <- app_assoc. simpl. auto.
    - apply Forall_app. split.
      + eapply Forall_impl; [|exact Hwf]. simpl. intros; lia.
      + repeat constructor.
    - simpl. lia. }
  destruct Hsetup as [Hl Hf].
  assert (Hwf' : well_formed (setupEventListeners c)).
  { unfold well_formed. rewrite Hl, Hf. apply Forall_app. split.
    - eapply Forall_impl; [|exact Hwf]. simpl. intros; lia.
    - repeat constructor; simpl; lia. }
  split; [now apply Hkeep|]. split; [now apply Hkeep|].
  unfold dispatch. rewrite (Hkeep _ Hwf'), Hl, !filter_app, !flat_map_app. simpl.
  split; apply in_or_app; right; simpl; auto.
Qed.

Lemma dispose_leaves_the_handlers_attached_witness :
  well_formed sample_canvas
  /\ dispatch click (setupEventListeners sample_canvas) = [OnCanvasClick]
  /\ dispatch click (dispose_listeners (setupEventListeners sample_canvas)) = [OnCanvasClick]
  /\ In OnCanvasMouseMove
       (dispatch mousemove (dispose_listeners (setupEventListeners sample_canvas))).
Proof.
  assert (H : well_formed sample_canvas) by (repeat constructor).
  split; [exact H|]. split; [reflexivity|]. split; [reflexivity|].
  exact (proj2 (proj2 (proj2 (dispose_leaves_the_handlers_attached sample_canvas H)))).
Defined.

(** *** The registry is an array *)

Lemma indexOf_app_absent (o : InteractableObject) (l : list InteractableObject) :
  indexOf o l = None -> indexOf o (l ++ [o]) = Some (List.length l).
Proof.
  induction l as [|a l IH]; simpl.
  - intros _. unfold same_entity. now rewrite Nat.eqb_refl.
  - destruct (same_entity a o); [discriminate|].
    destruct (indexOf o l); [discriminate|]. intros _. now rewrite IH.
Qed.

Lemma indexOf_app_present (o : InteractableObject) (l r : list InteractableObject) (i : nat) :
  indexOf o l = Some i -> indexOf o (l ++ r) = Some i /\ splice1 i (l ++ r) = splice1 i l ++ r.
Proof.
  revert i. induction l as [|a l IH]; intros i; simpl; [discriminate|].
  destruct (same_entity a o).
  - intros [= <-]. auto.
  - destruct (indexOf o l) as [j|]; simpl; [|discriminate].
    intros [= <-]. destruct (IH j eq_refl) as [H1 H2]. simpl. now rewrite H1, H2.
Qed.

Lemma splice1_last (l : list InteractableObject) (o : InteractableObject) :
  splice1 (List.length l) (l ++ [o]) = l.
Proof. induction l as [|a l IH]; simpl; [reflexivity | now rewrite IH]. Qed.

(** X17. The registry is an array, searched from the front. Registering
    appends, also an entity that is already registered. Removing takes out
    the first occurrence only: an entity registered once and removed leaves
    the registry as it was, an entity registered twice is still registered
    after one removal. [findInteractableObjectByName] answers the entity
    registered first under the name, so a later entity of the same name is
    never found by it. *)
Theorem registry_is_searched_from_the_front (o : InteractableObject) (n : string)
    (s : System) :
  getAllInteractableObjects (addInteractableObject o s) = getAllInteractableObjects s ++ [o]
  /\ (indexOf o (interactableObjects s) = None ->
      interactableObjects (removeInteractableObject o (addInteractableObject o s)) =
      interactableObjects s)
  /\ (indexOf o (interactableObjects s) <> None ->
      indexOf o (interactableObjects
                   (removeInteractableObject o (addInteractableObject o s))) <> None)
  /\ findInteractableObjectByName n (addInteractableObject o s) =
       match findInteractableObjectByName n s with
       | Some first => Some first
       | None => if String.eqb (name o) n then Some o else None
       end.
Proof.
  assert (Hreg : forall s1, interactableObjects (removeInteractableObject o s1) =
            match indexOf o (interactableObjects s1) with
            | Some i => splice1 i (interactableObjects s1)
            | None => interactableObjects s1
            end).
  { intros s1. unfold removeInteractableObject.
    destruct (indexOf o (interactableObjects s1)) as [i|]; [|reflexivity]. simpl.
    destruct (same_target (currentHoveredObject s1) (Some o)); [|reflexivity].
    apply updateInteractionPrompt_keeps. }
  split; [reflexivity|]. split; [|split].
  - intros Habsent. rewrite Hreg. simpl.
    rewrite (indexOf_app_absent _ _ Habsent). apply splice1_last.
  - intros Hpresent. rewrite Hreg. simpl.
    destruct (indexOf o (interactableObjects s)) as [i|] eqn:Ei; [|now elim Hpresent].
    destruct (indexOf_app_present o _ [o] i Ei) as [-> ->].
    clear. induction (splice1 i (interactableObjects s)) as [|a l IH]; simpl.
    + unfold same_entity. rewrite Nat.eqb_refl. discriminate.
    + destruct (same_entity a o); [discriminate|].
      destruct (indexOf o (l ++ [o])); [discriminate | now elim IH].
  - unfold findInteractableObjectByName. simpl.
    induction (interactableObjects s) as [|a l IH]; simpl.
    + now destruct (String.eqb (name o) n).
    + destruct (String.eqb (name a) n); [reflexivity | exact IH].
Qed.

Lemma registry_is_searched_from_the_front_witness :
  indexOf entity_group (interactableObjects (hovering None)) = None
  /\ indexOf entity_A (interactableObjects (hovering None)) <> None
  /\ interactableObjects
       (removeInteractableObject entity_group (addInteractableObject entity_group (hovering None)))
     = [entity_A; entity_B]
  /\ interactableObjects
       (removeInteractableObject entity_A (addInteractableObject entity_A (hovering None)))
     = [entity_B; entity_A].
Proof.
  split; [reflexivity|]. split; [discriminate|].
  split; [|reflexivity].
  exact (proj1 (proj2 (registry_is_searched_from_the_front entity_group "" (hovering None)))
           eq_refl).
Defined.

End InteractionSessionFacts.

(** ** PerformanceOptimizer: quality, materials, statistics and the passes *)

Module OptimizerPassFacts.

Import JSNumber NumberFacts THREE PerformanceOptimizer PerformanceOptimizerFacts.
#[local] Open Scope float_scope.

(** *** Quality settings *)

(** X18. The quality settings follow the tier and nothing else. Whatever
    the renderer, the fog and the shadow settings were, [adjustQualitySettings]
    leaves the bundle of the current tier: basic shadows of size 512 up to 50
    units and no fog at low; PCF shadows of size 1024 up to 75 units and fog
    to 150 at medium; soft PCF shadows of size 2048 up to 100 units and fog
    to 200 at high. Applying it again changes nothing. The three switches
    (level of detail, frustum culling, occlusion), the scene, the camera,
    the samples and the level-of-detail registry are not touched. A shadow
    map size or shadow distance set through [setOptimizationSettings] is
    therefore overwritten by the next run of the timer, while a switch set
    there stays. *)
Theorem quality_follows_tier (st : Optimizer) (r : Rendering) :
  let q := adjustQualitySettings (st, r) in
  (shadowMap_type (snd q), shadowMapSize (optimizationSettings (fst q)),
   maxShadowDistance (optimizationSettings (fst q)), fog (snd q)) =
    match performanceLevel st with
    | low => (BasicShadowMap, 512, 50, None)
    | medium => (PCFShadowMap, 1024, 75, Some {| color := sky_blue; near := 50; far := 150 |})
    | high => (PCFSoftShadowMap, 2048, 100, Some {| color := sky_blue; near := 50; far := 200 |})
    end
  /\ adjustQualitySettings q = q
  /\ (enableLOD (optimizationSettings (fst q)),
      enableFrustumCulling (optimizationSettings (fst q)),
      enableOcclusion (optimizationSettings (fst q))) =
     (enableLOD (optimizationSettings st), enableFrustumCulling (optimizationSettings st),
      enableOcclusion (optimizationSettings st))
  /\ set_optimizationSettings (optimizationSettings st) (fst q) = st
  /\ (forall p r',
        let q' := adjustQualitySettings (setOptimizationSettings p st, r') in
        snd q' = snd q
        /\ shadowMapSize (optimizationSettings (fst q')) =
           shadowMapSize (optimizationSettings (fst q))
        /\ maxShadowDistance (optimizationSettings (fst q')) =
           maxShadowDistance (optimizationSettings (fst q))
        /\ enableLOD (optimizationSettings (fst q')) =
           given (given_enableLOD p) (enableLOD (optimizationSettings st))
        /\ enableFrustumCulling (optimizationSettings (fst q')) =
           given (given_enableFrustumCulling p)
                 (enableFrustumCulling (optimizationSettings st))).
Proof.
  destruct st as [sc cam fc lt avg level lod settings].
  unfold adjustQualitySettings. simpl.
  destruct level; simpl; repeat split.
Qed.

(** *** Materials *)

Lemma Math_min_above (s lo hi : number) :
  (lo <? hi) = true -> (hi <=? s) = true -> Math_min s lo = lo.
Proof.
  intros Hlo Hs.
  destruct (leb_not_nan hi s Hs) as [_ Hns].
  destruct (ltb_not_nan lo hi Hlo) as [Hnlo _].
  assert (H1 : (lo <=? s) = true) by (eapply leb_trans; [apply ltb_leb|]; eassumption).
  assert (H2 : (s <? lo) = false) by now apply leb_not_ltb.
  assert (H3 : (lo <? s) = true).
  { apply not_leb_ltb; auto. destruct (s <=? lo) eqn:E; [|reflexivity].
    assert (H4 : (hi <=? lo) = true) by (eapply leb_trans; eassumption).
    now rewrite (ltb_not_leb lo hi Hlo) in H4. }
  unfold Math_min. now rewrite Hns, Hnlo, H2, H3.
Qed.

Lemma Math_min_chain (s lo hi : number) :
  (lo <? hi) = true -> Math_min hi lo = lo ->
  Math_min (Math_min s hi) lo = Math_min s lo.
Proof.
  intros Hlo Hhi.
  destruct (ltb_not_nan lo hi Hlo) as [Hnlo Hnhi].
  destruct (is_nan s) eqn:Hns.
  { unfold Math_min at 2 3. rewrite Hns. simpl. reflexivity. }
  assert (Hrefl : (hi <=? hi) = true) by (apply not_ltb_leb; auto using ltb_irrefl).
  unfold Math_min at 2. rewrite Hns, Hnhi. simpl.
  destruct (s <? hi) eqn:E1; [reflexivity|].
  assert (Hge : (hi <=? s) = true) by now apply not_ltb_leb.
  rewrite (Math_min_above s lo hi Hlo Hge).
  destruct (hi <? s); [exact Hhi|]. now destruct (get_sign s); [apply Math_min_above with hi|].
Qed.

Lemma Math_min_le_l (a b : number) :
  is_nan a = false -> is_nan b = false -> (Math_min a b <=? a) = true.
Proof.
  intros Ha Hb. unfold Math_min. rewrite Ha, Hb. simpl.
  assert (Haa : (a <=? a) = true) by (apply not_ltb_leb; auto using ltb_irrefl).
  destruct (a <? b) eqn:E1; [exact Haa|].
  destruct (b <? a) eqn:E2; [now apply ltb_leb|].
  destruct (get_sign a); [exact Haa | now apply not_ltb_leb].
Qed.

(** X19. [optimizeSingleMaterial] caps the shininess of a Phong material
    at 30 on the low tier and at 60 on the medium tier, and changes nothing
    on the high tier or on any other material. For a shininess that is a
    number it never raises it; the emissive colour is kept. Optimizing twice
    at one tier is the same as once, and the tiers nest: low after medium is
    low. The same holds element by element for an array of materials. *)
Theorem material_caps_nest (m : Material) (level : PerformanceLevel) :
  optimizeSingleMaterial level (optimizeSingleMaterial level m) =
    optimizeSingleMaterial level m
  /\ optimizeSingleMaterial low (optimizeSingleMaterial medium m) =
       optimizeSingleMaterial low m
  /\ optimizeSingleMaterial high m = m
  /\ optimizeSingleMaterial level OtherMaterial = OtherMaterial
  /\ (forall e s, m = MeshPhongMaterial e s ->
        exists s', optimizeSingleMaterial level m = MeshPhongMaterial e s'
          /\ (is_nan s = false ->
              (s' <=? s) = true
              /\ (level = low -> (s' <=? 30) = true)
              /\ (level = medium -> (s' <=? 60) = true)))
  /\ (forall l, optimize_mesh_material level (optimize_mesh_material level (Multiple l)) =
                optimize_mesh_material level (Multiple l)).
Proof.
  assert (Hidem : forall m0, optimizeSingleMaterial level (optimizeSingleMaterial level m0) =
                             optimizeSingleMaterial level m0).
  { intros [e s|]; [|reflexivity]. destruct level; simpl; try reflexivity;
      now rewrite Math_min_idem. }
  split; [apply Hidem|].
  split.
  { destruct m as [e s|]; [|reflexivity]. simpl. f_equal.
    apply Math_min_chain; reflexivity. }
  split; [now destruct m|]. split; [now destruct level|].
  split.
  - intros e s ->. destruct level; simpl; eexists; (split; [reflexivity|]); intros Hs.
    + assert (Hrefl : (s <=? s) = true) by (apply not_ltb_leb; auto using ltb_irrefl).
      repeat split; auto; discriminate.
    + repeat split; try discriminate.
      * now apply Math_min_le_l.
      * intros _. now apply Math_min_le.
    + repeat split; try discriminate.
      * now apply Math_min_le_l.
      * intros _. now apply Math_min_le.
  - intros l. simpl. f_equal. rewrite map_map. apply map_ext. exact Hidem.
Qed.

Lemma material_caps_nest_witness :
  is_nan 100 = false
  /\ optimizeSingleMaterial low (MeshPhongMaterial black 100) = MeshPhongMaterial black 30
  /\ optimizeSingleMaterial medium (MeshPhongMaterial black 100) = MeshPhongMaterial black 60
  /\ optimizeSingleMaterial low (MeshPhongMaterial black 20) = MeshPhongMaterial black 20.
Proof.
  split; [reflexivity|].
  destruct (proj1 (proj2 (proj2 (proj2 (proj2
              (material_caps_nest (MeshPhongMaterial black 100) low)))))
              black 100 eq_refl) as (s' & Hs' & _).
  split; [rewrite Hs'; vm_compute in Hs'; inversion Hs'; reflexivity|].
  split; vm_compute; reflexivity.
Defined.

(** *** Statistics *)

Lemma Map_set_length (u : nat) (c : LODConfig) (m : list (nat * LODConfig)) :
  List.length (Map_set u c m) =
    if existsb (fun kv => Nat.eqb (fst kv) u) m then List.length m else S (List.length m).
Proof.
  induction m as [|[k c0] m IH]; simpl; [reflexivity|].
  destruct (Nat.eqb k u); simpl; [reflexivity|].
  rewrite IH. now destruct (existsb _ m).
Qed.

(** X20. What the statistics count. [visibleObjects] counts the meshes
    whose own [visible] flag is set, at most one per node, and ignores the
    flags of their ancestors: when the level-of-detail pass hides a node
    beyond its far distance, the count drops by one if that node is itself a
    visible mesh and not at all otherwise, so the meshes below a hidden group
    are still reported as visible. [lodObjectsCount] counts the registered
    nodes: registering a node again replaces its entry and leaves the count. *)
Theorem statistics_count_own_flags (cameraPosition : Vector3) (config : LODConfig)
    (o : SceneGraph) (u : nat) (st : Optimizer) :
  (visibleObjects (getPerformanceStats st) <= List.length (nodes (scene st)))%nat
  /\ (gt (distanceTo cameraPosition (position (props o))) (farDistance config) = true ->
      (visible_meshes (lod_entry cameraPosition config o)
       + (if counts_as_visible (props o) then 1 else 0))%nat = visible_meshes o)
  /\ lodObjectsCount (getPerformanceStats (addLODObject u config st)) =
       (if existsb (fun kv => Nat.eqb (fst kv) u) (lodObjects st)
        then lodObjectsCount (getPerformanceStats st)
        else S (lodObjectsCount (getPerformanceStats st)))
  /\ visibleObjects (getPerformanceStats (addLODObject u config st)) =
       visibleObjects (getPerformanceStats st).
Proof.
  split; [apply filter_length_le|]. split; [|split; [apply Map_set_length | reflexivity]].
  intros Hfar. unfold lod_entry. rewrite Hfar.
  destruct o as [v p cs]. unfold visible_meshes. simpl.
  destruct (counts_as_visible p); simpl; lia.
Qed.

Lemma statistics_count_own_flags_witness :
  gt (distanceTo camera_origin (position (props far_group)))
     (farDistance (lod_config None)) = true
  /\ visible (props (lod_entry camera_origin (lod_config None) far_group)) = false
  /\ visible_meshes far_group = 2%nat
  /\ visible_meshes (lod_entry camera_origin (lod_config None) far_group) = 2%nat.
Proof.
  assert (Hfar : gt (distanceTo camera_origin (position (props far_group)))
                    (farDistance (lod_config None)) = true) by (vm_compute; reflexivity).
  split; [exact Hfar|]. split; [vm_compute; reflexivity|]. split; [reflexivity|].
  assert (H := proj1 (proj2 (statistics_count_own_flags camera_origin (lod_config None)
                               far_group 0 sample_optimizer)) Hfar).
  change (counts_as_visible (props far_group)) with false in H.
  rewrite Nat.add_0_r in H. exact H.
Defined.

(** *** What the per-frame passes leave alone *)

Lemma traverse_blank (f : Object3D -> Object3D) (o : SceneGraph) :
  (forall p, blank_written (f p) = blank_written p) ->
  traverse blank_written (traverse f o) = traverse blank_written o.
Proof.
  intros Hf. induction o as [u p cs IH] using SceneGraph_induction. simpl.
  rewrite Hf. f_equal. rewrite map_map.
  induction IH as [|c cs Hc _ IHcs]; simpl; [reflexivity|]. now rewrite Hc, IHcs.
Qed.

Lemma at_object_blank (u : nat) (f : SceneGraph -> SceneGraph) (o : SceneGraph) :
  (forall o', traverse blank_written (f o') = traverse blank_written o') ->
  traverse blank_written (at_object u f o) = traverse blank_written o.
Proof.
  intros Hf. induction o as [v p cs IH] using SceneGraph_induction. simpl.
  destruct (Nat.eqb v u); [apply Hf|]. simpl. f_equal. rewrite map_map.
  induction IH as [|c cs Hc _ IHcs]; simpl; [reflexivity|]. now rewrite Hc, IHcs.
Qed.

Lemma blank_set_visible (v : bool) (p : Object3D) :
  blank_written (set_visible v p) = blank_written p.
Proof. reflexivity. Qed.

Lemma blank_mediumLOD (p : Object3D) : blank_written (mediumLOD p) = blank_written p.
Proof.
  destruct p as [pos rot sc vis mw [[[e s|] cs bs]|]]; reflexivity.
Qed.

Lemma blank_highLOD (config : LODConfig) (p : Object3D) :
  blank_written (highLOD config p) = blank_written p.
Proof.
  destruct p as [pos rot sc vis mw [[[e s|] cs bs]|]]; reflexivity.
Qed.

Lemma lod_entry_blank (cameraPosition : Vector3) (config : LODConfig) (o : SceneGraph) :
  traverse blank_written (lod_entry cameraPosition config o) = traverse blank_written o.
Proof.
  unfold lod_entry, applyMediumLOD, applyHighLOD.
  assert (Hv : forall v, traverse blank_written (set_object_visible v o) =
                         traverse blank_written o) by (intros v; now destruct o).
  destruct (gt _ (farDistance config)); [apply Hv|].
  destruct (gt _ (mediumDistance config)).
  - rewrite traverse_blank; [apply Hv | apply blank_mediumLOD].
  - rewrite traverse_blank; [apply Hv | apply blank_highLOD].
Qed.

Lemma updateLOD_blank (st : Optimizer) :
  traverse blank_written (scene (updateLOD st)) = traverse blank_written (scene st).
Proof.
  unfold updateLOD. destruct (enableLOD (optimizationSettings st)); simpl; [|reflexivity].
  generalize (scene st). induction (lodObjects st) as [|entry l IH]; intros sc; simpl;
    [reflexivity|].
  rewrite IH. apply at_object_blank. intros o'. apply lod_entry_blank.
Qed.

Lemma highLOD_idempotent (config : LODConfig) (p : Object3D) :
  highLOD config (highLOD config p) = highLOD config p.
Proof.
  destruct p as [pos rot sc vis mw [[[e s|] cs bs]|]]; reflexivity.
Qed.

Lemma highLOD_set_visible (config : LODConfig) (v : bool) (p : Object3D) :
  highLOD config (set_visible v p) = set_visible v (highLOD config p).
Proof. destruct p as [pos rot sc vis mw [m|]]; reflexivity. Qed.

Section Passes.

Variable multiplyMatrices : Matrix4 -> Matrix4 -> Matrix4.
Variable setFromProjectionMatrix : Matrix4 -> Frustum.
Variable applyMatrix4 : Sphere -> Matrix4 -> Sphere.
Variable intersectsSphere : Frustum -> Sphere -> bool.

Lemma blank_cull (frustum : Frustum) (p : Object3D) :
  blank_written (cull applyMatrix4 intersectsSphere frustum p) = blank_written p.
Proof.
  unfold cull. destruct (mesh p) as [m|]; [|reflexivity].
  destruct (boundingSphere m); reflexivity.
Qed.

Lemma cull_idempotent (frustum : Frustum) (p : Object3D) :
  cull applyMatrix4 intersectsSphere frustum (cull applyMatrix4 intersectsSphere frustum p) =
  cull applyMatrix4 intersectsSphere frustum p.
Proof.
  unfold cull. destruct (mesh p) as [m|] eqn:Em; [|now rewrite Em].
  destruct (boundingSphere m) eqn:Eb; [|now rewrite Em, Eb].
  simpl. rewrite Em, Eb. reflexivity.
Qed.

End Passes.

(** X21. What the per-frame passes leave alone. [update] writes nothing
    but the visibility, the shadow flag and the shininess of nodes: the
    shape of the scene graph, the identity of every node, its position,
    rotation, scale, world matrix, bounding sphere, kind of material and
    emissive colour are the same afterwards, and so are the camera, the
    samples, the tier, the level-of-detail registry and the settings. *)
Theorem passes_write_three_properties
    (multiplyMatrices : Matrix4 -> Matrix4 -> Matrix4)
    (setFromProjectionMatrix : Matrix4 -> Frustum)
    (applyMatrix4 : Sphere -> Matrix4 -> Sphere)
    (intersectsSphere : Frustum -> Sphere -> bool) (st : Optimizer) :
  let st' := update multiplyMatrices setFromProjectionMatrix applyMatrix4
               intersectsSphere st in
  traverse blank_written (scene st') = traverse blank_written (scene st)
  /\ map fst (nodes (scene st')) = map fst (nodes (scene st))
  /\ set_scene (scene st) st' = st.
Proof.
  intros st'.
  assert (H1 : traverse blank_written (scene st') = traverse blank_written (scene st)).
  { unfold st', update, updateFrustumCulling.
    destruct (enableFrustumCulling (optimizationSettings (updateLOD st)));
      simpl; [|apply updateLOD_blank].
    destruct (camera (updateLOD st)); simpl; [|apply updateLOD_blank].
    rewrite traverse_blank; [apply updateLOD_blank | apply blank_cull]. }
  split; [exact H1|]. split.
  - apply (f_equal nodes) in H1. rewrite !nodes_traverse in H1.
    apply (f_equal (map fst)) in H1. rewrite !map_map in H1. simpl in H1. exact H1.
  - unfold st', update, updateLOD, updateFrustumCulling.
    destruct st as [sc cam fc lt avg level lod settings]. simpl.
    destruct (enableLOD settings), (enableFrustumCulling settings) eqn:E; simpl;
      rewrite ?E; simpl; try reflexivity; destruct cam; reflexivity.
Qed.

(** X22. Each pass is idempotent. Handling a level-of-detail entry a
    second time, with the camera where it was, gives the node and its
    subtree exactly what the first time gave, in each of the three distance
    bands and whatever the thresholds are; and culling a scene twice is the
    same as culling it once. *)
Theorem passes_are_idempotent
    (multiplyMatrices : Matrix4 -> Matrix4 -> Matrix4)
    (setFromProjectionMatrix : Matrix4 -> Frustum)
    (applyMatrix4 : Sphere -> Matrix4 -> Sphere)
    (intersectsSphere : Frustum -> Sphere -> bool) :
  (forall cameraPosition config o,
     lod_entry cameraPosition config (lod_entry cameraPosition config o) =
     lod_entry cameraPosition config o)
  /\ (forall st,
     let culling := updateFrustumCulling multiplyMatrices setFromProjectionMatrix
                      applyMatrix4 intersectsSphere in
     culling (culling st) = culling st).
Proof.
  split.
  - intros cameraPosition config o.
    unfold lod_entry at 1. rewrite lod_entry_position. unfold lod_entry.
    destruct (gt _ (farDistance config)); [now destruct o|].
    destruct (gt _ (mediumDistance config)); [apply applyMediumLOD_again|].
    unfold applyHighLOD. destruct o as [u p cs]. simpl.
    f_equal.
    + rewrite !highLOD_set_visible, highLOD_idempotent. reflexivity.
    + rewrite map_map. apply map_ext. intros c.
      apply traverse_idempotent, highLOD_idempotent.
  - intros st culling. unfold culling, updateFrustumCulling.
    destruct st as [sc cam fc lt avg level lod settings]. simpl.
    destruct (enableFrustumCulling settings) eqn:E; simpl; [|now rewrite E].
    destruct cam as [pos proj inv|pos]; simpl; rewrite E; simpl; [|reflexivity].
    unfold set_scene. simpl. f_equal.
    apply traverse_idempotent, cull_idempotent.
Qed.

(** X23. Switching the passes off. After [setOptimizationSettings] has
    cleared both switches, [update] returns the optimizer and its scene
    unchanged, and the timer does not switch them on again. Without that,
    the culling pass alone does nothing when the camera is not a perspective
    camera, and the level-of-detail pass does nothing while no node is
    registered. *)
Theorem passes_can_be_switched_off
    (multiplyMatrices : Matrix4 -> Matrix4 -> Matrix4)
    (setFromProjectionMatrix : Matrix4 -> Frustum)
    (applyMatrix4 : Sphere -> Matrix4 -> Sphere)
    (intersectsSphere : Frustum -> Sphere -> bool) (st : Optimizer) :
  let update := update multiplyMatrices setFromProjectionMatrix applyMatrix4
                  intersectsSphere in
  let off := setOptimizationSettings passes_off st in
  update off = off
  /\ (forall times r,
        update (fst (monitoring times (off, r))) = fst (monitoring times (off, r)))
  /\ (forall position, camera st = OtherCamera position ->
        updateFrustumCulling multiplyMatrices setFromProjectionMatrix applyMatrix4
          intersectsSphere st = st)
  /\ (lodObjects st = [] -> updateLOD st = st).
Proof.
  intros upd off.
  assert (Hoff : forall st0, enableLOD (optimizationSettings st0) = false ->
                   enableFrustumCulling (optimizationSettings st0) = false ->
                   upd st0 = st0).
  { intros st0 H1 H2. unfold upd, update, updateLOD, updateFrustumCulling.
    rewrite H1. simpl. now rewrite H2. }
  assert (Hmon : forall times q,
             enableLOD (optimizationSettings (fst q)) = false ->
             enableFrustumCulling (optimizationSettings (fst q)) = false ->
             enableLOD (optimizationSettings (fst (monitoring times q))) = false
             /\ enableFrustumCulling (optimizationSettings (fst (monitoring times q))) = false).
  { induction times as [|t times IH]; intros q H1 H2; simpl; [auto|].
    apply IH; unfold monitor, adjustQualitySettings, updatePerformanceLevel; simpl;
      repeat match goal with |- context [if ?c then _ else _] => destruct c; simpl end;
      repeat match goal with |- context [match ?c with high => _ | _ => _ end] =>
               destruct c; simpl end; assumption. }
  split; [now apply Hoff|]. split; [|split].
  - intros times r. destruct (Hmon times (off, r) eq_refl eq_refl). now apply Hoff.
  - intros position Hcam. unfold updateFrustumCulling. rewrite Hcam.
    now destruct (enableFrustumCulling (optimizationSettings st)).
  - intros Hlod. unfold updateLOD. rewrite Hlod. simpl.
    destruct st. now destruct (enableLOD _).
Qed.

Lemma passes_can_be_switched_off_witness :
  lodObjects (new_optimizer far_group (OtherCamera camera_origin) 0) = []
  /\ update sample_multiplyMatrices sample_setFromProjectionMatrix sample_applyMatrix4
       sample_intersectsSphere (new_optimizer far_group (OtherCamera camera_origin) 0) =
     new_optimizer far_group (OtherCamera camera_origin) 0.
Proof.
  split; [reflexivity|].
  destruct (passes_can_be_switched_off sample_multiplyMatrices
              sample_setFromProjectionMatrix sample_applyMatrix4 sample_intersectsSphere
              (new_optimizer far_group (OtherCamera camera_origin) 0))
    as (_ & _ & Hcam & Hlod).
  unfold update. rewrite (Hlod eq_refl). exact (Hcam camera_origin eq_refl).
Defined.

(** *** A thousand over a delay of a second or more *)

Lemma digits2_pos_bounds (p : positive) :
  (2 ^ (Z.pos (digits2_pos p) - 1) <= Z.pos p < 2 ^ Z.pos (digits2_pos p))%Z.
Proof.
  induction p as [p IH|p IH|]; simpl digits2_pos.
  - rewrite Pos2Z.inj_succ, (Pos2Z.inj_xI p).
    replace (Z.succ (Z.pos (digits2_pos p)) - 1)%Z with (Z.succ (Z.pos (digits2_pos p) - 1))%Z
      by lia.
    rewrite !Z.pow_succ_r by lia. lia.
  - rewrite Pos2Z.inj_succ, (Pos2Z.inj_xO p).
    replace (Z.succ (Z.pos (digits2_pos p)) - 1)%Z with (Z.succ (Z.pos (digits2_pos p) - 1))%Z
      by lia.
    rewrite !Z.pow_succ_r by lia. lia.
  - simpl. lia.
Qed.

Lemma Zdigits2_le (m k : Z) : (0 <= m < 2 ^ k)%Z -> (0 <= k)%Z -> (Zdigits2 m <= k)%Z.
Proof.
  intros [H0 Hk] Hk0. destruct m as [|p|p]; simpl; [exact Hk0| |lia].
  destruct (digits2_pos_bounds p) as [Hlo _].
  assert (H : (2 ^ (Z.pos (digits2_pos p) - 1) < 2 ^ k)%Z) by lia.
  apply Z.pow_lt_mono_r_iff in H; lia.
Qed.

Lemma shr_1_le (mrs : shr_record) :
  (0 <= shr_m mrs)%Z -> (0 <= shr_m (shr_1 mrs) <= shr_m mrs)%Z.
Proof.
  destruct mrs as [m r s]. simpl. destruct m as [|[p|p|]|p]; simpl; lia.
Qed.

Lemma iter_pos_shr_1_le (p : positive) (mrs : shr_record) :
  (0 <= shr_m mrs)%Z -> (0 <= shr_m (iter_pos shr_1 p mrs) <= shr_m mrs)%Z.
Proof.
  revert mrs. induction p as [p IH|p IH|]; intros mrs H; simpl.
  - destruct (shr_1_le mrs H) as [H1 H2].
    destruct (IH _ H1) as [H3 H4]. destruct (IH _ H3) as [H5 H6]. lia.
  - destruct (IH _ H) as [H3 H4]. destruct (IH _ H3) as [H5 H6]. lia.
  - now apply shr_1_le.
Qed.

Lemma shr_fexp_bounds (m e : Z) (l : location) :
  (0 <= m)%Z ->
  (0 <= shr_m (fst (shr_fexp prec emax m e l)) <= m)%Z
  /\ snd (shr_fexp prec emax m e l) = Z.max e (fexp prec emax (Zdigits2 m + e)).
Proof.
  intros Hm. unfold shr_fexp, shr.
  assert (Hrec : shr_m (shr_record_of_loc m l) = m) by (now destruct l as [|[]]).
  destruct (fexp prec emax (Zdigits2 m + e) - e)%Z as [|p|p] eqn:E; simpl.
  - rewrite Hrec. split; lia.
  - split; [|lia]. rewrite <- Hrec at 3. apply iter_pos_shr_1_le. now rewrite Hrec.
  - rewrite Hrec. split; lia.
Qed.

Lemma round_nearest_even_le (m : Z) (l : location) :
  (0 <= m)%Z -> (0 <= round_nearest_even m l <= m + 1)%Z.
Proof.
  intros Hm. unfold round_nearest_even. destruct l as [|[]]; try lia.
  destruct (Z.even m); lia.
Qed.

(** Rounding a mantissa below 2^54 at an exponent of -53 or less gives a
    zero or a finite number whose exponent is -50 or less. *)
Lemma binary_round_aux_small (m e : Z) (l : location) :
  (0 <= m < 2 ^ 54)%Z -> (e <= -53)%Z ->
  match binary_round_aux prec emax false m e l with
  | S754_zero _ => True
  | S754_finite s _ e' => s = false /\ (e' <= -50)%Z
  | _ => False
  end.
Proof.
  intros [Hm0 Hm] He. unfold binary_round_aux.
  destruct (shr_fexp_bounds m e l Hm0) as [[H1 H2] H3].
  destruct (shr_fexp prec emax m e l) as [mrs' e1]. simpl in H1, H2, H3.
  assert (Hd : (Zdigits2 m <= 54)%Z) by (apply Zdigits2_le; lia).
  assert (He1 : (e1 <= -52)%Z).
  { rewrite H3. unfold fexp, emin, prec, emax. lia. }
  set (m1 := round_nearest_even (shr_m mrs') (loc_of_shr_record mrs')).
  destruct (round_nearest_even_le (shr_m mrs') (loc_of_shr_record mrs') H1) as [Hr0 Hr].
  fold m1 in Hr0, Hr.
  destruct (shr_fexp_bounds m1 e1 loc_Exact Hr0) as [[H4 H5] H6].
  destruct (shr_fexp prec emax m1 e1 loc_Exact) as [mrs'' e2]. simpl in H4, H5, H6.
  assert (Hd1 : (Zdigits2 m1 <= 55)%Z).
  { apply Zdigits2_le; [|lia]. split; [exact Hr0|].
    change (2 ^ 55)%Z with (2 * 2 ^ 54)%Z. lia. }
  assert (He2 : (e2 <= -50)%Z).
  { rewrite H6. unfold fexp, emin, prec, emax. lia. }
  destruct (shr_m mrs'') as [|p|p]; [exact I| |lia].
  replace (e2 <=? emax - prec)%Z with true
    by (symmetry; apply Z.leb_le; unfold emax, prec; lia).
  auto.
Qed.

Lemma ge_1000_shape (d : number) :
  (1000 <=? d) = true -> is_infinity d = false ->
  exists m e, Prim2SF d = S754_finite false m e
              /\ (-43 <= e)%Z /\ (2 ^ 52 <= Z.pos m)%Z.
Proof.
  intros Hd Hfin. assert (Hvalid := Prim2SF_valid d).
  revert Hd Hfin. unfold is_infinity.
  rewrite FloatAxioms.leb_spec, FloatAxioms.eqb_spec, abs_spec. unfold SFleb, SFeqb.
  change (Prim2SF infinity) with (S754_infinity false).
  change (Prim2SF 1000) with (S754_finite false 8796093022208000 (-43)).
  destruct (Prim2SF d) as [s|s| |s m e]; try (simpl; discriminate).
  destruct s; try (simpl; discriminate).
  unfold SFcompare. cbv beta iota.
  intros Hle _. exists m, e. split; [reflexivity|].
  assert (He : (-43 <= e)%Z).
  { destruct (Z.compare_spec (-43) e); try lia; discriminate. }
  split; [exact He|].
  simpl in Hvalid. unfold bounded, canonical_mantissa in Hvalid.
  apply andb_true_iff in Hvalid. destruct Hvalid as [Hc _].
  apply Z.eqb_eq in Hc. unfold fexp, emin, prec, emax in Hc.
  assert (Hdig : Z.pos (digits2_pos m) = 53%Z) by lia.
  destruct (digits2_pos_bounds m) as [Hlo _]. rewrite Hdig in Hlo. exact Hlo.
Qed.

(** A thousand divided by a finite delay of a thousand or more is below
    thirty (it is at most one, up to rounding). *)
Lemma thousand_over_delay (d : number) :
  (1000 <=? d) = true -> is_infinity d = false ->
  (50 <=? 1000 / d) = false /\ (30 <=? 1000 / d) = false.
Proof.
  intros Hd Hfin. destruct (ge_1000_shape d Hd Hfin) as (m & e & Hsf & He & Hm).
  rewrite !FloatAxioms.leb_spec, div_spec. unfold SF64div. rewrite Hsf.
  change (Prim2SF 1000) with (S754_finite false 8796093022208000 (-43)).
  change (Prim2SF 50) with (S754_finite false 7036874417766400 (-47)).
  change (Prim2SF 30) with (S754_finite false 8444249301319680 (-48)).
  unfold SFdiv, SFdiv_core_binary.
  change (Zdigits2 (Z.pos 8796093022208000)) with 53%Z.
  assert (Hvalid := Prim2SF_valid d). rewrite Hsf in Hvalid. simpl in Hvalid.
  unfold bounded, canonical_mantissa in Hvalid.
  apply andb_true_iff in Hvalid. destruct Hvalid as [Hc Hb].
  apply Z.eqb_eq in Hc. apply Z.leb_le in Hb.
  unfold fexp, emin, prec, emax in Hc, Hb.
  assert (Hdig : Zdigits2 (Z.pos m) = 53%Z) by (simpl; lia).
  rewrite Hdig.
  set (e' := Z.min (fexp prec emax (53 + -43 - (53 + e))) (-43 - e)).
  assert (He' : (e' <= -53)%Z /\ (0 <= -43 - e - e' <= 53)%Z).
  { unfold e', fexp, emin, prec, emax. lia. }
  destruct He' as [He'1 He'2].
  set (m' := match (-43 - e - e')%Z with
             | 0%Z => Z.pos 8796093022208000
             | Z.pos _ => Z.shiftl (Z.pos 8796093022208000) (-43 - e - e')
             | Z.neg _ => 0%Z
             end).
  assert (Hm' : (0 <= m' <= 8796093022208000 * 2 ^ 53)%Z).
  { unfold m'. destruct (-43 - e - e')%Z as [|p|p] eqn:Es; [lia| |lia].
    rewrite Z.shiftl_mul_pow2 by lia.
    assert (H := Z.pow_le_mono_r 2 (Z.pos p) 53 ltac:(lia) ltac:(lia)).
    assert (0 < 2 ^ Z.pos p)%Z by (apply Z.pow_pos_nonneg; lia).
    nia. }
  assert (Hq : (0 <= m' / Z.pos m < 2 ^ 54)%Z).
  { split; [apply Z.div_pos; lia|].
    apply Z.div_lt_upper_bound; [lia|].
    change (2 ^ 54)%Z with 18014398509481984%Z.
    change (2 ^ 52)%Z with 4503599627370496%Z in Hm.
    change (2 ^ 53)%Z with 9007199254740992%Z in Hm'. lia. }
  unfold Z.div in Hq.
  destruct (Z.div_eucl m' (Z.pos m)) as [q r]. simpl in Hq.
  assert (Hround := binary_round_aux_small q e' (new_location (Z.pos m) r) Hq He'1).
  simpl xorb.
  destruct (binary_round_aux prec emax false q e' (new_location (Z.pos m) r))
    as [s|s| |s mr er]; try contradiction.
  - now destruct s.
  - destruct Hround as [-> Her]. unfold SFleb, SFcompare.
    destruct (Z.compare_spec (-47) er); try lia;
      destruct (Z.compare_spec (-48) er); try lia; auto.
Qed.

(** *** The timer-driven sample *)

Lemma zero_over_delay (d : number) :
  (1000 <=? d) = true -> is_infinity d = false -> 0 / d = 0.
Proof.
  intros Hd Hfin. destruct (ge_1000_shape d Hd Hfin) as (m & e & Hsf & _).
  apply Prim2SF_inj. rewrite div_spec. unfold SF64div. rewrite Hsf. reflexivity.
Qed.

Lemma monitor_sample (q : Optimizer * Rendering) (t : number) :
  frameCount (fst q) = 0 \/ frameCount (fst q) = 1 ->
  ge (t - lastTime (fst q)) 1000 = true ->
  is_infinity (t - lastTime (fst q)) = false ->
  let q' := monitor q t in
  (performanceLevel (fst q') = low
   /\ (averageFPS (fst q') <? 30) = true
   /\ snd q' = {| shadowMap_type := BasicShadowMap; fog := None |}
   /\ shadowMapSize (optimizationSettings (fst q')) = 512
   /\ maxShadowDistance (optimizationSettings (fst q')) = 50
   /\ averageFPS (fst q') = frameCount (fst q) * 1000 / (t - lastTime (fst q))
   /\ (frameCount (fst q) = 0 -> averageFPS (fst q') = 0))
  /\ frameCount (fst q') = 1 /\ lastTime (fst q') = t.
Proof.
  intros Hfc Hge Hfin q'.
  assert (Hc : classify (frameCount (fst q) * 1000 / (t - lastTime (fst q))) = low
               /\ (frameCount (fst q) * 1000 / (t - lastTime (fst q)) <? 30) = true
               /\ (frameCount (fst q) = 0 ->
                   frameCount (fst q) * 1000 / (t - lastTime (fst q)) = 0)).
  { unfold ge in Hge. destruct Hfc as [-> | ->].
    - change (0 * 1000) with 0. rewrite (zero_over_delay _ Hge Hfin).
      repeat split; reflexivity.
    - change (1 * 1000) with 1000.
      destruct (thousand_over_delay _ Hge Hfin) as [H50 H30].
      split; [unfold classify, ge; now rewrite H50, H30|].
      split; [|intros H; vm_compute in H; discriminate].
      apply not_leb_ltb; [reflexivity| |exact H30].
      apply (sample_not_nan 1 _ eq_refl Hge Hfin). }
  destruct Hc as (Hlow & Hlt & Hzero).
  unfold q', monitor, adjustQualitySettings, updatePerformanceLevel. simpl.
  rewrite Hge. simpl. rewrite Hlow. simpl. repeat split; auto.
Qed.

Lemma monitoring_low (times : list number) (q : Optimizer * Rendering) :
  times <> [] ->
  frameCount (fst q) = 0 \/ frameCount (fst q) = 1 ->
  a_second_apart (lastTime (fst q)) times ->
  let q' := monitoring times q in
  performanceLevel (fst q') = low
  /\ (averageFPS (fst q') <? 30) = true
  /\ snd q' = {| shadowMap_type := BasicShadowMap; fog := None |}
  /\ shadowMapSize (optimizationSettings (fst q')) = 512
  /\ maxShadowDistance (optimizationSettings (fst q')) = 50.
Proof.
  revert q. induction times as [|t rest IH]; intros q Hne Hfc Hapart; [now elim Hne|].
  destruct Hapart as (Hge & Hfin & Hrest).
  destruct (monitor_sample q t Hfc Hge Hfin)
    as ((H1 & H2 & H3 & H4 & H5 & _) & H6 & H7).
  simpl. destruct rest as [|t' rest'].
  - simpl. auto.
  - apply IH; [discriminate | now right | now rewrite H7].
Qed.

Lemma a_second_apart_suffix (before : list number) (last previous : number)
    (rest : list number) :
  a_second_apart last (before ++ previous :: rest) ->
  a_second_apart last (before ++ [previous]) /\ a_second_apart previous rest.
Proof.
  revert last. induction before as [|t before IH]; intros last; simpl.
  - intros (H1 & H2 & H3). auto.
  - intros (H1 & H2 & H3). destruct (IH t H3). auto.
Qed.

Lemma monitoring_state (before : list number) (previous : number)
    (q : Optimizer * Rendering) :
  frameCount (fst q) = 0 \/ frameCount (fst q) = 1 ->
  a_second_apart (lastTime (fst q)) (before ++ [previous]) ->
  frameCount (fst (monitoring (before ++ [previous]) q)) = 1
  /\ lastTime (fst (monitoring (before ++ [previous]) q)) = previous.
Proof.
  revert q. induction before as [|t before IH]; intros q Hfc; simpl.
  - intros (Hge & Hfin & _). now destruct (monitor_sample q previous Hfc Hge Hfin).
  - intros (Hge & Hfin & Hrest).
    destruct (monitor_sample q t Hfc Hge Hfin) as (_ & H6 & H7).
    apply IH; [now right | now rewrite H7].
Qed.

(** X24. Driven by its own timer, the optimizer always ends on the low
    tier. The frame counter is advanced only by [updatePerformanceLevel]
    itself, and only the timer calls that, once a second: what is sampled is
    the number of timer callbacks, not of rendered frames. When the timer
    keeps its period, the first sample after construction reads 0 frames per
    second, and every later one reads 1000 divided by the delay since the
    callback before, which is below 30. So after any number of callbacks
    (one or more) the tier is low and the low-quality settings are in force:
    basic shadows of size 512 up to 50 units, and no fog. *)
Theorem timer_driven_tier_is_always_low (sc : SceneGraph) (cam : Camera) (t0 : number)
    (r : Rendering) (times : list number) :
  times <> [] ->
  a_second_apart t0 times ->
  let q := monitoring times (new_optimizer sc cam t0, r) in
  performanceLevel (fst q) = low
  /\ (averageFPS (fst q) <? 30) = true
  /\ snd q = {| shadowMap_type := BasicShadowMap; fog := None |}
  /\ shadowMapSize (optimizationSettings (fst q)) = 512
  /\ maxShadowDistance (optimizationSettings (fst q)) = 50
  /\ (forall t, times = [t] -> averageFPS (fst q) = 0)
  /\ (forall before previous t, times = before ++ [previous; t] ->
        averageFPS (fst q) = 1000 / (t - previous)).
Proof.
  intros Hne Hapart q.
  destruct (monitoring_low times (new_optimizer sc cam t0, r) Hne (or_introl eq_refl) Hapart)
    as (H1 & H2 & H3 & H4 & H5).
  repeat (split; [assumption|]).
  split.
  - intros t ->. destruct Hapart as (Hge & Hfin & _).
    destruct (monitor_sample (new_optimizer sc cam t0, r) t (or_introl eq_refl) Hge Hfin)
      as ((_ & _ & _ & _ & _ & _ & H) & _).
    now apply H.
  - intros before previous t ->.
    destruct (a_second_apart_suffix before t0 previous [t] Hapart)
      as (Hprefix & Hge & Hfin & _).
    destruct (monitoring_state before previous (new_optimizer sc cam t0, r)
                (or_introl eq_refl) Hprefix) as (Hfc & Hlast).
    unfold q.
    change (before ++ [previous; t]) with (before ++ [previous] ++ [t]).
    rewrite app_assoc. unfold monitoring. rewrite fold_left_app. simpl.
    fold (monitoring (before ++ [previous]) (new_optimizer sc cam t0, r)).
    set (q1 := monitoring (before ++ [previous]) (new_optimizer sc cam t0, r)) in *.
    rewrite <- Hlast in Hge, Hfin.
    destruct (monitor_sample q1 t (or_intror Hfc) Hge Hfin)
      as ((_ & _ & _ & _ & _ & Havg & _) & _).
    rewrite Havg, Hfc, Hlast. reflexivity.
Qed.

Lemma timer_driven_tier_is_always_low_witness :
  a_second_apart 0 [1000; 2000.5; 3001]
  /\ performanceLevel
       (fst (monitoring [1000; 2000.5; 3001]
               (new_optimizer far_group (OtherCamera camera_origin) 0, sample_rendering))) = low
  /\ averageFPS
       (fst (monitoring [1000]
               (new_optimizer far_group (OtherCamera camera_origin) 0, sample_rendering))) = 0
  /\ averageFPS
       (fst (monitoring [1000; 2000.5; 3001]
               (new_optimizer far_group (OtherCamera camera_origin) 0, sample_rendering)))
     = 1000 / 1000.5
  /\ fog (snd (monitoring [1000; 2000.5; 3001]
               (new_optimizer far_group (OtherCamera camera_origin) 0, sample_rendering)))
     = None.
Proof.
  assert (H : a_second_apart 0 [1000; 2000.5; 3001]) by (vm_compute; auto 10).
  assert (H1 : a_second_apart 0 [1000]) by (vm_compute; auto 10).
  split; [exact H|].
  destruct (timer_driven_tier_is_always_low far_group (OtherCamera camera_origin) 0
              sample_rendering [1000; 2000.5; 3001] ltac:(discriminate) H)
    as (Hlow & _ & Hr & _ & _ & _ & Havg).
  destruct (timer_driven_tier_is_always_low far_group (OtherCamera camera_origin) 0
              sample_rendering [1000] ltac:(discriminate) H1)
    as (_ & _ & _ & _ & _ & Hzero & _).
  split; [exact Hlow|]. split; [exact (Hzero 1000 eq_refl)|].
  split; [exact (Havg [1000] 2000.5 3001 eq_refl)|].
  now rewrite Hr.
Defined.

End OptimizerPassFacts.
